(** * FlexTermEditor: the animation scheduling engine

    A shallow embedding of [animations.py], [pop_animation.py] and the
    parts of [micro_animations.py] that drive them, followed by the
    properties the specification states about them and by further
    properties of the engine.

    Conventions of the embedding.
    - Python floats are IEEE binary64 numbers: Rocq's primitive [float].
    - Python objects live in a store ([World]); an object reference is
      its index in the store, so aliasing is explicit.
    - A [threading.Timer] is a store object with a state.  [fire] runs
      the callback of a pending timer ([_advance]) to its end, and a
      schedule of firings ([fires]) is a run in which no two callbacks
      overlap.  Callbacks that overlap are runs of [interleave], where
      the thread of a timer executes [_advance] a statement at a time;
      a thread that nothing interrupts does what [fire] does.
    - Callables handed in by the caller ([on_update], [on_complete]) are
      opaque: calling one appends an event to the [trace] and leaves the
      store alone.
    - [math.sin] and [math.pow] are the platform's; they are parameters
      ([Libm]) of the definitions that reach them.
    - The [animation_lock] of the composites guards blocks that never
      nest; with one thing happening at a time it has no effect and is
      left out.  So is [start_time], which is written and never read.
    - Step counters and scale factors mix [int] and [float] in Python;
      an [int] operand of a float operation is converted with
      [float_of_Z] to the nearest double, as Python does.  Python
      refuses the ints that have none, from [float_int_limit] on, with
      OverflowError; see [float_div_int]. *)

From Stdlib Require Import ZArith Floats Bool Lia DecimalString.
From Stdlib Require DecimalNat DecimalFacts.
From stdpp Require Import base option list gmap strings.

Set Warnings "-inexact-float".
Local Open Scope Z_scope.

(** ** Python values and exceptions *)

Inductive exn :=
| ZeroDivisionError | AttributeError | KeyError | TypeError
| ValueError | OverflowError.

(** The outcome of evaluating an expression: a value or a raised exception. *)
Inductive Py (A : Type) :=
| Val (a : A)
| Exc (e : exn).
Arguments Val {A} a.
Arguments Exc {A} e.

Inductive value :=
| VInt (z : Z)
| VFloat (f : float).

(** [float(z)] for an [int] operand of a mixed or true division: the
    double nearest to [z], ties to even.  From [float_int_limit] on there
    is none; the rounding gives an infinity there, where Python raises
    OverflowError. *)
Definition float_of_Z (z : Z) : float :=
  SF2Prim (binary_normalize prec emax z 0 false).

(** The least int Python does not convert to a float. *)
Definition float_int_limit : Z := 2 ^ 1024 - 2 ^ 970.

(** An int [self.duration] can be divided by: not 0, and small enough
    to have a float. *)
Definition divisor (n : Z) : Prop := n <> 0 /\ Z.abs n < float_int_limit.

(** [int(x)] for a finite float: truncation toward zero. *)
Definition int_of_float (x : float) : Z :=
  let (m, e) := PrimFloat.frshiftexp (PrimFloat.abs x) in
  let mant := Uint63.to_Z (PrimFloat.normfr_mantissa m) in
  let ex := Uint63.to_Z e - FloatOps.shift - FloatOps.prec in
  let mag := if 0 <=? ex then Z.shiftl mant ex else Z.shiftr mant (- ex) in
  if PrimFloat.ltb x 0%float then - mag else mag.

(** [x / n] with a float [x] and an int [n] that has a float.  For an
    [n] from [float_int_limit] on, Python raises OverflowError before it
    divides.  The statements that start an animation from an arbitrary
    state take its [max_steps] as a [divisor]; the others are about
    animations that hold a timer of their own, which the same division
    produced, or whose class is built with 10 steps. *)
Definition float_div_int (x : float) (n : Z) : Py float :=
  if n =? 0 then Exc ZeroDivisionError
  else Val (PrimFloat.div x (float_of_Z n)).

(** [a / b] with two ints (true division); the correctly rounded quotient
    for [|a|, |b| < 2^53]. *)
Definition int_truediv (a b : Z) : Py float :=
  float_div_int (float_of_Z a) b.

#[global] Arguments float_of_Z : simpl never.
#[global] Arguments int_of_float : simpl never.
#[global] Arguments float_div_int : simpl never.
#[global] Arguments int_truediv : simpl never.

(** [math.pi] *)
Definition pi : float := 0x1.921fb54442d18p+1%float.

(** The two functions of the [math] module the easing curves call. *)
Record Libm := {
  sin : float -> Py float;
  pow : float -> float -> Py float }.

(** ** The data model *)

(** A callable passed as [on_update]. *)
Inductive callback :=
| UserCallback (id : nat)
| RefreshUiLambda.   (* lambda v: self._refresh_ui() *)

(** What the outside world can see of a run. *)
Inductive event :=
| Setattr (obj : nat) (name : string) (v : value)
| CallUpdate (cb : nat) (v : value)
| CallComplete (pop : nat) (cb : nat)
| RefreshUi.

(** The fields a subclass of [AnimationState] adds in its [__init__]. *)
Inductive Subclass :=
| Base
| FadeAnimation (target_object : nat) (property_name : string)
    (start_value end_value : float) (on_update : option callback)
| SlideAnimation (target_object : nat) (property_name : string)
    (start_pos end_pos : float) (on_update : option callback)
| ScaleAnimation (target_object : nat) (property_name : string)
    (start_scale end_scale : float) (on_update : option callback)
| BlinkAnimation (target_object : nat) (property_name : string)
    (blink_count : Z) (on_update : option callback)
| PulseAnimation (target_obj : nat) (pulse_count : Z)
| NavigationAnimation (target : nat).

Record AnimationState := {
  kind : Subclass;
  animating : bool;
  current_step : Z;
  max_steps : Z;
  duration : float;
  timer : option nat;
  (* the instance attribute [on_complete], when one shadows the method:
     the [completion_wrapper] closure of that PopOutAnimation *)
  on_complete_attr : option nat }.

Inductive TimerState := Pending | Cancelled | Fired.

(** [threading.Timer(interval, animation._advance)], started. *)
Record Timer := {
  t_owner : nat;
  t_interval : float;
  t_state : TimerState }.

Inductive PopKind := PopIn | PopOut.

(** [PopInAnimation] and [PopOutAnimation]; only the latter has
    [on_complete]. *)
Record PopAnimation := {
  pop_kind : PopKind;
  pop_target_object : nat;
  pop_opacity_property : string;
  pop_scale_property : string;
  pop_on_update : option callback;
  pop_on_complete : option nat;
  pop_start_scale : float;
  pop_end_scale : float;
  pop_duration : float;
  pop_easing : string;
  fade_animation : option nat;
  scale_animation : option nat }.

(** The lambdas [MicroAnimations.register_animations] registers. *)
Inductive factory :=
| button_press | toggle_on | toggle_off | panel_focus
| notification_pulse | tab_flash.

(** A value of the manager's [animations] dict. *)
Inductive entry :=
| Anim (a : nat)
| Pop (p : nat)
| Factory (f : factory).

Record World := {
  anims : list AnimationState;
  pops : list PopAnimation;
  timers : list Timer;
  attrs : gmap (nat * string) value;
  animations : gmap string entry;
  trace : list event }.

Definition empty_world : World :=
  {| anims := []; pops := []; timers := []; attrs := ∅;
     animations := ∅; trace := [] |}.

(** *** Field updates *)

Definition set_animating (b : bool) (s : AnimationState) : AnimationState :=
  {| kind := kind s; animating := b; current_step := current_step s;
     max_steps := max_steps s; duration := duration s; timer := timer s;
     on_complete_attr := on_complete_attr s |}.

Definition set_current_step (n : Z) (s : AnimationState) : AnimationState :=
  {| kind := kind s; animating := animating s; current_step := n;
     max_steps := max_steps s; duration := duration s; timer := timer s;
     on_complete_attr := on_complete_attr s |}.

Definition set_max_steps (n : Z) (s : AnimationState) : AnimationState :=
  {| kind := kind s; animating := animating s; current_step := current_step s;
     max_steps := n; duration := duration s; timer := timer s;
     on_complete_attr := on_complete_attr s |}.

Definition set_duration (d : float) (s : AnimationState) : AnimationState :=
  {| kind := kind s; animating := animating s; current_step := current_step s;
     max_steps := max_steps s; duration := d; timer := timer s;
     on_complete_attr := on_complete_attr s |}.

Definition set_timer (t : option nat) (s : AnimationState) : AnimationState :=
  {| kind := kind s; animating := animating s; current_step := current_step s;
     max_steps := max_steps s; duration := duration s; timer := t;
     on_complete_attr := on_complete_attr s |}.

Definition set_on_complete_attr (p : option nat) (s : AnimationState)
  : AnimationState :=
  {| kind := kind s; animating := animating s; current_step := current_step s;
     max_steps := max_steps s; duration := duration s; timer := timer s;
     on_complete_attr := p |}.

Definition set_t_state (st : TimerState) (t : Timer) : Timer :=
  {| t_owner := t_owner t; t_interval := t_interval t; t_state := st |}.

Definition set_children (f sc : option nat) (p : PopAnimation) : PopAnimation :=
  {| pop_kind := pop_kind p; pop_target_object := pop_target_object p;
     pop_opacity_property := pop_opacity_property p;
     pop_scale_property := pop_scale_property p;
     pop_on_update := pop_on_update p; pop_on_complete := pop_on_complete p;
     pop_start_scale := pop_start_scale p; pop_end_scale := pop_end_scale p;
     pop_duration := pop_duration p; pop_easing := pop_easing p;
     fade_animation := f; scale_animation := sc |}.

Definition set_pop_duration (d : float) (p : PopAnimation) : PopAnimation :=
  {| pop_kind := pop_kind p; pop_target_object := pop_target_object p;
     pop_opacity_property := pop_opacity_property p;
     pop_scale_property := pop_scale_property p;
     pop_on_update := pop_on_update p; pop_on_complete := pop_on_complete p;
     pop_start_scale := pop_start_scale p; pop_end_scale := pop_end_scale p;
     pop_duration := d; pop_easing := pop_easing p;
     fade_animation := fade_animation p;
     scale_animation := scale_animation p |}.

Definition with_anims (l : list AnimationState) (w : World) : World :=
  {| anims := l; pops := pops w; timers := timers w; attrs := attrs w;
     animations := animations w; trace := trace w |}.

Definition with_pops (l : list PopAnimation) (w : World) : World :=
  {| anims := anims w; pops := l; timers := timers w; attrs := attrs w;
     animations := animations w; trace := trace w |}.

Definition with_timers (l : list Timer) (w : World) : World :=
  {| anims := anims w; pops := pops w; timers := l; attrs := attrs w;
     animations := animations w; trace := trace w |}.

Definition with_attrs (m : gmap (nat * string) value) (w : World) : World :=
  {| anims := anims w; pops := pops w; timers := timers w; attrs := m;
     animations := animations w; trace := trace w |}.

Definition with_animations (m : gmap string entry) (w : World) : World :=
  {| anims := anims w; pops := pops w; timers := timers w; attrs := attrs w;
     animations := m; trace := trace w |}.

Definition with_trace (l : list event) (w : World) : World :=
  {| anims := anims w; pops := pops w; timers := timers w; attrs := attrs w;
     animations := animations w; trace := l |}.

(** ** Statements: a state and exception monad over the store *)

Definition M (A : Type) : Type := World -> Py A * World.

Definition ret {A} (a : A) : M A := fun w => (Val a, w).

Definition bind {A B} (m : M A) (k : A -> M B) : M B :=
  fun w => match m w with
           | (Val a, w') => k a w'
           | (Exc e, w') => (Exc e, w')
           end.

Definition raise {A} (e : exn) : M A := fun w => (Exc e, w).

(** Evaluating an expression that may raise. *)
Definition eval {A} (r : Py A) : M A := fun w => (r, w).

Notation "x <- m ;; k" := (bind m (fun x => k))
  (at level 100, m at next level, right associativity).
Notation "m ;;; k" := (bind m (fun _ => k))
  (at level 100, right associativity).

Definition pass : M unit := ret tt.

(** [for x in l: body(x)] *)
Fixpoint for_each {A} (l : list A) (body : A -> M unit) : M unit :=
  match l with
  | [] => pass
  | x :: l' => body x ;;; for_each l' body
  end.

(** *** Store primitives *)

(** [AnimationState.__init__]: the defaults every instance starts with. *)
Definition init_state (k : Subclass) : AnimationState :=
  {| kind := k; animating := false; current_step := 0; max_steps := 10;
     duration := 0.3%float; timer := None; on_complete_attr := None |}.

#[global] Instance AnimationState_inhabited : Inhabited AnimationState :=
  populate (init_state Base).

#[global] Instance PopAnimation_inhabited : Inhabited PopAnimation :=
  populate {| pop_kind := PopIn; pop_target_object := 0%nat;
              pop_opacity_property := ""; pop_scale_property := "";
              pop_on_update := None; pop_on_complete := None;
              pop_start_scale := 0%float; pop_end_scale := 0%float;
              pop_duration := 0%float; pop_easing := "";
              fade_animation := None; scale_animation := None |}.

#[global] Instance Timer_inhabited : Inhabited Timer :=
  populate {| t_owner := 0; t_interval := 0%float; t_state := Fired |}.

(** Reading and writing the object a reference points to.  References
    handed out by [new_anim] and [new_pop] are always in range. *)
Definition get_anim (a : nat) : M AnimationState :=
  fun w => (Val (anims w !!! a), w).

Definition update_anim (a : nat) (f : AnimationState -> AnimationState)
  : M unit :=
  fun w => (Val tt, with_anims (alter f a (anims w)) w).

Definition new_anim (s : AnimationState) : M nat :=
  fun w => (Val (length (anims w)), with_anims (anims w ++ [s]) w).

Definition get_pop (p : nat) : M PopAnimation :=
  fun w => (Val (pops w !!! p), w).

Definition update_pop (p : nat) (f : PopAnimation -> PopAnimation) : M unit :=
  fun w => (Val tt, with_pops (alter f p (pops w)) w).

Definition new_pop (p : PopAnimation) : M nat :=
  fun w => (Val (length (pops w)), with_pops (pops w ++ [p]) w).

Definition emit (e : event) : M unit :=
  fun w => (Val tt, with_trace (trace w ++ [e]) w).

Definition hasattr (o : nat) (name : string) : M bool :=
  fun w => (Val (bool_decide (is_Some (attrs w !! (o, name)))), w).

Definition setattr (o : nat) (name : string) (v : value) : M unit :=
  fun w => (Val tt,
            with_trace (trace w ++ [Setattr o name v])
              (with_attrs (<[(o, name) := v]> (attrs w)) w)).

(** [if hasattr(o, name): setattr(o, name, v)] *)
Definition setattr_if_present (o : nat) (name : string) (v : value) : M unit :=
  b <- hasattr o name ;;
  if b then setattr o name v else pass.

(** [threading.Timer(interval, owner._advance)] followed by [.start()]. *)
Definition new_timer (owner : nat) (interval : float) : M nat :=
  fun w => (Val (length (timers w)),
            with_timers (timers w ++ [{| t_owner := owner;
                                         t_interval := interval;
                                         t_state := Pending |}]) w).

(** [Timer.cancel()]: a timer that has not fired yet never will. *)
Definition cancel_timer (tm : Timer) : Timer :=
  match t_state tm with
  | Pending => set_t_state Cancelled tm
  | _ => tm
  end.

Definition cancel (t : nat) : M unit :=
  fun w => (Val tt, with_timers (alter cancel_timer t (timers w)) w).

(** [MicroAnimations._refresh_ui] *)
Definition _refresh_ui : M unit := emit RefreshUi.

Definition call_update (cb : callback) (v : value) : M unit :=
  match cb with
  | UserCallback id => emit (CallUpdate id v)
  | RefreshUiLambda => _refresh_ui
  end.

(** [if self.on_update: self.on_update(v)] *)
Definition call_on_update (cb : option callback) (v : value) : M unit :=
  match cb with
  | Some c => call_update c v
  | None => pass
  end.

(** ** animations.py *)

Definition get_progress (s : AnimationState) : Py float :=
  if max_steps s <=? current_step s then Val 1%float
  else int_truediv (current_step s) (max_steps s).

Section Engine.

Variable libm : Libm.

Local Open Scope float_scope.

Definition ease_in_out_quad (linear_progress : float) : float :=
  let p := linear_progress * 2 in
  if p <? 1 then 0.5 * p * p
  else let p := p - 1 in -0.5 * (p * (p - 2) - 1).

Definition ease_out_bounce (linear_progress : float) : float :=
  if linear_progress <? 1 / 2.75 then
    7.5625 * linear_progress * linear_progress
  else if linear_progress <? 2 / 2.75 then
    let p := linear_progress - 1.5 / 2.75 in 7.5625 * p * p + 0.75
  else if linear_progress <? 2.5 / 2.75 then
    let p := linear_progress - 2.25 / 2.75 in 7.5625 * p * p + 0.9375
  else
    let p := linear_progress - 2.625 / 2.75 in 7.5625 * p * p + 0.984375.

Definition ease_in_elastic (linear_progress : float) : Py float :=
  if (linear_progress =? 0) || (linear_progress =? 1) then Val linear_progress
  else
    let p := linear_progress - 1 in
    match pow libm 2 (10 * p) with
    | Exc e => Exc e
    | Val x =>
        match sin libm ((p * 40 - 3) * pi / 6) with
        | Exc e => Exc e
        | Val y => Val (- (x * y))
        end
    end.

Definition ease_out_elastic (linear_progress : float) : Py float :=
  if (linear_progress =? 0) || (linear_progress =? 1) then Val linear_progress
  else
    match pow libm 2 (-10 * linear_progress) with
    | Exc e => Exc e
    | Val x =>
        match sin libm ((linear_progress * 40 - 3) * pi / 6) with
        | Exc e => Exc e
        | Val y => Val (x * y + 1)
        end
    end.

(** The easing function applied to a linear progress. *)
Definition ease (easing_function : string) (linear_progress : float)
  : Py float :=
  if String.eqb easing_function "linear" then Val linear_progress
  else if String.eqb easing_function "ease_in_quad" then
    Val (linear_progress * linear_progress)
  else if String.eqb easing_function "ease_out_quad" then
    Val (- (linear_progress * (linear_progress - 2)))
  else if String.eqb easing_function "ease_in_out_quad" then
    Val (ease_in_out_quad linear_progress)
  else if String.eqb easing_function "ease_out_bounce" then
    Val (ease_out_bounce linear_progress)
  else if String.eqb easing_function "ease_in_elastic" then
    ease_in_elastic linear_progress
  else if String.eqb easing_function "ease_out_elastic" then
    ease_out_elastic linear_progress
  else Val linear_progress.

Definition get_eased_progress (s : AnimationState) (easing_function : string)
  : Py float :=
  match get_progress s with
  | Exc e => Exc e
  | Val linear_progress => ease easing_function linear_progress
  end.

Local Close Scope float_scope.

(** *** AnimationState *)

Definition schedule_next_frame (a : nat) : M unit :=
  s <- get_anim a ;;
  if negb (animating s) then pass
  else
    step_duration <- eval (float_div_int (duration s) (max_steps s)) ;;
    t <- new_timer a step_duration ;;
    update_anim a (set_timer (Some t)).

(** [start_time] is written here and read nowhere; it is left out. *)
Definition start (a : nat) : M unit :=
  update_anim a (set_animating true) ;;;
  update_anim a (set_current_step 0) ;;;
  schedule_next_frame a.

Definition stop (a : nat) : M unit :=
  update_anim a (set_animating false) ;;;
  s <- get_anim a ;;
  match timer s with
  | Some t => cancel t ;;; update_anim a (set_timer None)
  | None => pass
  end.

(** The interpolation shared by Fade, Slide and Scale. *)
Definition interpolate_frame (s : AnimationState) (easing_function : string)
    (target_object : nat) (property_name : string) (lo hi : float)
    (on_update : option callback) : M unit :=
  progress <- eval (get_eased_progress s easing_function) ;;
  let current_value := VFloat (lo + (hi - lo) * progress)%float in
  setattr_if_present target_object property_name current_value ;;;
  call_on_update on_update current_value.

Definition on_frame (a : nat) : M unit :=
  s <- get_anim a ;;
  match kind s with
  | Base => pass
  | FadeAnimation o name start_value end_value on_update =>
      interpolate_frame s "ease_out_quad" o name start_value end_value on_update
  | SlideAnimation o name start_pos end_pos on_update =>
      interpolate_frame s "ease_out_quad" o name start_pos end_pos on_update
  | ScaleAnimation o name start_scale end_scale on_update =>
      interpolate_frame s "ease_out_elastic" o name start_scale end_scale
        on_update
  | BlinkAnimation o name _ on_update =>
      let value := VInt (if current_step s mod 2 =? 0 then 1 else 0) in
      setattr_if_present o name value ;;;
      call_on_update on_update value
  | PulseAnimation o pulse_count =>
      progress <- eval (get_progress s) ;;
      let pulse_progress := (progress * float_of_Z pulse_count)%float in
      let pulse_phase :=
        (pulse_progress - float_of_Z (int_of_float pulse_progress))%float in
      let pulse_value := (1 - PrimFloat.abs (pulse_phase * 2 - 1))%float in
      setattr_if_present o "pulse_intensity" (VFloat pulse_value) ;;;
      _refresh_ui
  | NavigationAnimation o =>
      progress <- eval (get_eased_progress s "elastic_out") ;;
      let scale :=
        (if progress <? 0.5 then 1 + 0.2 * (progress * 2)
         else 1.2 - 0.2 * ((progress - 0.5) * 2))%float in
      setattr_if_present o "scale" (VFloat scale) ;;;
      setattr_if_present o "highlight_intensity" (VFloat 1) ;;;
      _refresh_ui
  end.

(** [PopOutAnimation.create_animations.completion_wrapper], installed on
    the fade child [a] of the pop-out [p]. *)
Definition completion_wrapper (p a : nat) : M unit :=
  update_anim a (set_animating false) ;;;      (* original_on_complete() *)
  pop <- get_pop p ;;
  match pop_on_complete pop with
  | Some cb => emit (CallComplete p cb)
  | None => pass
  end.

Definition on_complete (a : nat) : M unit :=
  s <- get_anim a ;;
  match on_complete_attr s with
  | Some p => completion_wrapper p a
  | None =>
      match kind s with
      | NavigationAnimation o =>
          setattr_if_present o "highlight_intensity" (VFloat 0.7) ;;;
          setattr_if_present o "scale" (VFloat 1) ;;;
          _refresh_ui
      | _ => update_anim a (set_animating false)
      end
  end.

Definition _advance (a : nat) : M unit :=
  s <- get_anim a ;;
  if negb (animating s) then pass
  else
    update_anim a (set_current_step (current_step s + 1)) ;;;
    s <- get_anim a ;;
    if max_steps s <=? current_step s then on_complete a
    else on_frame a ;;; schedule_next_frame a.

(** The scheduler runs the callback of a pending timer.  An exception in
    the timer thread ends that thread only.  The callback runs to its end
    here; [thread_step] runs it a statement at a time. *)
Definition fire (t : nat) (w : World) : World :=
  match timers w !! t with
  | Some tm =>
      match t_state tm with
      | Pending =>
          snd (_advance (t_owner tm)
                 (with_timers (<[t := set_t_state Fired tm]> (timers w)) w))
      | _ => w
      end
  | None => w
  end.

End Engine.

(** The constructors of the subclasses: [super().__init__()] followed by
    the assignments of the subclass. *)
Definition __init__ (k : Subclass) : AnimationState :=
  let s := init_state k in
  match k with
  | BlinkAnimation _ _ blink_count _ => set_max_steps (blink_count * 2) s
  | PulseAnimation _ _ => set_duration 1.5%float s
  | NavigationAnimation _ => set_duration 0.4%float s
  | _ => s
  end.

(** Allocating an instance: [FadeAnimation(...)] and the like. *)
Definition new (k : Subclass) : M nat := new_anim (__init__ k).

(** ** pop_animation.py *)

Module PopInAnimation.

Definition __init__ (target_object : nat)
    (opacity_property scale_property : string)
    (on_update : option callback) (start_scale end_scale duration : float)
    (easing : string) : M nat :=
  new_pop {| pop_kind := PopIn; pop_target_object := target_object;
             pop_opacity_property := opacity_property;
             pop_scale_property := scale_property;
             pop_on_update := on_update; pop_on_complete := None;
             pop_start_scale := start_scale; pop_end_scale := end_scale;
             pop_duration := duration; pop_easing := easing;
             fade_animation := None; scale_animation := None |}.

Definition create_animations (p : nat) : M unit :=
  self <- get_pop p ;;
  f <- new (FadeAnimation (pop_target_object self)
              (pop_opacity_property self) 0 1 (pop_on_update self)) ;;
  update_pop p (fun q => set_children (Some f) (scale_animation q) q) ;;;
  sc <- new (ScaleAnimation (pop_target_object self)
               (pop_scale_property self) (pop_start_scale self)
               (pop_end_scale self) (pop_on_update self)) ;;
  update_pop p (fun q => set_children (fade_animation q) (Some sc) q) ;;;
  update_anim f (set_duration (pop_duration self)) ;;;
  update_anim sc (set_duration (pop_duration self * 0.8)%float).

Definition start (p : nat) : M unit :=
  self <- get_pop p ;;
  (match fade_animation self, scale_animation self with
   | Some _, Some _ => pass
   | _, _ => create_animations p
   end) ;;;
  self <- get_pop p ;;
  setattr_if_present (pop_target_object self) (pop_opacity_property self)
    (VFloat 0) ;;;
  setattr_if_present (pop_target_object self) (pop_scale_property self)
    (VFloat 1.1) ;;;
  (match fade_animation self with
   | Some f => start f
   | None => raise AttributeError
   end) ;;;
  (match scale_animation self with
   | Some sc => start sc
   | None => raise AttributeError
   end).

Definition stop (p : nat) : M unit :=
  self <- get_pop p ;;
  (match fade_animation self with Some f => stop f | None => pass end) ;;;
  (match scale_animation self with Some sc => stop sc | None => pass end).

End PopInAnimation.

Module PopOutAnimation.

Definition __init__ (target_object : nat)
    (opacity_property scale_property : string)
    (on_update : option callback) (on_complete : option nat)
    (start_scale end_scale duration : float) (easing : string) : M nat :=
  new_pop {| pop_kind := PopOut; pop_target_object := target_object;
             pop_opacity_property := opacity_property;
             pop_scale_property := scale_property;
             pop_on_update := on_update; pop_on_complete := on_complete;
             pop_start_scale := start_scale; pop_end_scale := end_scale;
             pop_duration := duration; pop_easing := easing;
             fade_animation := None; scale_animation := None |}.

Definition create_animations (p : nat) : M unit :=
  self <- get_pop p ;;
  f <- new (FadeAnimation (pop_target_object self)
              (pop_opacity_property self) 1 0 (pop_on_update self)) ;;
  update_pop p (fun q => set_children (Some f) (scale_animation q) q) ;;;
  sc <- new (ScaleAnimation (pop_target_object self)
               (pop_scale_property self) (pop_start_scale self)
               (pop_end_scale self) (pop_on_update self)) ;;
  update_pop p (fun q => set_children (fade_animation q) (Some sc) q) ;;;
  update_anim f (set_duration (pop_duration self)) ;;;
  update_anim sc (set_duration (pop_duration self * 0.7)%float) ;;;
  (* self.fade_animation.on_complete = completion_wrapper *)
  update_anim f (set_on_complete_attr (Some p)).

Definition start (p : nat) : M unit :=
  self <- get_pop p ;;
  (match fade_animation self, scale_animation self with
   | Some _, Some _ => pass
   | _, _ => create_animations p
   end) ;;;
  self <- get_pop p ;;
  setattr_if_present (pop_target_object self) (pop_opacity_property self)
    (VFloat 1) ;;;
  setattr_if_present (pop_target_object self) (pop_scale_property self)
    (VFloat 1) ;;;
  (match fade_animation self with
   | Some f => start f
   | None => raise AttributeError
   end) ;;;
  (match scale_animation self with
   | Some sc => start sc
   | None => raise AttributeError
   end).

Definition stop (p : nat) : M unit :=
  self <- get_pop p ;;
  (match fade_animation self with Some f => stop f | None => pass end) ;;;
  (match scale_animation self with Some sc => stop sc | None => pass end).

End PopOutAnimation.

(** ** AnimationManager

    The registry is the dict [animations]. *)

Module AnimationManager.

(** [entry.start()] and [entry.stop()]: method lookup on whatever the
    dict holds; a function object has neither attribute. *)
Definition call_start (e : entry) : M unit :=
  match e with
  | Anim a => start a
  | Pop p =>
      self <- get_pop p ;;
      match pop_kind self with
      | PopIn => PopInAnimation.start p
      | PopOut => PopOutAnimation.start p
      end
  | Factory _ => raise AttributeError
  end.

Definition call_stop (e : entry) : M unit :=
  match e with
  | Anim a => stop a
  | Pop p =>
      self <- get_pop p ;;
      match pop_kind self with
      | PopIn => PopInAnimation.stop p
      | PopOut => PopOutAnimation.stop p
      end
  | Factory _ => raise AttributeError
  end.

Definition add_animation (name : string) (animation : entry) : M entry :=
  fun w => (Val animation,
            with_animations (<[name := animation]> (animations w)) w).

Definition start_animation (name : string) : M bool :=
  fun w => match animations w !! name with
           | Some e => (call_start e ;;; ret true) w
           | None => (Val false, w)
           end.

Definition stop_animation (name : string) : M bool :=
  fun w => match animations w !! name with
           | Some e => (call_stop e ;;; ret true) w
           | None => (Val false, w)
           end.

Definition remove_animation (name : string) : M bool :=
  fun w => match animations w !! name with
           | Some e =>
               (call_stop e ;;;
                (fun w' => (Val tt,
                            with_animations (delete name (animations w')) w')) ;;;
                ret true) w
           | None => (Val false, w)
           end.

(** [for animation in self.animations.values(): animation.stop()].  A
    dict yields its values in the order the keys were inserted, which the
    map does not record: [order] is that order of the keys. *)
Definition stop_all_animations (order : list string) : M unit :=
  for_each order
    (fun name w =>
       match animations w !! name with
       | Some animation => call_stop animation w
       | None => (Val tt, w)
       end).

End AnimationManager.

(** ** micro_animations.py *)

Module MicroAnimations.
Import AnimationManager.

(** [str(id(obj))]: the identity of an object is its reference. *)
Definition str_id (obj : nat) : string :=
  NilZero.string_of_uint (Nat.to_uint obj).

Definition _create_pulse_animation (obj : nat) : M nat :=
  new (PulseAnimation obj 3).

(** Calling a registered lambda on a target. *)
Definition call_factory (f : factory) (obj : nat) : M entry :=
  match f with
  | button_press =>
      p <- PopInAnimation.__init__ obj "scale" "scale" None
             0.95 1 0.15 "ease_out_quad" ;;
      ret (Pop p)
  | toggle_on =>
      a <- new (FadeAnimation obj "highlight" 0 1 (Some RefreshUiLambda)) ;;
      ret (Anim a)
  | toggle_off =>
      a <- new (FadeAnimation obj "highlight" 1 0 (Some RefreshUiLambda)) ;;
      ret (Anim a)
  | panel_focus =>
      a <- new (FadeAnimation obj "border_highlight" 0 1
                  (Some RefreshUiLambda)) ;;
      ret (Anim a)
  | notification_pulse =>
      a <- _create_pulse_animation obj ;;
      ret (Anim a)
  | tab_flash =>
      a <- new (FadeAnimation obj "flash_highlight" 0 1
                  (Some RefreshUiLambda)) ;;
      ret (Anim a)
  end.

(** [entry(obj)]: only function objects are callable. *)
Definition call (e : entry) (obj : nat) : M entry :=
  match e with
  | Factory f => call_factory f obj
  | _ => raise TypeError
  end.

(** [self.animation_manager.animations[name]] *)
Definition getitem (name : string) : M entry :=
  fun w => match animations w !! name with
           | Some e => (Val e, w)
           | None => (Exc KeyError, w)
           end.

(** [name in self.animation_manager.animations] *)
Definition contains (name : string) : M bool :=
  fun w => (Val (bool_decide (is_Some (animations w !! name))), w).

Definition register_animations : M unit :=
  add_animation "button_press" (Factory button_press) ;;;
  add_animation "toggle_on" (Factory toggle_on) ;;;
  add_animation "toggle_off" (Factory toggle_off) ;;;
  add_animation "panel_focus" (Factory panel_focus) ;;;
  add_animation "notification_pulse" (Factory notification_pulse) ;;;
  add_animation "tab_flash" (Factory tab_flash) ;;;
  pass.

Definition animate_toggle (toggle_obj : nat) (state : bool) : M unit :=
  let animation_name := ("toggle_" ++ str_id toggle_obj)%string in
  let base_animation := if state then "toggle_on" else "toggle_off" in
  present <- contains animation_name ;;
  (if negb present then
     f <- getitem base_animation ;;
     toggle_animation <- call f toggle_obj ;;
     add_animation animation_name toggle_animation ;;; pass
   else pass) ;;;
  start_animation animation_name ;;; pass.

Definition animate_search_navigation (result_obj : nat) : M unit :=
  let animation_name := ("search_nav_" ++ str_id result_obj)%string in
  present <- contains animation_name ;;
  (if present then remove_animation animation_name ;;; pass else pass) ;;;
  nav_anim <- new (NavigationAnimation result_obj) ;;
  add_animation animation_name (Anim nav_anim) ;;;
  start_animation animation_name ;;; pass.

(** [obj.duration = d] on what a factory returned; a function object
    takes the attribute too, and nothing reads it there. *)
Definition set_duration_attr (e : entry) (d : float) : M unit :=
  match e with
  | Anim a => update_anim a (set_duration d)
  | Pop p => update_pop p (set_pop_duration d)
  | Factory _ => pass
  end.

Definition animate_button_press (button_obj : nat) : M unit :=
  let animation_name := ("button_press_" ++ str_id button_obj)%string in
  present <- contains animation_name ;;
  (if negb present then
     f <- getitem "button_press" ;;
     button_animation <- call f button_obj ;;
     add_animation animation_name button_animation ;;; pass
   else pass) ;;;
  start_animation animation_name ;;; pass.

Definition animate_panel_focus (panel_obj : nat) : M unit :=
  let animation_name := ("panel_focus_" ++ str_id panel_obj)%string in
  present <- contains animation_name ;;
  (if negb present then
     f <- getitem "panel_focus" ;;
     focus_animation <- call f panel_obj ;;
     add_animation animation_name focus_animation ;;; pass
   else pass) ;;;
  start_animation animation_name ;;; pass.

Definition animate_notification (notification_obj : nat) : M unit :=
  let animation_name := ("notification_" ++ str_id notification_obj)%string in
  present <- contains animation_name ;;
  (if negb present then
     f <- getitem "notification_pulse" ;;
     pulse_animation <- call f notification_obj ;;
     add_animation animation_name pulse_animation ;;; pass
   else pass) ;;;
  start_animation animation_name ;;; pass.

Definition animate_tab_activation (tab_obj : nat) : M unit :=
  let animation_name := ("tab_flash_" ++ str_id tab_obj)%string in
  present <- contains animation_name ;;
  (if negb present then
     f <- getitem "tab_flash" ;;
     flash_animation <- call f tab_obj ;;
     set_duration_attr flash_animation 0.2 ;;;
     add_animation animation_name flash_animation ;;; pass
   else pass) ;;;
  start_animation animation_name ;;; pass.

(** The keys [stop_animation] tries for an object. *)
Definition animation_prefixes (obj : nat) : list string :=
  [ "button_press_" ++ str_id obj; "toggle_" ++ str_id obj;
    "panel_focus_" ++ str_id obj; "notification_" ++ str_id obj;
    "tab_flash_" ++ str_id obj; "cursor_blink_" ++ str_id obj;
    "search_result_" ++ str_id obj; "search_nav_" ++ str_id obj;
    "completion_popup_" ++ str_id obj;
    "completion_select_" ++ str_id obj ]%string.

(** [MicroAnimations.stop_animation] *)
Definition stop_animation (obj : nat) : M unit :=
  for_each (animation_prefixes obj)
    (fun prefix =>
       present <- contains prefix ;;
       if present then AnimationManager.stop_animation prefix ;;; pass
       else pass).

End MicroAnimations.

(** ** Running the scheduler *)

(** The timers of a schedule fire one after the other. *)
Definition fires (libm : Libm) (ts : list nat) (w : World) : World :=
  foldl (fun w t => fire libm t w) w ts.

(** The timer an animation currently holds in [self.timer] fires. *)
Definition tick (libm : Libm) (a : nat) (w : World) : World :=
  match timer (anims w !!! a) with
  | Some t => fire libm t w
  | None => w
  end.

(** [tick], [n] times in a row. *)
Definition run_ticks (libm : Libm) (a : nat) (n : nat) (w : World) : World :=
  Nat.iter n (tick libm a) w.

(** A timer of [a] that has neither fired nor been cancelled. *)
Definition is_pending_of (a : nat) (tm : Timer) : bool :=
  Nat.eqb (t_owner tm) a &&
  match t_state tm with Pending => true | _ => false end.

(** The pending timers of [a]. *)
Definition pending_timers (a : nat) (w : World) : list Timer :=
  List.filter (is_pending_of a) (timers w).

(** The values written to one attribute of one object, oldest first. *)
Definition writes_to (o : nat) (name : string) (tr : list event) : list value :=
  omap (fun e => match e with
                 | Setattr o' name' v =>
                     if Nat.eqb o o' && String.eqb name name' then Some v
                     else None
                 | _ => None
                 end) tr.

(** The names [get_eased_progress] recognises. *)
Definition easing_kinds : list string :=
  ["linear"; "ease_in_quad"; "ease_out_quad"; "ease_in_out_quad";
   "ease_out_bounce"; "ease_in_elastic"; "ease_out_elastic"].

(** ** Observations, relations and sample worlds

    What the properties below are stated with: ways to run and observe
    the engine, the relations that say what a step leaves alone, and the
    concrete worlds the examples run in. *)

(** A fade that was started once; its first timer is pending. *)
Definition restarted_fade : World :=
  snd (start 0 (snd (new (FadeAnimation 0 "opacity" 0 1 None) empty_world))).


(** Some total [math] functions, for the runs that need a [Libm]. *)
Definition libm_id : Libm := {| sin := Val; pow := fun _ => Val |}.

(** The world of the two runs: one target object, number 0, with the
    attribute the animation drives. *)
Definition one_target (name : string) (v : value) : World :=
  with_attrs {[ (0%nat, name) := v ]} empty_world.

(** [a = k(...); a.start()] *)
Definition new_and_start (k : Subclass) (w : World) : World :=
  snd ((a <- new k ;; start a) w).

Import AnimationManager.

(** A world with two fades on one target; the first is registered under
    ["k"] and started through the manager. *)
Definition live_under_k : World :=
  snd ((a <- new (FadeAnimation 0 "opacity" 0 1 None) ;;
        b <- new (FadeAnimation 0 "opacity" 1 0 None) ;;
        add_animation "k" (Anim a) ;;;
        start_animation "k") (one_target "opacity" (VFloat 0))).

(** [frame a w w']: from [w] to [w'] only the animation [a] moved.  The
    other animations, the composites and the registry are as before; [a]
    keeps its class, [max_steps] and [on_complete] attribute; timers were
    only added, all of them for [a]; the trace only grew, and a completion
    callback of a pop-out was called only if [a] carries the wrapper of
    that pop-out. *)
Record frame (a : nat) (w w' : World) : Prop := {
  frame_pops : pops w' = pops w;
  frame_animations : animations w' = animations w;
  frame_others : forall b, b <> a -> anims w' !! b = anims w !! b;
  frame_length : length (anims w') = length (anims w);
  frame_kind : kind (anims w' !!! a) = kind (anims w !!! a);
  frame_max_steps : max_steps (anims w' !!! a) = max_steps (anims w !!! a);
  frame_attr :
    on_complete_attr (anims w' !!! a) = on_complete_attr (anims w !!! a);
  frame_timers :
    exists extra, timers w' = timers w ++ extra
                  /\ Forall (fun tm => t_owner tm = a) extra;
  frame_trace :
    exists evs, trace w' = trace w ++ evs
                /\ forall p cb, CallComplete p cb ∈ evs ->
                     on_complete_attr (anims w !!! a) = Some p }.

(** Every run of [m] is a step of the relation [R]. *)
Definition steps {A} (R : World -> World -> Prop) (m : M A) : Prop :=
  forall w, R w (snd (m w)).

(** A field update that keeps the class, [max_steps] and the
    [on_complete] attribute. *)
Definition benign (g : AnimationState -> AnimationState) : Prop :=
  forall s, kind (g s) = kind s /\ max_steps (g s) = max_steps s
            /\ on_complete_attr (g s) = on_complete_attr s.

(** An event that is not the call of a completion callback. *)
Definition quiet (e : event) : Prop :=
  match e with CallComplete _ _ => False | _ => True end.

(** What stays put across a step of one animation. *)
Record static (w w' : World) : Prop := {
  static_pops : pops w' = pops w;
  static_animations : animations w' = animations w;
  static_length : length (anims w') = length (anims w);
  static_kind : forall b, kind (anims w' !!! b) = kind (anims w !!! b);
  static_max_steps :
    forall b, max_steps (anims w' !!! b) = max_steps (anims w !!! b);
  static_attr :
    forall b, on_complete_attr (anims w' !!! b)
              = on_complete_attr (anims w !!! b) }.

(** The world in which the callback of the pending timer [t] runs. *)
Definition mark_fired (t : nat) (tm : Timer) (w : World) : World :=
  with_timers (<[t := set_t_state Fired tm]> (timers w)) w.

Import MicroAnimations.

(** The key of [animate_toggle]: [f"toggle_{id(toggle_obj)}"]. *)
Definition toggle_key (obj : nat) : string := "toggle_" ++ str_id obj.

(** Later uses of a toggle: another [animate_toggle] with some state, or
    a timer that fires. *)
Definition toggle_step (libm : Libm) (obj : nat) (w : World)
    (x : bool + nat) : World :=
  match x with
  | inl state => snd (animate_toggle obj state w)
  | inr t => fire libm t w
  end.

(** A whole history of such uses. *)
Definition toggle_run (libm : Libm) (obj : nat) (sched : list (bool + nat))
    (w : World) : World :=
  foldl (toggle_step libm obj) w sched.

(** The toggle of [obj] is the fade [a] from 0 to 1. *)
Record toggle_is_fade_in (obj a : nat) (w : World) : Prop := {
  tf_key : animations w !! toggle_key obj = Some (Anim a);
  tf_valid : (a < length (anims w))%nat;
  tf_kind :
    kind (anims w !!! a)
    = FadeAnimation obj "highlight" 0 1 (Some RefreshUiLambda);
  tf_max_steps : max_steps (anims w !!! a) = 10 }.

(** The registry right after [MicroAnimations.__init__]. *)
Definition registered_toggles : World :=
  snd (register_animations (one_target "highlight" (VFloat 0))).

(** A composite with its [easing] attribute blanked. *)
Definition erase_pop (q : PopAnimation) : PopAnimation :=
  {| pop_kind := pop_kind q; pop_target_object := pop_target_object q;
     pop_opacity_property := pop_opacity_property q;
     pop_scale_property := pop_scale_property q;
     pop_on_update := pop_on_update q; pop_on_complete := pop_on_complete q;
     pop_start_scale := pop_start_scale q; pop_end_scale := pop_end_scale q;
     pop_duration := pop_duration q; pop_easing := "";
     fade_animation := fade_animation q;
     scale_animation := scale_animation q |}.

(** The world with the [easing] attribute of every composite blanked. *)
Definition erase_easing (w : World) : World :=
  with_pops (erase_pop <$> pops w) w.

(** A statement that runs the same whatever the [easing] attributes
    hold. *)
Definition blind {A} (m : M A) : Prop :=
  forall w, m (erase_easing w) = (fst (m w), erase_easing (snd (m w))).

(** What a caller does with a composite, and what the scheduler does
    meanwhile. *)
Inductive pop_op :=
| PopStart
| PopStop
| PopFire (t : nat).

(** [start] and [stop] are the methods of the class of the composite. *)
Definition pop_step (libm : Libm) (start stop : nat -> M unit) (p : nat)
    (w : World) (op : pop_op) : World :=
  match op with
  | PopStart => snd (start p w)
  | PopStop => snd (stop p w)
  | PopFire t => fire libm t w
  end.

(** A whole history of a composite. *)
Definition pop_run (libm : Libm) (start stop : nat -> M unit) (p : nat)
    (ops : list pop_op) (w : World) : World :=
  foldl (pop_step libm start stop p) w ops.

(** The calls of the callback [cb] that the pop-out [p] was given. *)
Definition is_call (p cb : nat) (e : event) : bool :=
  match e with
  | CallComplete p' cb' => Nat.eqb p p' && Nat.eqb cb cb'
  | _ => false
  end.

(** How often that callback has been called so far. *)
Definition completion_calls (p cb : nat) (w : World) : nat :=
  length (List.filter (is_call p cb) (trace w)).

(** The firings of a schedule that run the callback of a timer of [f]. *)
Definition pending_of (f t : nat) (w : World) : bool :=
  match timers w !! t with
  | Some tm => is_pending_of f tm
  | None => false
  end.

(** Their number along a schedule. *)
Fixpoint ticks_of (libm : Libm) (f : nat) (ts : list nat) (w : World) : nat :=
  match ts with
  | [] => 0
  | t :: ts' =>
      ((if pending_of f t w then 1 else 0)
       + ticks_of libm f ts' (fire libm t w))%nat
  end.

(** [surface w w']: only attributes were written, and nothing but
    attribute writes and update callbacks was added to the trace. *)
Record surface (w w' : World) : Prop := {
  surface_anims : anims w' = anims w;
  surface_pops : pops w' = pops w;
  surface_timers : timers w' = timers w;
  surface_animations : animations w' = animations w;
  surface_trace :
    exists evs, trace w' = trace w ++ evs /\ Forall quiet evs }.

(** The pop-out [p] owns the fade [f] and the scale [sc]; the fade carries
    the completion wrapper of [p], and no other animation does. *)
Record popout_built (p cb f sc : nat) (w : World) : Prop := {
  pb_on_complete : pop_on_complete (pops w !!! p) = Some cb;
  pb_fade : fade_animation (pops w !!! p) = Some f;
  pb_scale : scale_animation (pops w !!! p) = Some sc;
  pb_distinct : f <> sc;
  pb_fade_valid : (f < length (anims w))%nat;
  pb_scale_valid : (sc < length (anims w))%nat;
  pb_fade_kind :
    exists o name lo hi upd,
      kind (anims w !!! f) = FadeAnimation o name lo hi upd;
  pb_fade_steps : max_steps (anims w !!! f) = 10;
  pb_fade_attr : on_complete_attr (anims w !!! f) = Some p;
  pb_scale_steps : max_steps (anims w !!! sc) <> 0;
  pb_unique : forall a, on_complete_attr (anims w !!! a) = Some p -> a = f }.

(** While the fade is animating, it has steps left and the timer it holds
    is pending. *)
Record fade_live (f : nat) (w : World) : Prop := {
  fl_step : 0 <= current_step (anims w !!! f) < 10;
  fl_timer :
    exists t tm, timer (anims w !!! f) = Some t
                 /\ timers w !! t = Some tm
                 /\ t_owner tm = f /\ t_state tm = Pending }.

(** What holds of a pop-out from its first [start()] on. *)
Definition popout_inv (p cb f sc : nat) (w : World) : Prop :=
  popout_built p cb f sc w
  /\ (animating (anims w !!! f) = true -> fade_live f w).

(** What one firing does to a pop-out and its callback count. *)
Definition tick_outcome (p cb f : nat) (counted : bool) (w w' : World)
  : Prop :=
  let F := anims w !!! f in
  let F' := anims w' !!! f in
  (counted = true /\ animating F = true /\ current_step F + 1 < 10
   /\ animating F' = true /\ current_step F' = current_step F + 1
   /\ completion_calls p cb w' = completion_calls p cb w)
  \/ (counted = true /\ animating F = true /\ current_step F + 1 = 10
      /\ animating F' = false
      /\ completion_calls p cb w' = S (completion_calls p cb w))
  \/ ((counted = false \/ animating F = false)
      /\ animating F' = animating F /\ current_step F' = current_step F
      /\ completion_calls p cb w' = completion_calls p cb w).

(** The ticks a running fade still needs to complete. *)
Definition remaining (f : nat) (w : World) : nat :=
  Z.to_nat (10 - current_step (anims w !!! f)).

(** The part of [PopOutAnimation.start] that follows the creation of the
    children. *)
Definition popout_start_children (self : PopAnimation) : M unit :=
  setattr_if_present (pop_target_object self) (pop_opacity_property self)
    (VFloat 1) ;;;
  setattr_if_present (pop_target_object self) (pop_scale_property self)
    (VFloat 1) ;;;
  (match fade_animation self with
   | Some f => start f
   | None => raise AttributeError
   end) ;;;
  (match scale_animation self with
   | Some sc => start sc
   | None => raise AttributeError
   end).

(** A pop-out that has not been started yet. *)
Record popout_fresh (p cb : nat) (w : World) : Prop := {
  pf_valid : (p < length (pops w))%nat;
  pf_on_complete : pop_on_complete (pops w !!! p) = Some cb;
  pf_fade : fade_animation (pops w !!! p) = None;
  pf_no_wrapper : forall a, on_complete_attr (anims w !!! a) <> Some p }.

(** A pop-out with callback 7, started on a target with both
    attributes. *)
Definition popout_world : World :=
  snd (PopOutAnimation.__init__ 0 "opacity" "scale" None (Some 7%nat)
         1 0.9 0.25 "ease_in_quad"
         (with_attrs {[ (0%nat, "opacity") := VFloat 1;
                        (0%nat, "scale") := VFloat 1 ]} empty_world)).

(** The same pop-out after a first [start()] and three ticks of its
    fade: a cycle under way. *)
Definition popout_midcycle : World :=
  fires libm_id [0; 2; 3]%nat (snd (PopOutAnimation.start 0 popout_world)).

(** ** Further observations

    Relations and invariants for the properties of the engine as a
    whole. *)

(** [math] functions that return on every argument. *)
Definition libm_total (libm : Libm) : Prop :=
  (forall x, exists y, sin libm x = Val y)
  /\ (forall x y, exists z, pow libm x y = Val z).

(** The classes whose [on_frame] calls into [math]. *)
Definition needs_libm (k : Subclass) : bool :=
  match k with
  | ScaleAnimation _ _ _ _ _ => true
  | _ => false
  end.

(** The class whose [on_complete] override does not clear [animating]. *)
Definition never_clears (k : Subclass) : bool :=
  match k with
  | NavigationAnimation _ => true
  | _ => false
  end.

(** [in_place w w']: the objects have the same attributes in both
    worlds; only their values may differ. *)
Definition in_place (w w' : World) : Prop :=
  forall key, is_Some (attrs w' !! key) <-> is_Some (attrs w !! key).

(** [winding_down w w']: no animation was created or switched on, and no
    step counter went back. *)
Record winding_down (w w' : World) : Prop := {
  wd_length : length (anims w') = length (anims w);
  wd_calm :
    forall a, animating (anims w' !!! a) = true ->
              animating (anims w !!! a) = true;
  wd_steps :
    forall a, current_step (anims w !!! a) <= current_step (anims w' !!! a) }.

(** A field update that neither switches the animation on nor moves the
    step counter back. *)
Definition settling (s s' : AnimationState) : Prop :=
  (animating s' = true -> animating s = true)
  /\ current_step s <= current_step s'.

(** [keeps f w w']: the observation [f] is the same in both worlds. *)
Definition keeps {X} (f : World -> X) (w w' : World) : Prop := f w' = f w.

(** The animation [a], started in [w0] from the state [s], after [k]
    ticks of the timers it held, while it still runs: it holds the timer
    created last, which is pending. *)
Record mid_run (a : nat) (s : AnimationState) (w0 : World) (k : nat)
    (w : World) : Prop := {
  mr_state :
    anims w !! a
    = Some (set_timer (Some (length (timers w0) + k)%nat)
              (set_current_step (Z.of_nat k) (set_animating true s)));
  mr_timers : length (timers w) = S (length (timers w0) + k);
  mr_timer :
    exists tm, timers w !! (length (timers w0) + k)%nat = Some tm
               /\ t_owner tm = a /\ t_state tm = Pending;
  mr_pending :
    length (pending_timers a w) = S (length (pending_timers a w0));
  mr_attrs : in_place w0 w }.

(** The same animation once [current_step] has reached [max_steps]: the
    timer it holds has fired. *)
Record end_run (a : nat) (s : AnimationState) (w0 w : World) : Prop := {
  er_state :
    exists t,
      anims w !! a
      = Some (set_animating (never_clears (kind s))
                (set_timer (Some t)
                   (set_current_step (max_steps s) (set_animating true s))))
      /\ forall tm, timers w !! t = Some tm -> t_state tm <> Pending;
  er_timers :
    length (timers w) = (length (timers w0) + Z.to_nat (max_steps s))%nat;
  er_pending : length (pending_timers a w) = length (pending_timers a w0);
  er_attrs :
    forall o, kind s = NavigationAnimation o ->
      (is_Some (attrs w0 !! (o, "scale")) ->
       attrs w !! (o, "scale") = Some (VFloat 1))
      /\ (is_Some (attrs w0 !! (o, "highlight_intensity")) ->
          attrs w !! (o, "highlight_intensity") = Some (VFloat 0.7)) }.

(** A statement that always returns, and only writes attributes and
    calls update callbacks. *)
Definition surface_call (m : M unit) : Prop :=
  forall w, exists w', m w = (Val tt, w') /\ surface w w'.

(** The animations an entry of the registry stops with its [stop()]. *)
Definition entry_anims (w : World) (e : entry) : list nat :=
  match e with
  | Anim a => [a]
  | Pop p =>
      match fade_animation (pops w !!! p) with
      | Some f => [f]
      | None => []
      end ++
      match scale_animation (pops w !!! p) with
      | Some sc => [sc]
      | None => []
      end
  | Factory _ => []
  end.

(** [stopping w w']: what a [stop()] may change.  Animations are only
    wound down and timers cancelled; composites, registry, attributes
    and trace are as before. *)
Record stopping (w w' : World) : Prop := {
  st_pops : pops w' = pops w;
  st_animations : animations w' = animations w;
  st_attrs : attrs w' = attrs w;
  st_trace : trace w' = trace w;
  st_down : winding_down w w' }.

(** The registry of [MicroAnimations] after a toggle and a search
    navigation on object 0, in insertion order: the six templates, then
    the two keys of the object. *)
Definition busy_registry : World :=
  snd ((animate_toggle 0 true ;;; animate_search_navigation 0)
         registered_toggles).

(** The pop-in the [button_press] template makes for object 0, on a
    target that has the attribute [scale]. *)
Definition button_pop : World :=
  snd (call_factory button_press 0 (one_target "scale" (VFloat 1))).

(** The registry right after [MicroAnimations.__init__], with a target
    that has the attribute [scale]. *)
Definition registered_button : World :=
  snd (register_animations (one_target "scale" (VFloat 1))).

(** The keys under which [register_animations] stores its templates. *)
Definition template_names : list string :=
  ["button_press"; "toggle_on"; "toggle_off"; "panel_focus";
   "notification_pulse"; "tab_flash"].

(** The characters [str(id(obj))] is made of: ['0'] to ['9']. *)
Definition is_digit (c : Ascii.ascii) : bool :=
  let n := Ascii.nat_of_ascii c in (48 <=? n)%nat && (n <=? 57)%nat.

(** The registry right after [MicroAnimations.__init__], with a target
    that has the attribute [pulse_intensity]. *)
Definition registered_notification : World :=
  snd (register_animations (one_target "pulse_intensity" (VFloat 0))).

(** ** The interface of [MicroAnimations]

    What a client of the class calls, and what the scheduler does in
    between. *)
Inductive api_call :=
| ButtonPress (obj : nat)
| Toggle (obj : nat) (state : bool)
| PanelFocus (obj : nat)
| Notification (obj : nat)
| TabActivation (obj : nat)
| SearchNavigation (obj : nat)
| StopAnimation (obj : nat)
| TimerFires (t : nat).

Definition api_step (libm : Libm) (c : api_call) : M unit :=
  match c with
  | ButtonPress obj => animate_button_press obj
  | Toggle obj state => animate_toggle obj state
  | PanelFocus obj => animate_panel_focus obj
  | Notification obj => animate_notification obj
  | TabActivation obj => animate_tab_activation obj
  | SearchNavigation obj => animate_search_navigation obj
  | StopAnimation obj => MicroAnimations.stop_animation obj
  | TimerFires t => fun w => (Val tt, fire libm t w)
  end.

(** A client's calls one after the other; an exception ends the run. *)
Definition api_run (libm : Libm) (cs : list api_call) : M unit :=
  for_each cs (api_step libm).

(** An animation that exists and whose [max_steps] the frame interval
    can be computed with: [start()] on it returns. *)
Definition startable (w : World) (a : nat) : Prop :=
  (a < length (anims w))%nat /\ divisor (max_steps (anims w !!! a)).

(** An entry of the registry that can be started and stopped: an
    animation, or a pop-in whose children, once created, are
    animations. *)
Definition entry_ok (w : World) (e : entry) : Prop :=
  match e with
  | Anim a => startable w a
  | Pop p =>
      (p < length (pops w))%nat
      /\ pop_kind (pops w !!! p) = PopIn
      /\ (forall f, fade_animation (pops w !!! p) = Some f -> startable w f)
      /\ (forall sc, scale_animation (pops w !!! p) = Some sc ->
                     startable w sc)
  | Factory _ => False
  end.

(** The registry as [MicroAnimations] keeps it: templates under the six
    template names, startable entries under every other key. *)
Record registry_ok (w : World) : Prop := {
  ro_templates :
    forall name, name ∈ template_names ->
                 exists f, animations w !! name = Some (Factory f);
  ro_entries :
    forall key e, key ∉ template_names -> animations w !! key = Some e ->
                  entry_ok w e }.

(** [sound w w']: the entries that can be started in [w] still can in
    [w']. *)
Definition sound (w w' : World) : Prop :=
  forall e, entry_ok w e -> entry_ok w' e.

(** The common shape of the recipes that create the animation of an
    object on first use: [make] is the call of the template. *)
Definition recipe_shape (key : string) (make : M entry) : M unit :=
  present <- contains key ;;
  (if negb present then x <- make ;; add_animation key x ;;; pass
   else pass) ;;;
  start_animation key ;;; pass.

(** The part of [PopInAnimation.start] that follows the creation of the
    children. *)
Definition popin_start_children (p : nat) : M unit :=
  self <- get_pop p ;;
  setattr_if_present (pop_target_object self) (pop_opacity_property self)
    (VFloat 0) ;;;
  setattr_if_present (pop_target_object self) (pop_scale_property self)
    (VFloat 1.1) ;;;
  (match fade_animation self with
   | Some f => start f
   | None => raise AttributeError
   end) ;;;
  (match scale_animation self with
   | Some sc => start sc
   | None => raise AttributeError
   end).

(** An animation with the inherited [on_complete], of a class whose
    frames return: every class but the navigation animation, the scale
    animation provided its [math] calls return. *)
(** The attributes the methods of a class write. *)
Definition targets (k : Subclass) : list (nat * string) :=
  match k with
  | Base => []
  | FadeAnimation o name _ _ _ => [(o, name)]
  | SlideAnimation o name _ _ _ => [(o, name)]
  | ScaleAnimation o name _ _ _ => [(o, name)]
  | BlinkAnimation o name _ _ => [(o, name)]
  | PulseAnimation o _ => [(o, "pulse_intensity")]
  | NavigationAnimation o => [(o, "scale"); (o, "highlight_intensity")]
  end.

(** A running fade on [opacity] of a target that also has [scale]. *)
Definition fade_beside_scale : World :=
  new_and_start (FadeAnimation 0 "opacity" 0 1 None)
    (with_attrs {[ (0%nat, "opacity") := VFloat 0;
                   (0%nat, "scale") := VFloat 1 ]} empty_world).

(** ** Timer threads

    [fire] lets the callback of a timer run to its end before anything
    else happens.  The source takes no lock in [_advance], and every
    [threading.Timer] runs its callback in a thread of its own: the
    callbacks of two timers overlap when the interpreter switches threads
    between two statements.  A thread below executes [_advance] one
    statement at a time; the increment is a read followed by a write,
    and the three calls are taken whole. *)

(** The statement of [_advance] a thread executes next. *)
Inductive point :=
| AtGuard           (* if not self.animating: return *)
| AtIncrement       (* self.current_step += 1: the read *)
| AtStore (r : Z)   (* self.current_step += 1: the write, of [r + 1] *)
| AtTest            (* if self.current_step >= self.max_steps: *)
| AtComplete        (* self.on_complete(); return *)
| AtFrame           (* self.on_frame() *)
| AtSchedule.       (* self.schedule_next_frame() *)

(** One statement of [_advance] on the animation [a]: the statement that
    follows, if the thread goes on, and the store.  An exception in
    [on_frame] ends the thread. *)
Definition run_point (libm : Libm) (a : nat) (pt : point) (w : World)
  : option point * World :=
  match pt with
  | AtGuard =>
      (if negb (animating (anims w !!! a)) then None else Some AtIncrement, w)
  | AtIncrement => (Some (AtStore (current_step (anims w !!! a))), w)
  | AtStore r => (Some AtTest, snd (update_anim a (set_current_step (r + 1)) w))
  | AtTest =>
      (Some (if max_steps (anims w !!! a) <=? current_step (anims w !!! a)
             then AtComplete else AtFrame), w)
  | AtComplete => (None, snd (on_complete a w))
  | AtFrame =>
      match on_frame libm a w with
      | (Val _, w') => (Some AtSchedule, w')
      | (Exc _, w') => (None, w')
      end
  | AtSchedule => (None, snd (schedule_next_frame a w))
  end.

(** The threads under way are kept by the timer that started them, in a
    [gmap nat (nat * point)]: the animation whose [_advance] the thread
    runs, and where it stands.

    The thread of the timer [t] runs for one statement.  A pending timer
    goes off and its thread begins; a thread under way executes its
    statement; nothing happens for a timer that was cancelled or whose
    thread has ended. *)
Definition thread_step (libm : Libm) (st : World * gmap nat (nat * point))
    (t : nat) : World * gmap nat (nat * point) :=
  let (w, live) := st in
  match live !! t with
  | Some (a, pt) =>
      match run_point libm a pt w with
      | (Some pt', w') => (w', <[t := (a, pt')]> live)
      | (None, w') => (w', delete t live)
      end
  | None =>
      match timers w !! t with
      | Some tm =>
          match t_state tm with
          | Pending => (mark_fired t tm w, <[t := (t_owner tm, AtGuard)]> live)
          | _ => st
          end
      | None => st
      end
  end.

(** A schedule names, statement by statement, the timer whose thread
    runs. *)
Definition interleave (libm : Libm) (sched : list nat)
    (st : World * gmap nat (nat * point)) : World * gmap nat (nat * point) :=
  foldl (thread_step libm) st sched.

(** The thread of [t] alone, from the timer going off to the end of the
    callback: seven turns at most. *)
Definition uninterrupted (t : nat) : list nat := repeat t 7.

(** The timer [t] keeps the animation [a] busy: it is pending, or its
    callback is under way. *)
Definition busy (a : nat) (st : World * gmap nat (nat * point)) (t : nat)
  : Prop :=
  pending_of a t (fst st) = true \/ exists pt, snd st !! t = Some (a, pt).

(** The callbacks of [a] come one at a time: at most one timer keeps it
    busy. *)
Definition serial (a : nat) (st : World * gmap nat (nat * point)) : Prop :=
  forall t1 t2, busy a st t1 -> busy a st t2 -> t1 = t2.

(** The threads under way belong to timers that went off. *)
Definition threads_ok (st : World * gmap nat (nat * point)) : Prop :=
  forall t a pt, snd st !! t = Some (a, pt) ->
    exists tm, timers (fst st) !! t = Some tm
               /\ t_owner tm = a /\ t_state tm = Fired.

(** A pop-out on which [start()] was called twice in a row. *)
Definition popout_started_twice : World :=
  snd (PopOutAnimation.start 0 (snd (PopOutAnimation.start 0 popout_world))).

(** * Properties *)

(** ** Easing *)

(** C7: every recognised easing kind maps linear progress 0 to exactly 0
    and linear progress 1 to exactly 1, whatever [math.sin] and
    [math.pow] compute. *)
Theorem ease_endpoints (libm : Libm) :
  Forall (fun k => ease libm k 0 = Val 0%float /\ ease libm k 1 = Val 1%float)
    easing_kinds.
Proof.
  unfold easing_kinds.
  repeat (apply List.Forall_cons; [split; vm_compute; reflexivity|]).
  apply List.Forall_nil.
Qed.

(** A literal that is none of the listed strings. *)
Ltac not_a_kind :=
  let H := fresh in
  intros H;
  repeat (apply elem_of_cons in H as [H|H]; [discriminate H|]);
  inversion H.

Lemma eqb_false_of_ne (a b : string) : a <> b -> String.eqb a b = false.
Proof. intros H. apply String.eqb_neq. exact H. Qed.

Lemma ease_unknown (libm : Libm) (name : string) (lp : float) :
  name ∉ easing_kinds -> ease libm name lp = Val lp.
Proof.
  intros H. unfold ease.
  rewrite !eqb_false_of_ne; [reflexivity|..];
    intros ->; apply H; unfold easing_kinds; repeat constructor.
Qed.

Lemma float_div_int_nonzero (x : float) (n : Z) :
  n <> 0 -> float_div_int x n = Val (PrimFloat.div x (float_of_Z n)).
Proof.
  intros H. unfold float_div_int.
  destruct (Z.eqb_spec n 0); [contradiction|reflexivity].
Qed.

Lemma get_progress_value (s : AnimationState) :
  0 <= current_step s -> exists lp, get_progress s = Val lp.
Proof.
  intros H. unfold get_progress.
  destruct (Z.leb_spec (max_steps s) (current_step s)); [eauto|].
  unfold int_truediv. rewrite float_div_int_nonzero by lia. eauto.
Qed.

(** C8: an easing name outside the seven recognised kinds makes
    [get_eased_progress] return the linear progress unchanged, as a value
    and not as an exception; ["elastic_out"], which the search-navigation
    animation asks for, is such a name. *)
Theorem unknown_easing_is_linear (libm : Libm) (s : AnimationState)
    (name : string) :
  name ∉ easing_kinds ->
  0 <= current_step s ->
  (exists lp, get_progress s = Val lp
              /\ get_eased_progress libm s name = Val lp)
  /\ ("elastic_out" ∉ easing_kinds)
  /\ get_eased_progress libm s "elastic_out" = get_progress s.
Proof.
  intros Hname Hstep.
  assert (Hel : "elastic_out" ∉ easing_kinds).
  { unfold easing_kinds. not_a_kind. }
  destruct (get_progress_value s Hstep) as [lp Hlp].
  split; [|split; [exact Hel|]].
  - exists lp. split; [exact Hlp|].
    unfold get_eased_progress. rewrite Hlp. apply ease_unknown, Hname.
  - unfold get_eased_progress. rewrite Hlp. apply ease_unknown, Hel.
Qed.

Lemma unknown_easing_is_linear_witness :
  exists lp,
    get_progress (set_current_step 3 (init_state Base)) = Val lp
    /\ get_eased_progress {| sin := Val; pow := fun _ => Val |}
         (set_current_step 3 (init_state Base)) "ease_out_cubic" = Val lp.
Proof.
  apply (unknown_easing_is_linear _ (set_current_step 3 (init_state Base))
           "ease_out_cubic").
  - unfold easing_kinds. not_a_kind.
  - simpl. lia.
Defined.

(** ** Reading and writing the store *)

Lemma lookup_total_of_lookup {A} `{Inhabited A} (l : list A) (i : nat) (x : A) :
  l !! i = Some x -> l !!! i = x.
Proof. intros Hl. apply list_lookup_total_correct. exact Hl. Qed.

Lemma lookup_total_out_of_range {A} `{Inhabited A} (l : list A) (i : nat) :
  (length l <= i)%nat -> l !!! i = inhabitant.
Proof.
  intros Hi. rewrite list_lookup_total_alt.
  rewrite (lookup_ge_None_2 l i Hi). reflexivity.
Qed.

Lemma alter_of_lookup {A} (f : A -> A) (l : list A) (i : nat) (x : A) :
  l !! i = Some x -> alter f i l = <[i := f x]> l.
Proof.
  intros Hl. apply list_eq. intros j.
  destruct (decide (i = j)) as [<-|Hne].
  - rewrite list_lookup_alter_eq, Hl, list_lookup_insert_eq; [reflexivity|].
    eapply lookup_lt_Some, Hl.
  - rewrite list_lookup_alter_ne, list_lookup_insert_ne by exact Hne.
    reflexivity.
Qed.

Lemma alter_out_of_range {A} (f : A -> A) (l : list A) (i : nat) :
  (length l <= i)%nat -> alter f i l = l.
Proof.
  intros Hi. apply list_eq. intros j.
  destruct (decide (i = j)) as [<-|Hne].
  - rewrite list_lookup_alter_eq, (lookup_ge_None_2 l i Hi). reflexivity.
  - apply list_lookup_alter_ne, Hne.
Qed.


(** Reading back an object that was just updated. *)
Lemma lookup_total_alter_cases {A} `{Inhabited A} (f : A -> A) (l : list A)
    (i : nat) :
  (alter f i l !!! i = f (l !!! i) /\ (i < length l)%nat)
  \/ (alter f i l !!! i = inhabitant /\ l !!! i = inhabitant
      /\ (length l <= i)%nat).
Proof.
  destruct (l !! i) as [x|] eqn:Hl.
  - left. split; [|eapply lookup_lt_Some, Hl].
    rewrite (lookup_total_of_lookup l i x Hl).
    apply lookup_total_of_lookup. rewrite list_lookup_alter_eq, Hl. reflexivity.
  - right. apply lookup_ge_None in Hl.
    rewrite (alter_out_of_range f l i Hl).
    rewrite (lookup_total_out_of_range l i Hl). auto.
Qed.

(** Unfolding the store primitives and the projections of updated
    records, and nothing else. *)
Tactic Notation "exec" :=
  cbn [fst snd anims pops timers attrs animations trace
       with_anims with_pops with_timers with_attrs with_animations with_trace
       kind animating current_step max_steps duration timer on_complete_attr
       set_animating set_current_step set_max_steps set_duration set_timer
       set_on_complete_attr t_owner t_interval t_state set_t_state negb].

Tactic Notation "exec" "in" hyp(H) :=
  cbn [fst snd anims pops timers attrs animations trace
       with_anims with_pops with_timers with_attrs with_animations with_trace
       kind animating current_step max_steps duration timer on_complete_attr
       set_animating set_current_step set_max_steps set_duration set_timer
       set_on_complete_attr t_owner t_interval t_state set_t_state negb] in H.

Ltac unfold_prims :=
  unfold bind, ret, pass, raise, eval, get_anim, update_anim, new_anim,
    get_pop, update_pop, new_pop, emit, hasattr, setattr, new_timer, cancel.


(** *** What [start], [stop] and an idle [_advance] do *)

Lemma start_running (w : World) (a : nat) (s : AnimationState) :
  anims w !! a = Some s -> max_steps s <> 0 ->
  start a w =
    (Val tt,
     with_anims
       (<[a := set_timer (Some (length (timers w)))
                 (set_current_step 0 (set_animating true s))]> (anims w))
       (with_timers
          (timers w ++
             [{| t_owner := a;
                 t_interval :=
                   PrimFloat.div (duration s) (float_of_Z (max_steps s));
                 t_state := Pending |}]) w)).
Proof.
  intros Ha Hm.
  assert (Hlt : (a < length (anims w))%nat) by (eapply lookup_lt_Some, Ha).
  unfold start, schedule_next_frame. unfold_prims. exec.
  rewrite (alter_of_lookup _ _ _ _ Ha).
  rewrite (alter_of_lookup _ (<[a:=_]> _) a (set_animating true s))
    by (apply list_lookup_insert_eq, Hlt).
  rewrite list_insert_insert_eq.
  rewrite (lookup_total_of_lookup _ a
             (set_current_step 0 (set_animating true s)))
    by (apply list_lookup_insert_eq, Hlt).
  exec. rewrite float_div_int_nonzero by exact Hm.
  rewrite (alter_of_lookup _ (<[a:=_]> _) a
             (set_current_step 0 (set_animating true s)))
    by (apply list_lookup_insert_eq, Hlt).
  rewrite list_insert_insert_eq.
  reflexivity.
Qed.

Lemma stop_eq (w : World) (a : nat) :
  stop a w =
    let l := alter (set_animating false) a (anims w) in
    match timer (l !!! a) with
    | Some t =>
        (Val tt,
         with_anims (alter (set_timer None) a l)
           (with_timers (alter cancel_timer t (timers w)) (with_anims l w)))
    | None => (Val tt, with_anims l w)
    end.
Proof.
  unfold stop. unfold_prims. exec.
  destruct (timer (alter (set_animating false) a (anims w) !!! a));
    reflexivity.
Qed.

Lemma stopped_not_animating (l : list AnimationState) (a : nat) :
  animating (alter (set_animating false) a l !!! a) = false.
Proof.
  destruct (lookup_total_alter_cases (set_animating false) l a)
    as [[-> _]|[-> _]]; reflexivity.
Qed.

Lemma advance_idle (libm : Libm) (w : World) (a : nat) :
  animating (anims w !!! a) = false -> _advance libm a w = (Val tt, w).
Proof.
  intros Hidle. unfold _advance. unfold_prims. exec.
  rewrite Hidle. reflexivity.
Qed.

Lemma fire_eq (libm : Libm) (w : World) (t : nat) (tm : Timer) :
  timers w !! t = Some tm -> t_state tm = Pending ->
  fire libm t w =
    snd (_advance libm (t_owner tm)
           (with_timers (<[t := set_t_state Fired tm]> (timers w)) w)).
Proof. intros Ht Hp. unfold fire. rewrite Ht, Hp. reflexivity. Qed.

Lemma fire_not_pending (libm : Libm) (w : World) (t : nat) :
  (forall tm, timers w !! t = Some tm -> t_state tm <> Pending) ->
  fire libm t w = w.
Proof.
  intros Hn. unfold fire. destruct (timers w !! t) as [tm|] eqn:Ht; [|reflexivity].
  specialize (Hn tm eq_refl). destruct (t_state tm); congruence.
Qed.


(** ** The animation primitive *)

Lemma pending_timers_app (a : nat) (w : World) (l : list Timer) :
  pending_timers a (with_timers (timers w ++ l) w)
  = pending_timers a w ++ List.filter (is_pending_of a) l.
Proof. unfold pending_timers. exec. apply List.filter_app. Qed.

Lemma pending_timers_with_anims (a : nat) (w : World) l :
  pending_timers a (with_anims l w) = pending_timers a w.
Proof. reflexivity. Qed.

Lemma pending_timer_counted (a : nat) (w : World) (t : nat) (tm : Timer) :
  timers w !! t = Some tm -> t_owner tm = a -> t_state tm = Pending ->
  (1 <= length (pending_timers a w))%nat.
Proof.
  intros Ht Ho Hp.
  assert (Hin : In tm (pending_timers a w)).
  { unfold pending_timers. apply List.filter_In. split.
    - apply list_elem_of_In, list_elem_of_lookup. eauto.
    - unfold is_pending_of. rewrite Ho, Hp, Nat.eqb_refl. reflexivity. }
  destruct (pending_timers a w); [destruct Hin|cbn; lia].
Qed.

(** C1, as the code has it: [start()] on an animation whose timer is
    still pending resets [current_step] to 0 and schedules a new first
    frame, but it does not cancel the timer in flight; the animation then
    owns two pending timers. *)
Theorem start_keeps_pending_timer (w : World) (a : nat) (s : AnimationState)
    (t : nat) (tm : Timer) :
  anims w !! a = Some s -> max_steps s <> 0 ->
  timer s = Some t -> timers w !! t = Some tm ->
  t_owner tm = a -> t_state tm = Pending ->
  exists w',
    start a w = (Val tt, w')
    /\ current_step (anims w' !!! a) = 0
    /\ animating (anims w' !!! a) = true
    /\ timers w' !! t = Some tm
    /\ timer (anims w' !!! a) = Some (length (timers w))
    /\ length (timers w) <> t
    /\ (exists tm', timers w' !! length (timers w) = Some tm'
                    /\ t_owner tm' = a /\ t_state tm' = Pending)
    /\ (2 <= length (pending_timers a w'))%nat.
Proof.
  intros Ha Hm Hs Ht Ho Hp.
  assert (Hlt : (a < length (anims w))%nat) by (eapply lookup_lt_Some, Ha).
  assert (Htl : (t < length (timers w))%nat) by (eapply lookup_lt_Some, Ht).
  eexists. split; [apply (start_running w a s Ha Hm)|].
  exec.
  rewrite (lookup_total_of_lookup _ a _ (list_lookup_insert_eq _ _ _ Hlt)).
  exec. repeat split.
  - rewrite lookup_app_l by exact Htl. exact Ht.
  - lia.
  - eexists. split.
    + rewrite lookup_app_r by lia. rewrite Nat.sub_diag. reflexivity.
    + split; reflexivity.
  - rewrite pending_timers_with_anims, pending_timers_app.
    rewrite length_app. cbn [List.filter]. unfold is_pending_of. exec.
    rewrite Nat.eqb_refl. cbn [andb length].
    pose proof (pending_timer_counted a w t tm Ht Ho Hp). lia.
Qed.

Lemma start_keeps_pending_timer_witness :
  exists w',
    start 0 restarted_fade = (Val tt, w')
    /\ current_step (anims w' !!! 0%nat) = 0
    /\ animating (anims w' !!! 0%nat) = true
    /\ timers w' !! 0%nat
       = Some {| t_owner := 0;
                 t_interval := PrimFloat.div 0.3 (float_of_Z 10);
                 t_state := Pending |}
    /\ timer (anims w' !!! 0%nat) = Some (length (timers restarted_fade))
    /\ length (timers restarted_fade) <> 0%nat
    /\ (exists tm', timers w' !! length (timers restarted_fade) = Some tm'
                    /\ t_owner tm' = 0%nat /\ t_state tm' = Pending)
    /\ (2 <= length (pending_timers 0 w'))%nat.
Proof.
  apply (start_keeps_pending_timer restarted_fade 0
           (set_timer (Some 0%nat)
              (set_current_step 0
                 (set_animating true
                    (init_state (FadeAnimation 0 "opacity" 0 1 None)))))
           0).
  - reflexivity.
  - cbn. lia.
  - reflexivity.
  - reflexivity.
  - reflexivity.
  - reflexivity.
Defined.




(** ** Fade and Blink run to completion *)

(** C5, as the code has it: [FadeAnimation(target, "opacity", 0.0, 1.0)]
    with the default duration 0.3 and 10 steps, ticked to completion,
    ends with [animating] false, but the 10th tick only completes: the
    last frame written is the one of step 9, and [target.opacity] stays at
    0.9900000000000001, below 1.0. *)
Theorem fade_stops_short_of_end_value (libm : Libm) (v : value) :
  let w0 := new_and_start (FadeAnimation 0 "opacity" 0 1 None)
              (one_target "opacity" v) in
  let w := run_ticks libm 0 10 w0 in
  max_steps (anims w0 !!! 0%nat) = 10
  /\ duration (anims w0 !!! 0%nat) = 0.3%float
  /\ current_step (anims w !!! 0%nat) = 10
  /\ animating (anims w !!! 0%nat) = false
  /\ pending_timers 0 w = []
  /\ attrs w !! (0%nat, "opacity") = Some (VFloat 0.9900000000000001)
  /\ last (writes_to 0 "opacity" (trace w)) = Some (VFloat 0.9900000000000001)
  /\ length (writes_to 0 "opacity" (trace w)) = 9%nat
  /\ VFloat 0.9900000000000001 <> VFloat 1.
Proof.
  cbn zeta. repeat split; try (vm_compute; reflexivity).
  discriminate.
Qed.

(** C6, as the code has it: [BlinkAnimation] with [blink_count = 3] has
    [max_steps = 6] and completes on the 6th tick without rescheduling,
    but the values written are [0, 1, 0, 1, 0]: the first frame is the
    one of step 1 and the 6th tick writes nothing. *)
Theorem blink_writes_five_values (libm : Libm) (v : value) :
  let w0 := new_and_start (BlinkAnimation 0 "visible" 3 None)
              (one_target "visible" v) in
  let w := run_ticks libm 0 6 w0 in
  max_steps (anims w0 !!! 0%nat) = 6
  /\ animating (anims (run_ticks libm 0 5 w0) !!! 0%nat) = true
  /\ animating (anims w !!! 0%nat) = false
  /\ pending_timers 0 w = []
  /\ writes_to 0 "visible" (trace w) = [VInt 0; VInt 1; VInt 0; VInt 1; VInt 0]
  /\ writes_to 0 "visible" (trace w)
     <> [VInt 1; VInt 0; VInt 1; VInt 0; VInt 1; VInt 0].
Proof.
  cbn zeta. repeat split; try (vm_compute; reflexivity).
  vm_compute. discriminate.
Qed.

(** ** The manager *)

(** C2, as the code has it: [add_animation] assigns the key and stops
    nothing, where [remove_animation] stops the entry it drops.  The fade
    registered first is live when the key is registered again, and it is
    still animating with its timer pending afterwards; after the key is
    started, that timer fires and the fade that was replaced writes its
    next frame to the target. *)
Lemma add_animation_leaves_replaced_live :
  let w := snd (add_animation "k" (Anim 1) live_under_k) in
  animations live_under_k !! "k" = Some (Anim 0)
  /\ animating (anims live_under_k !!! 0%nat) = true
  /\ animations w !! "k" = Some (Anim 1)
  /\ animating (anims w !!! 0%nat) = true
  /\ timer (anims w !!! 0%nat) = Some 0%nat
  /\ t_state (timers w !!! 0%nat) = Pending
  /\ ~ (animating (anims w !!! 0%nat) = false
        /\ pending_timers 0 w = [])
  /\ (let w' := fire libm_id 0 (snd (start_animation "k" w)) in
      t_owner (timers w !!! 0%nat) = 0%nat
      /\ current_step (anims w' !!! 0%nat) = 1
      /\ writes_to 0 "opacity" (trace w') = [VFloat 0.19]).
Proof.
  cbn zeta. repeat split; try (vm_compute; reflexivity).
  intros [H _]. vm_compute in H. discriminate H.
Qed.

Lemma remove_animation_anim (w : World) (key : string) (a : nat) :
  animations w !! key = Some (Anim a) ->
  remove_animation key w =
    (Val true,
     with_animations (delete key (animations w)) (snd (stop a w))).
Proof.
  intros Hk. unfold remove_animation, call_stop. rewrite Hk.
  unfold bind, ret. rewrite stop_eq. cbn zeta.
  destruct (timer (alter (set_animating false) a (anims w) !!! a));
    reflexivity.
Qed.

Lemma cancelled_not_pending (l : list Timer) (t : nat) (tm : Timer) :
  alter cancel_timer t l !! t = Some tm -> t_state tm <> Pending.
Proof.
  rewrite list_lookup_alter_eq. destruct (l !! t) as [tm0|]; [|discriminate].
  intros [= <-]. unfold cancel_timer.
  destruct (t_state tm0) eqn:Hst; exec; congruence.
Qed.

(** After [stop()], the animation is not animating and the timer it held
    is no longer pending. *)
Lemma stop_cancels (w : World) (a : nat) (s : AnimationState) :
  anims w !! a = Some s ->
  animating (anims (snd (stop a w)) !!! a) = false
  /\ timer (anims (snd (stop a w)) !!! a) = None
  /\ (forall t tm, timer s = Some t ->
        timers (snd (stop a w)) !! t = Some tm -> t_state tm <> Pending)
  /\ (forall b, b <> a -> anims (snd (stop a w)) !! b = anims w !! b)
  /\ length (anims (snd (stop a w))) = length (anims w)
  /\ animations (snd (stop a w)) = animations w.
Proof.
  intros Ha.
  assert (Hlt : (a < length (anims w))%nat) by (eapply lookup_lt_Some, Ha).
  rewrite stop_eq. cbn zeta.
  rewrite (alter_of_lookup _ _ _ _ Ha).
  rewrite (lookup_total_of_lookup _ a _ (list_lookup_insert_eq _ _ _ Hlt)).
  exec. destruct (timer s) as [t|] eqn:Hs; exec.
  - rewrite (alter_of_lookup _ _ a _ (list_lookup_insert_eq _ _ _ Hlt)).
    rewrite list_insert_insert_eq.
    rewrite (lookup_total_of_lookup _ a _ (list_lookup_insert_eq _ _ _ Hlt)).
    exec. repeat split.
    + intros t' tm [= <-]. apply cancelled_not_pending.
    + intros b Hb. apply list_lookup_insert_ne. congruence.
    + apply length_insert.
  - rewrite (lookup_total_of_lookup _ a _ (list_lookup_insert_eq _ _ _ Hlt)).
    exec. rewrite Hs. repeat split.
    + discriminate.
    + intros b Hb. apply list_lookup_insert_ne. congruence.
    + apply length_insert.
Qed.

(** For every registry and entry: [add_animation] touches the registry
    only.  What was registered under the key keeps its state and its
    timers. *)
Lemma add_animation_stops_nothing (w : World) (key : string) (e : entry) :
  let w' := snd (add_animation key e w) in
  animations w' !! key = Some e
  /\ anims w' = anims w /\ timers w' = timers w
  /\ attrs w' = attrs w /\ trace w' = trace w.
Proof.
  cbn zeta. unfold add_animation. exec. rewrite lookup_insert_eq. auto.
Qed.

(** ** What one animation's code can touch *)

Lemma frame_refl (a : nat) (w : World) : frame a w w.
Proof.
  split; try reflexivity.
  - exists []. split; [symmetry; apply app_nil_r|apply List.Forall_nil].
  - exists []. split; [symmetry; apply app_nil_r|].
    intros p cb H. inversion H.
Qed.

Lemma frame_trans (a : nat) (w1 w2 w3 : World) :
  frame a w1 w2 -> frame a w2 w3 -> frame a w1 w3.
Proof.
  intros [P1 A1 O1 L1 K1 M1 C1 (x1 & T1 & F1) (e1 & E1 & G1)]
         [P2 A2 O2 L2 K2 M2 C2 (x2 & T2 & F2) (e2 & E2 & G2)].
  split; try congruence.
  - intros b Hb. rewrite O2, O1 by exact Hb. reflexivity.
  - exists (x1 ++ x2). split.
    + rewrite T2, T1. symmetry. apply app_assoc.
    + apply Forall_app. split; assumption.
  - exists (e1 ++ e2). split.
    + rewrite E2, E1. symmetry. apply app_assoc.
    + intros p cb Hin. apply elem_of_app in Hin as [Hin|Hin].
      * eapply G1, Hin.
      * rewrite <- C1. eapply G2, Hin.
Qed.

Lemma steps_bind {A B} (R : World -> World -> Prop) (m : M A) (k : A -> M B) :
  (forall w1 w2 w3, R w1 w2 -> R w2 w3 -> R w1 w3) ->
  steps R m -> (forall x, steps R (k x)) -> steps R (bind m k).
Proof.
  intros Htrans Hm Hk w. unfold bind. specialize (Hm w).
  destruct (m w) as [[x|e] w1]; cbn [snd] in *.
  - eapply Htrans; [exact Hm|apply Hk].
  - exact Hm.
Qed.

Lemma steps_pure {A} (R : World -> World -> Prop) (f : World -> Py A) :
  (forall w, R w w) -> steps R (fun w => (f w, w)).
Proof. intros Hrefl w. apply Hrefl. Qed.

Lemma benign_set_animating b : benign (set_animating b).
Proof. intros s. auto. Qed.
Lemma benign_set_current_step n : benign (set_current_step n).
Proof. intros s. auto. Qed.
Lemma benign_set_timer t : benign (set_timer t).
Proof. intros s. auto. Qed.

Lemma frame_update_anim (a : nat) (g : AnimationState -> AnimationState) :
  benign g -> steps (frame a) (update_anim a g).
Proof.
  intros Hg w. unfold update_anim. exec.
  assert (Hself : kind (alter g a (anims w) !!! a) = kind (anims w !!! a)
                  /\ max_steps (alter g a (anims w) !!! a)
                     = max_steps (anims w !!! a)
                  /\ on_complete_attr (alter g a (anims w) !!! a)
                     = on_complete_attr (anims w !!! a)).
  { destruct (lookup_total_alter_cases g (anims w) a)
      as [[-> _]|[-> [-> _]]]; [apply Hg|auto]. }
  destruct Hself as (Hk & Hm & Hc).
  split; exec; try assumption; try reflexivity.
  - intros b Hb. apply list_lookup_alter_ne. congruence.
  - apply length_alter.
  - exists []. split; [symmetry; apply app_nil_r|apply List.Forall_nil].
  - exists []. split; [symmetry; apply app_nil_r|].
    intros p cb H. inversion H.
Qed.

Lemma frame_new_timer (a : nat) (d : float) : steps (frame a) (new_timer a d).
Proof.
  intros w. unfold new_timer. split; exec; try reflexivity.
  - eexists. split; [reflexivity|].
    apply List.Forall_cons; [reflexivity|apply List.Forall_nil].
  - exists []. split; [symmetry; apply app_nil_r|].
    intros p cb H. inversion H.
Qed.

Lemma frame_emit (a : nat) (e : event) : quiet e -> steps (frame a) (emit e).
Proof.
  intros He w. unfold emit. split; exec; try reflexivity.
  - exists []. split; [symmetry; apply app_nil_r|apply List.Forall_nil].
  - eexists. split; [reflexivity|].
    intros p cb H. apply list_elem_of_singleton in H. subst e. destruct He.
Qed.

Lemma frame_emit_complete (a p cb : nat) (w : World) :
  on_complete_attr (anims w !!! a) = Some p ->
  frame a w (snd (emit (CallComplete p cb) w)).
Proof.
  intros Hp. unfold emit. split; exec; try reflexivity.
  - exists []. split; [symmetry; apply app_nil_r|apply List.Forall_nil].
  - eexists. split; [reflexivity|].
    intros p' cb' H. apply list_elem_of_singleton in H.
    injection H as -> ->. exact Hp.
Qed.

Lemma frame_setattr (a o : nat) (name : string) (v : value) :
  steps (frame a) (setattr o name v).
Proof.
  intros w. unfold setattr. split; exec; try reflexivity.
  - exists []. split; [symmetry; apply app_nil_r|apply List.Forall_nil].
  - eexists. split; [reflexivity|].
    intros p cb H. apply list_elem_of_singleton in H. discriminate H.
Qed.

(** Composing the steps of a statement. *)
Ltac frame_steps :=
  repeat first
    [ apply steps_bind; [apply frame_trans| |intros ?]
    | apply frame_update_anim;
        first [apply benign_set_animating | apply benign_set_current_step
              | apply benign_set_timer]
    | apply frame_new_timer
    | apply frame_setattr
    | apply frame_emit; exact I
    | apply steps_pure; apply frame_refl
    | match goal with
      | |- steps _ (if ?b then _ else _) => destruct b
      | |- steps _ (match ?x with _ => _ end) => destruct x
      end ].

Lemma frame_setattr_if_present (a o : nat) (name : string) (v : value) :
  steps (frame a) (setattr_if_present o name v).
Proof. unfold setattr_if_present, hasattr, pass, ret. frame_steps. Qed.

Lemma frame_call_on_update (a : nat) (cb : option callback) (v : value) :
  steps (frame a) (call_on_update cb v).
Proof.
  unfold call_on_update, call_update, _refresh_ui, pass, ret. frame_steps.
Qed.

Lemma frame_refresh_ui (a : nat) : steps (frame a) _refresh_ui.
Proof. unfold _refresh_ui. frame_steps. Qed.

Lemma frame_on_frame (libm : Libm) (a : nat) : steps (frame a) (on_frame libm a).
Proof.
  unfold on_frame, interpolate_frame, get_anim, eval, pass, ret.
  apply steps_bind; [apply frame_trans|apply steps_pure, frame_refl|].
  intros s. destruct (kind s);
    repeat first
      [ apply frame_setattr_if_present
      | apply frame_call_on_update
      | apply frame_refresh_ui
      | apply steps_pure; apply frame_refl
      | apply steps_bind; [apply frame_trans| |intros ?] ].
Qed.

Lemma frame_schedule_next_frame (a : nat) :
  steps (frame a) (schedule_next_frame a).
Proof.
  unfold schedule_next_frame, get_anim, eval, pass, ret. frame_steps.
Qed.

Lemma frame_start (a : nat) : steps (frame a) (start a).
Proof.
  unfold start.
  repeat first
    [ apply frame_schedule_next_frame
    | apply frame_update_anim;
        first [apply benign_set_animating | apply benign_set_current_step]
    | apply steps_bind; [apply frame_trans| |intros ?] ].
Qed.

Lemma frame_on_complete (a : nat) : steps (frame a) (on_complete a).
Proof.
  intros w. unfold on_complete, get_anim. unfold bind at 1.
  destruct (on_complete_attr (anims w !!! a)) as [p|] eqn:Hattr.
  - unfold completion_wrapper, get_pop, pass, ret. unfold bind. 
    unfold update_anim at 1.
    pose proof (frame_update_anim a (set_animating false)
                  (benign_set_animating false) w) as Hf.
    unfold update_anim in Hf. cbn [snd] in Hf.
    destruct (pop_on_complete _) as [cb|]; [|exact Hf].
    eapply frame_trans; [exact Hf|].
    apply frame_emit_complete. rewrite (frame_attr _ _ _ Hf). exact Hattr.
  - destruct (kind (anims w !!! a));
      try apply (frame_update_anim a (set_animating false)
                   (benign_set_animating false) w).
    refine ((_ : steps (frame a) _) w).
    repeat first
      [ apply frame_setattr_if_present
      | apply frame_refresh_ui
      | apply steps_bind; [apply frame_trans| |intros ?] ].
Qed.

Lemma frame_advance (libm : Libm) (a : nat) :
  steps (frame a) (_advance libm a).
Proof.
  unfold _advance, get_anim, pass, ret.
  repeat first
    [ apply frame_on_complete
    | apply frame_on_frame
    | apply frame_schedule_next_frame
    | apply frame_update_anim; apply benign_set_current_step
    | apply steps_pure; apply frame_refl
    | apply steps_bind; [apply frame_trans| |intros ?]
    | match goal with
      | |- steps _ (if ?b then _ else _) => destruct b
      end ].
Qed.

Lemma frame_static (a : nat) (w w' : World) : frame a w w' -> static w w'.
Proof.
  intros [P A O L K Mx C _ _].
  split; try assumption; intros b; destruct (decide (b = a)) as [->|Hb];
    try assumption; rewrite !list_lookup_total_alt, (O b Hb); reflexivity.
Qed.

Lemma static_refl (w : World) : static w w.
Proof. split; reflexivity. Qed.

Lemma static_trans (w1 w2 w3 : World) :
  static w1 w2 -> static w2 w3 -> static w1 w3.
Proof.
  intros [P1 A1 L1 K1 M1 C1] [P2 A2 L2 K2 M2 C2].
  split; congruence.
Qed.

Lemma fire_cases (libm : Libm) (w : World) (t : nat) :
  (fire libm t w = w
   /\ forall tm, timers w !! t = Some tm -> t_state tm <> Pending)
  \/ exists tm,
       timers w !! t = Some tm /\ t_state tm = Pending
       /\ fire libm t w = snd (_advance libm (t_owner tm) (mark_fired t tm w))
       /\ frame (t_owner tm) (mark_fired t tm w) (fire libm t w).
Proof.
  destruct (timers w !! t) as [tm|] eqn:Ht.
  - destruct (t_state tm) eqn:Hst.
    + right. exists tm. split; [reflexivity|]. split; [exact Hst|].
      rewrite (fire_eq libm w t tm Ht Hst). split; [reflexivity|].
      apply frame_advance.
    + left. split; [apply fire_not_pending|]; intros tm'; try rewrite Ht;
        intros [= <-]; congruence.
    + left. split; [apply fire_not_pending|]; intros tm'; try rewrite Ht;
        intros [= <-]; congruence.
  - left. split; [apply fire_not_pending|]; intros tm'; try rewrite Ht;
      discriminate.
Qed.

Lemma fire_static (libm : Libm) (w : World) (t : nat) :
  static w (fire libm t w).
Proof.
  destruct (fire_cases libm w t) as [[-> _]|(tm & _ & _ & _ & Hf)].
  - apply static_refl.
  - apply frame_static in Hf. destruct Hf as [P A L K Mx C].
    split; assumption.
Qed.

(** ** The toggle recipe *)

Lemma animate_toggle_first (w : World) (obj : nat) (state : bool) (f : factory)
    (k : Subclass) :
  animations w !! toggle_key obj = None ->
  animations w !! (if state then "toggle_on" else "toggle_off")
    = Some (Factory f) ->
  call_factory f obj = (a <- new k ;; ret (Anim a)) ->
  max_steps (__init__ k) <> 0 ->
  animate_toggle obj state w =
    (Val tt,
     snd (start (length (anims w))
            (with_animations
               (<[toggle_key obj := Anim (length (anims w))]> (animations w))
               (with_anims (anims w ++ [__init__ k]) w)))).
Proof.
  intros Hkey Hbase Hf Hm.
  unfold animate_toggle. fold (toggle_key obj).
  unfold contains, getitem, call, add_animation, start_animation.
  unfold bind at 1. rewrite Hkey.
  rewrite bool_decide_eq_false_2 by (intros [? ?]; discriminate).
  cbn [negb]. unfold bind at 1. unfold bind at 1. rewrite Hbase.
  unfold bind at 1. rewrite Hf. unfold new, new_anim, pass, ret.
  unfold bind. exec. rewrite lookup_insert_eq. unfold call_start.
  erewrite start_running.
  - reflexivity.
  - exec. rewrite lookup_app_r by lia. rewrite Nat.sub_diag. reflexivity.
  - exact Hm.
Qed.

Lemma animate_toggle_again (w : World) (obj : nat) (state : bool) (a : nat)
    (s : AnimationState) :
  animations w !! toggle_key obj = Some (Anim a) ->
  anims w !! a = Some s -> max_steps s <> 0 ->
  animate_toggle obj state w = (Val tt, snd (start a w)).
Proof.
  intros Hkey Ha Hm.
  unfold animate_toggle. fold (toggle_key obj).
  unfold contains, start_animation.
  unfold bind at 1. rewrite Hkey.
  rewrite bool_decide_eq_true_2 by eauto.
  cbn [negb]. unfold pass, ret, bind. rewrite Hkey. unfold call_start.
  rewrite (start_running w a s Ha Hm). reflexivity.
Qed.

Lemma toggle_is_fade_in_static (obj a : nat) (w w' : World) :
  static w w' -> toggle_is_fade_in obj a w -> toggle_is_fade_in obj a w'.
Proof.
  intros [P A L K Mx C] [H1 H2 H3 H4].
  split; [rewrite A|rewrite L|rewrite K|rewrite Mx]; assumption.
Qed.

Lemma animate_toggle_restarts (obj a : nat) (state : bool) (w : World) :
  toggle_is_fade_in obj a w ->
  exists w',
    animate_toggle obj state w = (Val tt, w')
    /\ static w w'
    /\ animating (anims w' !!! a) = true
    /\ current_step (anims w' !!! a) = 0.
Proof.
  intros [Hkey Hvalid Hkind Hmax].
  destruct (lookup_lt_is_Some_2 _ _ Hvalid) as [s Hs].
  rewrite (lookup_total_of_lookup _ _ _ Hs) in Hkind, Hmax.
  assert (Hm : max_steps s <> 0) by lia.
  rewrite (animate_toggle_again w obj state a s Hkey Hs Hm).
  eexists. split; [reflexivity|]. split.
  - eapply frame_static, frame_start.
  - rewrite (start_running w a s Hs Hm). exec.
    rewrite (lookup_total_of_lookup _ a _ (list_lookup_insert_eq _ _ _ Hvalid)).
    exec. auto.
Qed.

Lemma toggle_run_keeps_fade_in (libm : Libm) (obj a : nat)
    (sched : list (bool + nat)) :
  forall w,
    toggle_is_fade_in obj a w ->
    toggle_is_fade_in obj a (toggle_run libm obj sched w)
    /\ length (anims (toggle_run libm obj sched w)) = length (anims w).
Proof.
  induction sched as [|x sched IH]; intros w Hw.
  - split; [exact Hw|reflexivity].
  - unfold toggle_run. cbn [foldl].
    fold (toggle_run libm obj sched (toggle_step libm obj w x)).
    assert (Hst : static w (toggle_step libm obj w x)).
    { destruct x as [state|t]; cbn [toggle_step].
      - destruct (animate_toggle_restarts obj a state w Hw)
          as (w' & -> & Hst & _). exact Hst.
      - apply fire_static. }
    destruct (IH _ (toggle_is_fade_in_static obj a _ _ Hst Hw)) as [H1 H2].
    split; [exact H1|]. rewrite H2. apply (static_length _ _ Hst).
Qed.

(** C10: the key of [animate_toggle] is built from the identity of the
    target alone.  Once a first call with state [True] has built the fade
    from 0.0 to 1.0, every later call, whatever its state and however the
    timers fire in between, finds that fade under the key and restarts
    it; no other animation is ever created for the object. *)
Theorem animate_toggle_reuses_first_fade (libm : Libm) (w : World) (obj : nat)
    (sched : list (bool + nat)) (state : bool) :
  animations w !! "toggle_on" = Some (Factory toggle_on) ->
  animations w !! toggle_key obj = None ->
  let a := length (anims w) in
  let w1 := snd (animate_toggle obj true w) in
  let w2 := toggle_run libm obj sched w1 in
  fst (animate_toggle obj true w) = Val tt
  /\ toggle_is_fade_in obj a w1
  /\ toggle_is_fade_in obj a w2
  /\ length (anims w2) = S (length (anims w))
  /\ exists w3,
       animate_toggle obj state w2 = (Val tt, w3)
       /\ toggle_is_fade_in obj a w3
       /\ length (anims w3) = S (length (anims w))
       /\ animating (anims w3 !!! a) = true
       /\ current_step (anims w3 !!! a) = 0.
Proof.
  intros Hon Hkey. cbn zeta.
  rewrite (animate_toggle_first w obj true toggle_on
             (FadeAnimation obj "highlight" 0 1 (Some RefreshUiLambda))
             Hkey Hon eq_refl) by (cbn; lia).
  cbn [fst snd].
  set (w0 := with_animations _ _).
  assert (H0 : toggle_is_fade_in obj (length (anims w)) w0).
  { subst w0. split; exec.
    - apply lookup_insert_eq.
    - rewrite length_app. cbn. lia.
    - rewrite (lookup_total_of_lookup _ (length (anims w))
                 (__init__ (FadeAnimation obj "highlight" 0 1
                              (Some RefreshUiLambda)))).
      + reflexivity.
      + rewrite lookup_app_r by lia. rewrite Nat.sub_diag. reflexivity.
    - rewrite (lookup_total_of_lookup _ (length (anims w))
                 (__init__ (FadeAnimation obj "highlight" 0 1
                              (Some RefreshUiLambda)))).
      + reflexivity.
      + rewrite lookup_app_r by lia. rewrite Nat.sub_diag. reflexivity. }
  assert (Hlen0 : length (anims w0) = S (length (anims w))).
  { subst w0. exec. rewrite length_app. cbn. lia. }
  assert (Hst1 : static w0 (snd (start (length (anims w)) w0))).
  { eapply frame_static, frame_start. }
  pose proof (toggle_is_fade_in_static _ _ _ _ Hst1 H0) as H1.
  destruct (toggle_run_keeps_fade_in libm obj _ sched _ H1) as [H2 Hlen2].
  rewrite (static_length _ _ Hst1), Hlen0 in Hlen2.
  split; [reflexivity|]. split; [exact H1|]. split; [exact H2|].
  split; [exact Hlen2|].
  destruct (animate_toggle_restarts obj _ state _ H2)
    as (w3 & -> & Hst3 & Hanim & Hstep).
  exists w3. split; [reflexivity|].
  split; [exact (toggle_is_fade_in_static _ _ _ _ Hst3 H2)|].
  split; [rewrite (static_length _ _ Hst3); exact Hlen2|].
  auto.
Qed.

Lemma animate_toggle_reuses_first_fade_witness :
  exists w3,
    animate_toggle 0 false
      (toggle_run libm_id 0 [inl false; inr 0%nat; inl true]
         (snd (animate_toggle 0 true registered_toggles)))
    = (Val tt, w3)
    /\ toggle_is_fade_in 0 (length (anims registered_toggles)) w3
    /\ length (anims w3) = S (length (anims registered_toggles))
    /\ animating (anims w3 !!! length (anims registered_toggles)) = true
    /\ current_step (anims w3 !!! length (anims registered_toggles)) = 0.
Proof.
  refine (proj2 (proj2 (proj2 (proj2
            (animate_toggle_reuses_first_fade libm_id registered_toggles 0
               [inl false; inr 0%nat; inl true] false _ _))))).
  - vm_compute. reflexivity.
  - vm_compute. reflexivity.
Defined.

(** ** The easing argument of the pop animations *)

Lemma blind_bind {A B} (m : M A) (k : A -> M B) :
  blind m -> (forall x, blind (k x)) -> blind (bind m k).
Proof.
  intros Hm Hk w. unfold bind. rewrite Hm.
  destruct (m w) as [[x|e] w1]; cbn [fst snd].
  - apply Hk.
  - reflexivity.
Qed.

Lemma blind_const {A} (r : Py A) : blind (fun w => (r, w)).
Proof. intros w. reflexivity. Qed.

Lemma blind_get_anim (a : nat) : blind (get_anim a).
Proof. intros w. reflexivity. Qed.
Lemma blind_update_anim (a : nat) g : blind (update_anim a g).
Proof. intros w. reflexivity. Qed.
Lemma blind_new_anim s : blind (new_anim s).
Proof. intros w. reflexivity. Qed.
Lemma blind_emit e : blind (emit e).
Proof. intros w. reflexivity. Qed.
Lemma blind_hasattr o name : blind (hasattr o name).
Proof. intros w. reflexivity. Qed.
Lemma blind_setattr o name v : blind (setattr o name v).
Proof. intros w. reflexivity. Qed.
Lemma blind_new_timer a d : blind (new_timer a d).
Proof. intros w. reflexivity. Qed.
Lemma blind_cancel t : blind (cancel t).
Proof. intros w. reflexivity. Qed.

Lemma erase_pop_lookup (l : list PopAnimation) (p : nat) :
  (erase_pop <$> l) !!! p = erase_pop (l !!! p).
Proof.
  rewrite !list_lookup_total_alt, list_lookup_fmap.
  destruct (l !! p); reflexivity.
Qed.

(** Reading a composite and going on without looking at [easing]. *)
Lemma blind_bind_get_pop {B} (p : nat) (k : PopAnimation -> M B) :
  (forall q, blind (k q)) -> (forall q, k (erase_pop q) = k q) ->
  blind (bind (get_pop p) k).
Proof.
  intros Hk Hq w. unfold bind, get_pop. exec.
  unfold erase_easing at 1. exec. rewrite erase_pop_lookup, Hq. apply Hk.
Qed.

Lemma blind_update_pop (p : nat) (g : PopAnimation -> PopAnimation) :
  (forall q, erase_pop (g q) = g (erase_pop q)) -> blind (update_pop p g).
Proof.
  intros Hg w. unfold update_pop, erase_easing. exec. f_equal.
  unfold with_pops. exec. f_equal.
  symmetry. apply list_fmap_alter. apply Forall_true. intros q. apply Hg.
Qed.

Ltac blind_steps :=
  repeat first
    [ apply blind_get_anim | apply blind_update_anim | apply blind_new_anim
    | apply blind_emit | apply blind_hasattr | apply blind_setattr
    | apply blind_new_timer | apply blind_cancel | apply blind_const
    | apply blind_bind; [|intros ?]
    | match goal with
      | |- blind (if ?b then _ else _) => destruct b
      | |- blind (match ?x with _ => _ end) => destruct x
      end ].

Lemma blind_setattr_if_present o name v : blind (setattr_if_present o name v).
Proof. unfold setattr_if_present, pass, ret. blind_steps. Qed.

Lemma blind_call_on_update cb v : blind (call_on_update cb v).
Proof.
  unfold call_on_update, call_update, _refresh_ui, pass, ret. blind_steps.
Qed.

Lemma blind_schedule_next_frame a : blind (schedule_next_frame a).
Proof. unfold schedule_next_frame, pass, ret, eval. blind_steps. Qed.

Lemma blind_start a : blind (start a).
Proof.
  unfold start.
  repeat first [apply blind_schedule_next_frame | apply blind_update_anim
               | apply blind_bind; [|intros ?]].
Qed.

Lemma blind_stop a : blind (stop a).
Proof. unfold stop, pass, ret. blind_steps. Qed.

Lemma blind_on_frame libm a : blind (on_frame libm a).
Proof.
  unfold on_frame, interpolate_frame, _refresh_ui, pass, ret, eval.
  apply blind_bind; [apply blind_get_anim|]. intros s.
  destruct (kind s);
    repeat first
      [ apply blind_setattr_if_present | apply blind_call_on_update
      | apply blind_emit | apply blind_const
      | apply blind_bind; [|intros ?] ].
Qed.

Lemma blind_on_complete a : blind (on_complete a).
Proof.
  unfold on_complete, completion_wrapper, _refresh_ui, pass, ret.
  apply blind_bind; [apply blind_get_anim|]. intros s.
  destruct (on_complete_attr s) as [p|].
  - apply blind_bind; [apply blind_update_anim|]. intros _.
    apply blind_bind_get_pop.
    + intros q. destruct (pop_on_complete q); blind_steps.
    + intros q. reflexivity.
  - destruct (kind s);
      repeat first
        [ apply blind_setattr_if_present | apply blind_update_anim
        | apply blind_emit | apply blind_bind; [|intros ?] ].
Qed.

Lemma blind_advance libm a : blind (_advance libm a).
Proof.
  unfold _advance, pass, ret.
  repeat first
    [ apply blind_on_complete | apply blind_on_frame
    | apply blind_schedule_next_frame | apply blind_get_anim
    | apply blind_update_anim | apply blind_const
    | apply blind_bind; [|intros ?]
    | match goal with
      | |- blind (if ?b then _ else _) => destruct b
      end ].
Qed.

Lemma fire_erase_easing libm t w :
  fire libm t (erase_easing w) = erase_easing (fire libm t w).
Proof.
  unfold fire. change (timers (erase_easing w)) with (timers w).
  destruct (timers w !! t) as [tm|]; [|reflexivity].
  destruct (t_state tm); try reflexivity.
  change (with_timers ?l (erase_easing w))
    with (erase_easing (with_timers l w)).
  rewrite blind_advance. reflexivity.
Qed.

Lemma blind_new k : blind (new k).
Proof. apply blind_new_anim. Qed.

Lemma erase_set_children f sc q :
  erase_pop (set_children f sc q) = set_children f sc (erase_pop q).
Proof. reflexivity. Qed.

Ltac blind_pop_steps :=
  repeat first
    [ apply blind_new | apply blind_start | apply blind_stop
    | apply blind_setattr_if_present | apply blind_update_anim
    | apply blind_const
    | apply blind_update_pop; intros ?; reflexivity
    | apply blind_bind_get_pop; [intros ?|intros ?; reflexivity]
    | apply blind_bind; [|intros ?]
    | match goal with
      | |- blind (match ?x with _ => _ end) => destruct x
      end ].

Lemma blind_popin_create p : blind (PopInAnimation.create_animations p).
Proof. unfold PopInAnimation.create_animations. blind_pop_steps. Qed.

Lemma blind_popout_create p : blind (PopOutAnimation.create_animations p).
Proof. unfold PopOutAnimation.create_animations. blind_pop_steps. Qed.

Lemma blind_popin_start p : blind (PopInAnimation.start p).
Proof.
  unfold PopInAnimation.start, pass, ret, raise.
  repeat first [apply blind_popin_create | progress blind_pop_steps].
Qed.

Lemma blind_popout_start p : blind (PopOutAnimation.start p).
Proof.
  unfold PopOutAnimation.start, pass, ret, raise.
  repeat first [apply blind_popout_create | progress blind_pop_steps].
Qed.

Lemma blind_popin_stop p : blind (PopInAnimation.stop p).
Proof. unfold PopInAnimation.stop, pass, ret. blind_pop_steps. Qed.

Lemma blind_popout_stop p : blind (PopOutAnimation.stop p).
Proof. unfold PopOutAnimation.stop, pass, ret. blind_pop_steps. Qed.

Lemma pop_run_erase_easing libm start stop p ops :
  (forall p, blind (start p)) -> (forall p, blind (stop p)) ->
  forall w,
    pop_run libm start stop p ops (erase_easing w)
    = erase_easing (pop_run libm start stop p ops w).
Proof.
  intros Hstart Hstop. unfold pop_run.
  induction ops as [|op ops IH]; intros w.
  - reflexivity.
  - cbn [foldl]. rewrite <- IH. f_equal.
    destruct op as [| |t]; cbn [pop_step].
    + rewrite Hstart. reflexivity.
    + rewrite Hstop. reflexivity.
    + apply fire_erase_easing.
Qed.

(** Two worlds that differ at most in [easing] attributes stay so, and
    show the same trace, attributes, animations and timers. *)
Lemma pop_run_same_behaviour libm start stop p ops (w1 w2 : World) :
  (forall p, blind (start p)) -> (forall p, blind (stop p)) ->
  erase_easing w1 = erase_easing w2 ->
  let r1 := pop_run libm start stop p ops w1 in
  let r2 := pop_run libm start stop p ops w2 in
  trace r1 = trace r2 /\ attrs r1 = attrs r2
  /\ anims r1 = anims r2 /\ timers r1 = timers r2.
Proof.
  intros Hstart Hstop Hw. cbn zeta.
  assert (He : erase_easing (pop_run libm start stop p ops w1)
               = erase_easing (pop_run libm start stop p ops w2)).
  { rewrite <- !pop_run_erase_easing by assumption. rewrite Hw. reflexivity. }
  repeat split.
  - apply (f_equal trace) in He. exact He.
  - apply (f_equal attrs) in He. exact He.
  - apply (f_equal anims) in He. exact He.
  - apply (f_equal timers) in He. exact He.
Qed.

(** C9: the [easing] argument of [PopInAnimation] and of
    [PopOutAnimation] is stored and never read.  Two composites built
    with the same arguments but different [easing] values get the same
    reference and, under any sequence of [start()], [stop()] and timer
    firings, produce the same trace (so the same values written to the
    target, in the same order), the same attributes, child animations and
    timers. *)
Theorem easing_argument_is_unused (libm : Libm) (w : World)
    (target_object : nat) (opacity_property scale_property : string)
    (on_update : option callback) (on_complete : option nat)
    (start_scale end_scale duration : float) (easing1 easing2 : string)
    (ops : list pop_op) :
  (let i1 := PopInAnimation.__init__ target_object opacity_property
               scale_property on_update start_scale end_scale duration
               easing1 w in
   let i2 := PopInAnimation.__init__ target_object opacity_property
               scale_property on_update start_scale end_scale duration
               easing2 w in
   let run := pop_run libm PopInAnimation.start PopInAnimation.stop
                (length (pops w)) ops in
   fst i1 = Val (length (pops w)) /\ fst i2 = Val (length (pops w))
   /\ trace (run (snd i1)) = trace (run (snd i2))
   /\ attrs (run (snd i1)) = attrs (run (snd i2))
   /\ anims (run (snd i1)) = anims (run (snd i2))
   /\ timers (run (snd i1)) = timers (run (snd i2)))
  /\
  (let i1 := PopOutAnimation.__init__ target_object opacity_property
               scale_property on_update on_complete start_scale end_scale
               duration easing1 w in
   let i2 := PopOutAnimation.__init__ target_object opacity_property
               scale_property on_update on_complete start_scale end_scale
               duration easing2 w in
   let run := pop_run libm PopOutAnimation.start PopOutAnimation.stop
                (length (pops w)) ops in
   fst i1 = Val (length (pops w)) /\ fst i2 = Val (length (pops w))
   /\ trace (run (snd i1)) = trace (run (snd i2))
   /\ attrs (run (snd i1)) = attrs (run (snd i2))
   /\ anims (run (snd i1)) = anims (run (snd i2))
   /\ timers (run (snd i1)) = timers (run (snd i2))).
Proof.
  split; cbn zeta; (split; [reflexivity|]); (split; [reflexivity|]).
  - apply pop_run_same_behaviour;
      [apply blind_popin_start|apply blind_popin_stop|].
    unfold PopInAnimation.__init__, new_pop, erase_easing. exec.
    rewrite !fmap_app. reflexivity.
  - apply pop_run_same_behaviour;
      [apply blind_popout_start|apply blind_popout_stop|].
    unfold PopOutAnimation.__init__, new_pop, erase_easing. exec.
    rewrite !fmap_app. reflexivity.
Qed.

(** ** The completion callback of a pop-out *)

Lemma surface_refl (w : World) : surface w w.
Proof.
  split; try reflexivity.
  exists []. split; [symmetry; apply app_nil_r|apply List.Forall_nil].
Qed.

Lemma surface_trans (w1 w2 w3 : World) :
  surface w1 w2 -> surface w2 w3 -> surface w1 w3.
Proof.
  intros [A1 P1 T1 R1 (e1 & E1 & Q1)] [A2 P2 T2 R2 (e2 & E2 & Q2)].
  split; try congruence.
  exists (e1 ++ e2). split.
  - rewrite E2, E1. symmetry. apply app_assoc.
  - apply Forall_app. split; assumption.
Qed.

Lemma surface_emit (e : event) (w : World) :
  quiet e -> surface w (snd (emit e w)).
Proof.
  intros He. unfold emit. split; exec; try reflexivity.
  eexists. split; [reflexivity|].
  apply List.Forall_cons; [exact He|apply List.Forall_nil].
Qed.

(** [setattr_if_present] and [call_on_update] return, and stay on the
    surface. *)
Lemma setattr_if_present_returns (o : nat) (name : string) (v : value)
    (w : World) :
  exists w', setattr_if_present o name v w = (Val tt, w') /\ surface w w'.
Proof.
  unfold setattr_if_present, hasattr, setattr, pass, ret, bind.
  destruct (bool_decide _); eexists; (split; [reflexivity|]).
  - split; exec; try reflexivity.
    eexists. split; [reflexivity|].
    apply List.Forall_cons; [exact I|apply List.Forall_nil].
  - apply surface_refl.
Qed.

Lemma call_on_update_returns (cb : option callback) (v : value) (w : World) :
  exists w', call_on_update cb v w = (Val tt, w') /\ surface w w'.
Proof.
  unfold call_on_update, call_update, _refresh_ui, pass, ret.
  destruct cb as [[id|]|]; eexists; (split; [reflexivity|]);
    try (apply surface_emit; exact I).
  apply surface_refl.
Qed.

Lemma quiet_not_call (p cb : nat) (evs : list event) :
  Forall quiet evs -> List.filter (is_call p cb) evs = [].
Proof.
  induction 1 as [|e evs He _ IH]; [reflexivity|].
  cbn [List.filter]. destruct e; cbn [is_call]; try exact IH. destruct He.
Qed.

Lemma completion_calls_app (p cb : nat) (w w' : World) (evs : list event) :
  trace w' = trace w ++ evs ->
  completion_calls p cb w'
  = (completion_calls p cb w + length (List.filter (is_call p cb) evs))%nat.
Proof.
  intros Ht. unfold completion_calls.
  rewrite Ht, List.filter_app, length_app. reflexivity.
Qed.

Lemma surface_completion_calls (p cb : nat) (w w' : World) :
  surface w w' -> completion_calls p cb w' = completion_calls p cb w.
Proof.
  intros [_ _ _ _ (evs & Ht & Hq)].
  rewrite (completion_calls_app p cb w w' evs Ht).
  rewrite (quiet_not_call p cb evs Hq). cbn. lia.
Qed.

(** *** One tick of a running animation *)

Lemma advance_running (libm : Libm) (w : World) (a : nat)
    (s : AnimationState) :
  anims w !! a = Some s -> animating s = true ->
  _advance libm a w =
    let w1 := with_anims
                (<[a := set_current_step (current_step s + 1) s]> (anims w))
                w in
    if max_steps s <=? current_step s + 1 then on_complete a w1
    else (on_frame libm a ;;; schedule_next_frame a) w1.
Proof.
  intros Ha Hrun.
  assert (Hlt : (a < length (anims w))%nat) by (eapply lookup_lt_Some, Ha).
  unfold _advance. unfold bind at 1. unfold get_anim at 1. exec.
  rewrite (lookup_total_of_lookup _ _ _ Ha), Hrun. cbn [negb].
  unfold bind at 1. unfold update_anim at 1. exec.
  unfold bind at 1. unfold get_anim at 1. exec.
  rewrite (alter_of_lookup _ _ _ _ Ha).
  rewrite (lookup_total_of_lookup _ a _ (list_lookup_insert_eq _ _ _ Hlt)).
  exec. cbn zeta. destruct (max_steps s <=? current_step s + 1); reflexivity.
Qed.

Lemma schedule_running (w : World) (a : nat) (s : AnimationState) :
  anims w !! a = Some s -> animating s = true -> max_steps s <> 0 ->
  schedule_next_frame a w =
    (Val tt,
     with_anims (<[a := set_timer (Some (length (timers w))) s]> (anims w))
       (with_timers
          (timers w ++
             [{| t_owner := a;
                 t_interval :=
                   PrimFloat.div (duration s) (float_of_Z (max_steps s));
                 t_state := Pending |}]) w)).
Proof.
  intros Ha Hrun Hm.
  unfold schedule_next_frame. unfold_prims. exec.
  rewrite (lookup_total_of_lookup _ _ _ Ha), Hrun. cbn [negb].
  rewrite float_div_int_nonzero by exact Hm.
  rewrite (alter_of_lookup _ _ _ _ Ha). reflexivity.
Qed.

Lemma on_complete_wrapped (w : World) (a : nat) (s : AnimationState)
    (p : nat) :
  anims w !! a = Some s -> on_complete_attr s = Some p ->
  on_complete a w =
    (Val tt,
     let w1 := with_anims (<[a := set_animating false s]> (anims w)) w in
     match pop_on_complete (pops w !!! p) with
     | Some cb => with_trace (trace w ++ [CallComplete p cb]) w1
     | None => w1
     end).
Proof.
  intros Ha Hp.
  unfold on_complete, completion_wrapper. unfold_prims. exec.
  rewrite (lookup_total_of_lookup _ _ _ Ha), Hp.
  rewrite (alter_of_lookup _ _ _ _ Ha).
  destruct (pop_on_complete (pops w !!! p)); reflexivity.
Qed.

(** The tick on which [current_step] reaches [max_steps] only completes:
    with the inherited [on_complete] it writes no attribute and calls
    nothing. *)
Lemma advance_completes_silently (libm : Libm) (w : World) (a : nat)
    (s : AnimationState) :
  anims w !! a = Some s -> animating s = true ->
  max_steps s <= current_step s + 1 ->
  on_complete_attr s = None -> (forall o, kind s <> NavigationAnimation o) ->
  _advance libm a w =
    (Val tt,
     with_anims
       (<[a := set_animating false
                 (set_current_step (current_step s + 1) s)]> (anims w)) w).
Proof.
  intros Ha Hrun Hlast Hattr Hkind.
  assert (Hlt : (a < length (anims w))%nat) by (eapply lookup_lt_Some, Ha).
  rewrite (advance_running libm w a s Ha Hrun). cbn zeta.
  destruct (Z.leb_spec (max_steps s) (current_step s + 1)); [|lia].
  unfold on_complete. unfold_prims. exec.
  rewrite (lookup_total_of_lookup _ a _ (list_lookup_insert_eq _ _ _ Hlt)).
  exec. rewrite Hattr.
  destruct (kind s) eqn:Hk;
    try (exfalso; eapply Hkind; reflexivity);
    unfold update_anim; exec;
    rewrite (alter_of_lookup _ _ a _ (list_lookup_insert_eq _ _ _ Hlt));
    rewrite list_insert_insert_eq; reflexivity.
Qed.

(** The frame of a fade returns and stays on the surface. *)
Lemma on_frame_fade (libm : Libm) (w : World) (a : nat) (s : AnimationState)
    o name lo hi upd :
  anims w !! a = Some s -> kind s = FadeAnimation o name lo hi upd ->
  0 <= current_step s ->
  exists w', on_frame libm a w = (Val tt, w') /\ surface w w'.
Proof.
  intros Ha Hk Hstep.
  destruct (get_progress_value s Hstep) as [lp Hlp].
  unfold on_frame, interpolate_frame. unfold bind at 1. unfold get_anim at 1.
  rewrite (lookup_total_of_lookup _ _ _ Ha), Hk.
  unfold bind at 1. unfold eval at 1, get_eased_progress. rewrite Hlp.
  change (ease libm "ease_out_quad" lp)
    with (Val (- (lp * (lp - 2)))%float).
  cbv beta iota.
  destruct (setattr_if_present_returns o name
              (VFloat (lo + (hi - lo) * - (lp * (lp - 2)))) w)
    as (w1 & E1 & S1).
  destruct (call_on_update_returns upd
              (VFloat (lo + (hi - lo) * - (lp * (lp - 2)))) w1)
    as (w2 & E2 & S2).
  exists w2. split; [|eapply surface_trans; eassumption].
  unfold bind. rewrite E1, E2. reflexivity.
Qed.

(** *** The invariant of a pop-out whose children exist *)

Lemma popout_built_static (p cb f sc : nat) (w w' : World) :
  static w w' -> popout_built p cb f sc w -> popout_built p cb f sc w'.
Proof.
  intros [P A L K Mx C] [H1 H2 H3 H4 H5 H6 H7 H8 H9 H10 H11].
  split; rewrite ?P, ?L, ?K, ?Mx, ?C; try assumption.
  intros a. rewrite C. apply H11.
Qed.

Lemma static_mark_fired (t : nat) (tm : Timer) (w : World) :
  static w (mark_fired t tm w).
Proof. split; reflexivity. Qed.

Lemma no_call_in (p cb : nat) (evs : list event) :
  (forall cb', CallComplete p cb' ∉ evs) ->
  List.filter (is_call p cb) evs = [].
Proof.
  induction evs as [|e evs IH]; intros Hno; [reflexivity|].
  cbn [List.filter].
  assert (He : is_call p cb e = false).
  { destruct e as [| |p' cb'|]; try reflexivity. cbn [is_call].
    destruct (Nat.eqb_spec p p') as [<-|]; [|reflexivity].
    exfalso. apply (Hno cb'). left. }
  rewrite He. apply IH. intros cb' Hin. apply (Hno cb'). right. exact Hin.
Qed.

Lemma pending_of_fired (f t : nat) (tm : Timer) (w : World) :
  timers w !! t = Some tm -> t_state tm = Pending ->
  pending_of f t w = Nat.eqb (t_owner tm) f.
Proof.
  intros Ht Hst. unfold pending_of, is_pending_of. rewrite Ht, Hst.
  apply andb_true_r.
Qed.

Lemma pending_of_not_pending (f t : nat) (w : World) :
  (forall tm, timers w !! t = Some tm -> t_state tm <> Pending) ->
  pending_of f t w = false.
Proof.
  intros Hn. unfold pending_of, is_pending_of.
  destruct (timers w !! t) as [tm|]; [|reflexivity].
  specialize (Hn tm eq_refl). destruct (t_state tm); try congruence;
    apply andb_false_r.
Qed.

Lemma fire_other (libm : Libm) (p cb f sc : nat) (w : World) (t : nat)
    (tm : Timer) :
  popout_inv p cb f sc w ->
  timers w !! t = Some tm -> t_state tm = Pending -> t_owner tm <> f ->
  popout_inv p cb f sc (fire libm t w)
  /\ tick_outcome p cb f false w (fire libm t w).
Proof.
  intros [Hb Hl] Ht Hst Hown.
  destruct (fire_cases libm w t) as [[_ Hnp]|(tm' & Ht' & _ & _ & Hf)].
  { exfalso. exact (Hnp tm Ht Hst). }
  rewrite Ht in Ht'. injection Ht' as <-.
  set (w' := fire libm t w) in *.
  pose proof (frame_static _ _ _ Hf) as Hs.
  assert (HF : anims w' !!! f = anims w !!! f).
  { rewrite !list_lookup_total_alt.
    rewrite (frame_others _ _ _ Hf f) by congruence. reflexivity. }
  destruct (frame_timers _ _ _ Hf) as (extra & Htimers & _).
  destruct (frame_trace _ _ _ Hf) as (evs & Htrace & Hevs).
  split; [split|].
  - eapply popout_built_static; [|exact Hb].
    eapply static_trans; [apply (static_mark_fired t tm)|exact Hs].
  - rewrite HF. intros Hrun. destruct (Hl Hrun) as [Hstep Htm].
    split; rewrite HF; [exact Hstep|].
    destruct Htm as (th & tmh & Hth & Hlook & Hoh & Hph).
    exists th, tmh. split; [exact Hth|]. split; [|auto].
    rewrite Htimers. unfold mark_fired. exec.
    assert (Hne : t <> th).
    { intros ->. rewrite Ht in Hlook. injection Hlook as ->. congruence. }
    rewrite lookup_app_l
      by (rewrite length_insert; eapply lookup_lt_Some, Hlook).
    rewrite list_lookup_insert_ne by exact Hne. exact Hlook.
  - right. right. cbn zeta. rewrite HF. split; [auto|]. split; [reflexivity|].
    split; [reflexivity|].
    rewrite (completion_calls_app p cb (mark_fired t tm w) w' evs Htrace).
    rewrite no_call_in; [unfold completion_calls; cbn; lia|].
    intros cb' Hin. apply Hown. apply (pb_unique _ _ _ _ _ Hb).
    exact (Hevs p cb' Hin).
Qed.

Lemma completion_calls_same_trace (p cb : nat) (w w' : World) :
  trace w' = trace w -> completion_calls p cb w' = completion_calls p cb w.
Proof. intros Ht. unfold completion_calls. rewrite Ht. reflexivity. Qed.

Lemma fire_self (libm : Libm) (p cb f sc : nat) (w : World) (t : nat)
    (tm : Timer) :
  popout_inv p cb f sc w ->
  timers w !! t = Some tm -> t_state tm = Pending -> t_owner tm = f ->
  popout_inv p cb f sc (fire libm t w)
  /\ tick_outcome p cb f true w (fire libm t w).
Proof.
  intros [Hb Hl] Ht Hst Hown.
  pose proof (popout_built_static _ _ _ _ _ _ (fire_static libm w t) Hb)
    as Hb'.
  destruct (lookup_lt_is_Some_2 _ _ (pb_fade_valid _ _ _ _ _ Hb)) as [F HF].
  pose proof (pb_fade_steps _ _ _ _ _ Hb) as Hmax.
  pose proof (pb_fade_attr _ _ _ _ _ Hb) as Hattr.
  destruct (pb_fade_kind _ _ _ _ _ Hb) as (o & name & lo & hi & upd & Hkind).
  pose proof (pb_on_complete _ _ _ _ _ Hb) as Hcb.
  pose proof (pb_fade_valid _ _ _ _ _ Hb) as Hvalid.
  unfold tick_outcome. cbn zeta.
  rewrite (lookup_total_of_lookup _ _ _ HF) in *.
  revert Hb'. rewrite (fire_eq libm w t tm Ht Hst), Hown. intros Hb'.
  destruct (animating F) eqn:Hrun.
  - (* the fade is running *)
    destruct (Hl eq_refl) as [Hstep Htimer]. clear Htimer.
    rewrite (lookup_total_of_lookup _ _ _ HF) in Hstep.
    revert Hb'.
    rewrite (advance_running libm _ f F) by (exec; assumption).
    cbn zeta. exec. rewrite Hmax.
    set (s1 := set_current_step (current_step F + 1) F).
    assert (Hlook1 : <[f := s1]> (anims w) !! f = Some s1)
      by (apply list_lookup_insert_eq; assumption).
    destruct (Z.leb_spec 10 (current_step F + 1)) as [Hdone|Hmore].
    + (* the tenth tick *)
      rewrite (on_complete_wrapped
                 (with_anims (<[f := s1]> (anims w)) (with_timers (<[t := set_t_state Fired tm]> (timers w)) w))
                 f s1 p Hlook1 Hattr).
      cbn zeta. exec. rewrite Hcb. exec.
      rewrite list_insert_insert_eq. intros Hb'.
      assert (HF' : forall l : list AnimationState,
                 length l = length (anims w) ->
                 <[f := set_animating false s1]> l !!! f
                 = set_animating false s1).
      { intros l Hlen. apply lookup_total_of_lookup.
        apply list_lookup_insert_eq. lia. }
      split; [split; [exact Hb'|]|].
      * exec. rewrite HF' by reflexivity. exec. discriminate.
      * right. left. exec. rewrite HF' by reflexivity. exec.
        split; [reflexivity|]. split; [reflexivity|]. split; [lia|].
        split; [reflexivity|].
        unfold completion_calls. exec.
        rewrite List.filter_app, length_app. cbn [List.filter is_call].
        rewrite !Nat.eqb_refl. cbn. lia.
    + (* a frame, and the next timer *)
      destruct (on_frame_fade libm
                  (with_anims (<[f := s1]> (anims w)) (with_timers (<[t := set_t_state Fired tm]> (timers w)) w))
                  f s1 o name lo hi upd)
        as (w2 & E2 & S2).
      { exact Hlook1. }
      { exact Hkind. }
      { subst s1. exec. lia. }
      unfold bind. rewrite E2.
      assert (Hs1 : anims w2 !! f = Some s1).
      { rewrite (surface_anims _ _ S2). exec.
        apply list_lookup_insert_eq. assumption. }
      rewrite (schedule_running w2 f s1 Hs1 Hrun)
        by (change (max_steps s1) with (max_steps F); lia).
      exec. intros Hb'.
      assert (Hlen2 : length (anims w2) = length (anims w)).
      { rewrite (surface_anims _ _ S2). exec. apply length_insert. }
      assert (HF3 : <[f := set_timer (Some (length (timers w2))) s1]>
                      (anims w2) !!! f
                    = set_timer (Some (length (timers w2))) s1).
      { apply lookup_total_of_lookup, list_lookup_insert_eq. lia. }
      rewrite HF3. subst s1. exec.
      split; [split; [exact Hb'|]|].
      * intros _. split.
        -- exec. rewrite HF3. exec. lia.
        -- exec. rewrite HF3. exec.
           eexists _, _. split; [reflexivity|]. split.
           ++ rewrite lookup_app_r by lia. rewrite Nat.sub_diag. reflexivity.
           ++ split; reflexivity.
      * left. split; [reflexivity|]. split; [reflexivity|]. split; [lia|].
        split; [exact Hrun|]. split; [reflexivity|].
        rewrite (completion_calls_same_trace p cb w2) by reflexivity.
        rewrite (surface_completion_calls p cb _ _ S2).
        apply completion_calls_same_trace. reflexivity.
  - (* the fade is idle: the timer fires without effect *)
    revert Hb'. rewrite advance_idle
      by (exec; rewrite (lookup_total_of_lookup _ _ _ HF); exact Hrun).
    exec. intros Hb'.
    assert (HF0 : anims w !!! f = F).
    { apply (lookup_total_of_lookup _ _ _ HF). }
    split; [split; [exact Hb'|]|].
    + exec. rewrite HF0, Hrun. discriminate.
    + right. right. exec. rewrite HF0, Hrun. split; [auto|].
      split; [reflexivity|]. split; reflexivity.
Qed.

Lemma fire_popout (libm : Libm) (p cb f sc : nat) (w : World) (t : nat) :
  popout_inv p cb f sc w ->
  popout_inv p cb f sc (fire libm t w)
  /\ tick_outcome p cb f (pending_of f t w) w (fire libm t w).
Proof.
  intros Hinv.
  destruct (fire_cases libm w t) as [[Hsame Hnp]|(tm & Ht & Hst & _ & _)].
  - rewrite Hsame, (pending_of_not_pending f t w Hnp).
    split; [exact Hinv|]. right. right. auto.
  - rewrite (pending_of_fired f t tm w Ht Hst).
    destruct (Nat.eqb_spec (t_owner tm) f) as [Hown|Hown].
    + apply (fire_self libm p cb f sc w t tm); assumption.
    + apply (fire_other libm p cb f sc w t tm); assumption.
Qed.

(** Under any schedule, the callback is called once more exactly when the
    fade was animating and enough of its timers fired; the fade is
    animating afterwards exactly when they did not. *)
Lemma fires_popout (libm : Libm) (p cb f sc : nat) (ts : list nat) :
  forall w,
    popout_inv p cb f sc w ->
    let w' := fires libm ts w in
    let done :=
      animating (anims w !!! f)
      && (remaining f w <=? ticks_of libm f ts w)%nat in
    popout_inv p cb f sc w'
    /\ completion_calls p cb w'
       = (completion_calls p cb w + if done then 1 else 0)%nat
    /\ animating (anims w' !!! f)
       = animating (anims w !!! f)
         && (ticks_of libm f ts w <? remaining f w)%nat.
Proof.
  induction ts as [|t ts IH]; intros w Hinv; cbn zeta.
  - cbn [fires foldl ticks_of]. split; [exact Hinv|].
    destruct (animating (anims w !!! f)) eqn:Hrun; cbn [andb].
    + destruct Hinv as [_ Hl]. destruct (Hl Hrun) as [Hstep _].
      unfold remaining.
      destruct (Nat.leb_spec (Z.to_nat (10 - current_step (anims w !!! f))) 0);
        [lia|].
      destruct (Nat.ltb_spec 0 (Z.to_nat (10 - current_step (anims w !!! f))));
        [|lia].
      split; [lia|reflexivity].
    + split; [lia|reflexivity].
  - unfold fires. cbn [foldl ticks_of]. fold (fires libm ts (fire libm t w)).
    destruct (fire_popout libm p cb f sc w t Hinv) as [Hinv1 Hout].
    destruct (IH _ Hinv1) as (Hinv' & Hcalls & Hrun'). cbn zeta in *.
    split; [exact Hinv'|].
    rewrite Hcalls, Hrun'. clear Hcalls Hrun' IH.
    set (n := ticks_of libm f ts (fire libm t w)).
    unfold tick_outcome in Hout. cbn zeta in Hout. unfold remaining.
    destruct Hinv as [_ Hl].
    destruct Hout as [(-> & Hr & Hlt & Hr1 & Hs1 & Hc1)
                     |[(-> & Hr & Hlt & Hr1 & Hc1)
                      |(Hnot & Hr1 & Hs1 & Hc1)]].
    + destruct (Hl Hr) as [Hstep _].
      rewrite Hr, Hr1, Hs1, Hc1. cbn [andb].
      replace (Z.to_nat (10 - (current_step (anims w !!! f) + 1)))
        with (Nat.pred (Z.to_nat (10 - current_step (anims w !!! f))))
        by lia.
      set (r := Z.to_nat (10 - current_step (anims w !!! f))).
      assert (Hr0 : (1 <= r)%nat) by (subst r; lia).
      destruct (Nat.leb_spec (Nat.pred r) n), (Nat.leb_spec r (1 + n));
        try lia;
      destruct (Nat.ltb_spec n (Nat.pred r)), (Nat.ltb_spec (1 + n) r);
        try lia; split; reflexivity.
    + destruct (Hl Hr) as [Hstep _].
      rewrite Hr, Hr1, Hc1. cbn [andb].
      set (r := Z.to_nat (10 - current_step (anims w !!! f))).
      assert (Hr0 : r = 1%nat) by (subst r; lia).
      destruct (Nat.leb_spec r (1 + n)); [|lia].
      destruct (Nat.ltb_spec (1 + n) r); [lia|].
      split; [lia|reflexivity].
    + rewrite Hr1, Hs1, Hc1.
      destruct (animating (anims w !!! f)) eqn:Hr; cbn [andb];
        [|split; reflexivity].
      destruct Hnot as [->|Hfalse]; [|discriminate Hfalse].
      split; reflexivity.
Qed.

(** *** Starting a pop-out *)

Lemma popout_start_eq (p : nat) (w : World) :
  PopOutAnimation.start p w =
    match (match fade_animation (pops w !!! p),
                 scale_animation (pops w !!! p) with
           | Some _, Some _ => pass
           | _, _ => PopOutAnimation.create_animations p
           end) w with
    | (Val _, w') => popout_start_children (pops w' !!! p) w'
    | (Exc e, w') => (Exc e, w')
    end.
Proof. reflexivity. Qed.

Lemma surface_static (w w' : World) : surface w w' -> static w w'.
Proof.
  intros [A P T R _]. split; rewrite ?A, ?P, ?R; reflexivity.
Qed.

Lemma start_children_built (p cb f sc : nat) (w : World) :
  popout_built p cb f sc w ->
  exists w1,
    popout_start_children (pops w !!! p) w = (Val tt, w1)
    /\ popout_inv p cb f sc w1
    /\ animating (anims w1 !!! f) = true
    /\ current_step (anims w1 !!! f) = 0
    /\ completion_calls p cb w1 = completion_calls p cb w.
Proof.
  intros Hb.
  destruct (lookup_lt_is_Some_2 _ _ (pb_fade_valid _ _ _ _ _ Hb)) as [F HF].
  destruct (lookup_lt_is_Some_2 _ _ (pb_scale_valid _ _ _ _ _ Hb))
    as [SC HSC].
  pose proof (pb_fade_steps _ _ _ _ _ Hb) as HmF.
  pose proof (pb_scale_steps _ _ _ _ _ Hb) as HmS.
  pose proof (pb_distinct _ _ _ _ _ Hb) as Hne.
  pose proof (pb_fade_valid _ _ _ _ _ Hb) as HvF.
  rewrite (lookup_total_of_lookup _ _ _ HF) in HmF.
  rewrite (lookup_total_of_lookup _ _ _ HSC) in HmS.
  unfold popout_start_children.
  rewrite (pb_fade _ _ _ _ _ Hb), (pb_scale _ _ _ _ _ Hb).
  destruct (setattr_if_present_returns
              (pop_target_object (pops w !!! p))
              (pop_opacity_property (pops w !!! p)) (VFloat 1) w)
    as (wa & Ea & Sa).
  destruct (setattr_if_present_returns
              (pop_target_object (pops w !!! p))
              (pop_scale_property (pops w !!! p)) (VFloat 1) wa)
    as (wb & Eb & Sb).
  pose proof (surface_trans _ _ _ Sa Sb) as Sab.
  assert (HFb : anims wb !! f = Some F)
    by (rewrite (surface_anims _ _ Sab); exact HF).
  assert (HSb : anims wb !! sc = Some SC)
    by (rewrite (surface_anims _ _ Sab); exact HSC).
  assert (HmF' : max_steps F <> 0) by lia.
  pose proof (frame_start f wb) as Hfc.
  rewrite (start_running wb f F HFb HmF') in Hfc. cbn [snd] in Hfc.
  set (wc := with_anims _ _) in Hfc.
  assert (HSc : anims wc !! sc = Some SC).
  { subst wc. exec. rewrite list_lookup_insert_ne by exact Hne. exact HSb. }
  pose proof (frame_start sc wc) as Hfd.
  rewrite (start_running wc sc SC HSc HmS) in Hfd. cbn [snd] in Hfd.
  set (wd := with_anims _ _) in Hfd.
  exists wd. split.
  { unfold bind. rewrite Ea, Eb.
    rewrite (start_running wb f F HFb HmF'). fold wc.
    rewrite (start_running wc sc SC HSc HmS). reflexivity. }
  assert (Hst : static w wd).
  { eapply static_trans; [exact (surface_static _ _ Sab)|].
    eapply static_trans; eapply frame_static; eassumption. }
  assert (HFd : anims wd !!! f
                = set_timer (Some (length (timers wb)))
                    (set_current_step 0 (set_animating true F))).
  { apply lookup_total_of_lookup. subst wd wc. exec.
    rewrite list_lookup_insert_ne by congruence.
    apply list_lookup_insert_eq. eapply lookup_lt_Some, HFb. }
  split; [split|].
  - exact (popout_built_static _ _ _ _ _ _ Hst Hb).
  - intros _. split; rewrite HFd; exec; [lia|].
    eexists _, _. split; [reflexivity|]. split.
    + subst wd wc. exec.
      rewrite lookup_app_l by (rewrite length_app; cbn; lia).
      rewrite lookup_app_r by lia. rewrite Nat.sub_diag. reflexivity.
    + split; reflexivity.
  - rewrite HFd. exec. split; [reflexivity|]. split; [reflexivity|].
    rewrite (completion_calls_same_trace p cb wb) by reflexivity.
    apply (surface_completion_calls p cb _ _ Sab).
Qed.

(** A pop-out is fresh when it comes out of its constructor, in any world
    whose completion wrappers belong to composites that exist. *)
Lemma popout_init_fresh (w : World) (target_object : nat)
    (opacity_property scale_property : string) (on_update : option callback)
    (cb : nat) (start_scale end_scale duration : float) (easing : string) :
  (forall a q, on_complete_attr (anims w !!! a) = Some q ->
     (q < length (pops w))%nat) ->
  let r := PopOutAnimation.__init__ target_object opacity_property
             scale_property on_update (Some cb) start_scale end_scale
             duration easing w in
  fst r = Val (length (pops w))
  /\ popout_fresh (length (pops w)) cb (snd r).
Proof.
  intros Hwf. cbn zeta. split; [reflexivity|].
  unfold PopOutAnimation.__init__, new_pop. exec.
  set (P := {| pop_kind := PopOut; pop_target_object := target_object;
               pop_opacity_property := opacity_property;
               pop_scale_property := scale_property;
               pop_on_update := on_update; pop_on_complete := Some cb;
               pop_start_scale := start_scale; pop_end_scale := end_scale;
               pop_duration := duration; pop_easing := easing;
               fade_animation := None; scale_animation := None |}).
  assert (HP : (pops w ++ [P]) !!! length (pops w) = P).
  { apply lookup_total_of_lookup.
    rewrite lookup_app_r by lia. rewrite Nat.sub_diag. reflexivity. }
  split; exec; rewrite ?HP; try reflexivity.
  - rewrite length_app. cbn. lia.
  - intros a Ha. specialize (Hwf a _ Ha). lia.
Qed.

Lemma alter_two {A} (g g' h : A -> A) (l : list A) (x y : A) :
  alter h (length l)
    (alter g' (length (l ++ [x])) (alter g (length l) ((l ++ [x]) ++ [y])))
  = l ++ [h (g x); g' y].
Proof.
  induction l as [|z l IH].
  - reflexivity.
  - cbn [length app]. cbn [app length] in IH.
    change (alter h (S (length l)) (?a :: ?r))
      with (a :: alter h (length l) r).
    change (alter g (S (length l)) (z :: ?r))
      with (z :: alter g (length l) r).
    change (alter g' (S (length (l ++ [x]))) (z :: ?r))
      with (z :: alter g' (length (l ++ [x])) r).
    change (alter h (S (length l)) (z :: ?r))
      with (z :: alter h (length l) r).
    rewrite IH. reflexivity.
Qed.

Lemma create_animations_fresh (p cb : nat) (w : World) :
  popout_fresh p cb w ->
  exists w',
    PopOutAnimation.create_animations p w = (Val tt, w')
    /\ popout_built p cb (length (anims w)) (S (length (anims w))) w'
    /\ trace w' = trace w.
Proof.
  intros [Hvalid Hcb Hfade Hnone].
  destruct (lookup_lt_is_Some_2 _ _ Hvalid) as [P HP].
  rewrite (lookup_total_of_lookup _ _ _ HP) in Hcb, Hfade.
  unfold PopOutAnimation.create_animations, new. unfold_prims. exec.
  rewrite (lookup_total_of_lookup _ _ _ HP).
  rewrite alter_two.
  rewrite (alter_of_lookup _ _ _ _ HP).
  rewrite (alter_of_lookup _ (<[p:=_]> _) p _
             (list_lookup_insert_eq _ _ _ Hvalid)).
  rewrite list_insert_insert_eq. exec.
  replace (length (anims w ++ [__init__
             (FadeAnimation (pop_target_object P) (pop_opacity_property P)
                1 0 (pop_on_update P))]))
    with (S (length (anims w))) by (rewrite length_app; cbn; lia).
  eexists. split; [reflexivity|]. split; [|reflexivity].
  set (F1 := set_on_complete_attr _ _). set (S1 := set_duration _ _).
  assert (HF1 : (anims w ++ [F1; S1]) !! length (anims w) = Some F1).
  { rewrite lookup_app_r by lia. rewrite Nat.sub_diag. reflexivity. }
  assert (HS1 : (anims w ++ [F1; S1]) !! S (length (anims w)) = Some S1).
  { rewrite lookup_app_r by lia.
    replace (S (length (anims w)) - length (anims w))%nat with 1%nat by lia.
    reflexivity. }
  split; exec;
    rewrite ?(lookup_total_of_lookup _ _ _
                (list_lookup_insert_eq _ _ _ Hvalid)),
            ?(lookup_total_of_lookup _ _ _ HF1),
            ?(lookup_total_of_lookup _ _ _ HS1);
    try reflexivity.
  - exact Hcb.
  - lia.
  - rewrite length_app. cbn. lia.
  - rewrite length_app. cbn. lia.
  - subst F1. exec. eauto 6.
  - subst S1. cbn. lia.
  - intros a Ha. rewrite list_lookup_total_alt in Ha.
    destruct (decide (a < length (anims w))%nat) as [Hlt|Hge].
    + rewrite lookup_app_l in Ha by exact Hlt.
      exfalso. apply (Hnone a). rewrite list_lookup_total_alt. exact Ha.
    + rewrite lookup_app_r in Ha by lia.
      destruct (a - length (anims w))%nat as [|[|k]] eqn:Hk.
      * lia.
      * cbn in Ha. discriminate Ha.
      * cbn in Ha. discriminate Ha.
Qed.

Lemma popout_start_returns (p cb : nat) (w : World) :
  popout_fresh p cb w \/ (exists f sc, popout_inv p cb f sc w) ->
  exists w1 f sc,
    PopOutAnimation.start p w = (Val tt, w1)
    /\ popout_inv p cb f sc w1
    /\ animating (anims w1 !!! f) = true
    /\ current_step (anims w1 !!! f) = 0
    /\ completion_calls p cb w1 = completion_calls p cb w
    /\ (forall f' sc', popout_inv p cb f' sc' w -> f' = f /\ sc' = sc).
Proof.
  intros [Hfresh|(f & sc & Hb & _)]; rewrite popout_start_eq.
  - rewrite (pf_fade _ _ _ Hfresh).
    destruct (create_animations_fresh p cb w Hfresh) as (w' & -> & Hb & Ht).
    destruct (start_children_built p cb _ _ w' Hb)
      as (w1 & -> & Hinv & Hrun & Hstep & Hcalls).
    exists w1, (length (anims w)), (S (length (anims w))).
    split; [reflexivity|]. split; [exact Hinv|]. split; [exact Hrun|].
    split; [exact Hstep|]. split.
    + rewrite Hcalls. apply completion_calls_same_trace, Ht.
    + intros f' sc' [Hb' _]. pose proof (pb_fade _ _ _ _ _ Hb') as Hf'.
      rewrite (pf_fade _ _ _ Hfresh) in Hf'. discriminate Hf'.
  - rewrite (pb_fade _ _ _ _ _ Hb), (pb_scale _ _ _ _ _ Hb).
    unfold pass, ret.
    destruct (start_children_built p cb f sc w Hb)
      as (w1 & -> & Hinv & Hrun & Hstep & Hcalls).
    exists w1, f, sc. repeat (split; [assumption || reflexivity|]).
    intros f' sc' [Hb' _].
    pose proof (pb_fade _ _ _ _ _ Hb') as Hf'.
    pose proof (pb_scale _ _ _ _ _ Hb') as Hs'.
    rewrite (pb_fade _ _ _ _ _ Hb) in Hf'.
    rewrite (pb_scale _ _ _ _ _ Hb) in Hs'.
    split; congruence.
Qed.

(** Callbacks in turn.  Whenever [start()] is called on a
    [PopOutAnimation] that was given [on_complete=cb], be it for the first
    time or while an earlier cycle is still running, it returns, the fade
    restarts from step 0 and no callback is called yet.  Under every
    schedule of timer firings that follows, each callback running to its
    end before the next begins, [cb] has been called exactly once more as
    soon as 10 timers of the fade have fired, not before, and never a
    second time; until then the fade keeps a pending timer. *)
Theorem popout_completes_once (libm : Libm) (w : World) (p cb : nat)
    (ts : list nat) :
  popout_fresh p cb w \/ (exists f sc, popout_inv p cb f sc w) ->
  exists w1 f sc,
    PopOutAnimation.start p w = (Val tt, w1)
    /\ animating (anims w1 !!! f) = true
    /\ current_step (anims w1 !!! f) = 0
    /\ completion_calls p cb w1 = completion_calls p cb w
    /\ let w2 := fires libm ts w1 in
       completion_calls p cb w2
       = (completion_calls p cb w
          + if (10 <=? ticks_of libm f ts w1)%nat then 1 else 0)%nat
       /\ animating (anims w2 !!! f) = (ticks_of libm f ts w1 <? 10)%nat
       /\ popout_inv p cb f sc w2.
Proof.
  intros Hready.
  destruct (popout_start_returns p cb w Hready)
    as (w1 & f & sc & Hstart & Hinv & Hrun & Hstep & Hcalls & _).
  exists w1, f, sc. repeat (split; [assumption|]).
  destruct (fires_popout libm p cb f sc ts w1 Hinv) as (Hinv2 & Hc2 & Hr2).
  cbn zeta in *.
  unfold remaining in Hc2, Hr2. rewrite Hrun, Hstep in Hc2, Hr2.
  cbn [andb] in Hc2, Hr2.
  change (Z.to_nat (10 - 0)) with 10%nat in Hc2, Hr2.
  rewrite Hc2, Hr2, Hcalls. auto.
Qed.

Lemma popout_completes_once_witness :
  (exists w1 f sc,
     PopOutAnimation.start 0 popout_world = (Val tt, w1)
     /\ animating (anims w1 !!! f) = true
     /\ current_step (anims w1 !!! f) = 0
     /\ completion_calls 0 7 w1 = completion_calls 0 7 popout_world
     /\ let w2 := fires libm_id [0; 2; 3]%nat w1 in
        completion_calls 0 7 w2
        = (completion_calls 0 7 popout_world
           + if (10 <=? ticks_of libm_id f [0; 2; 3]%nat w1)%nat
             then 1 else 0)%nat
        /\ animating (anims w2 !!! f)
           = (ticks_of libm_id f [0; 2; 3]%nat w1 <? 10)%nat
        /\ popout_inv 0 7 f sc w2)
  /\ (exists w1 f sc,
        PopOutAnimation.start 0 popout_midcycle = (Val tt, w1)
        /\ animating (anims w1 !!! f) = true
        /\ current_step (anims w1 !!! f) = 0
        /\ completion_calls 0 7 w1 = completion_calls 0 7 popout_midcycle
        /\ let w2 := fires libm_id (seq 0 40) w1 in
           completion_calls 0 7 w2
           = (completion_calls 0 7 popout_midcycle
              + if (10 <=? ticks_of libm_id f (seq 0 40) w1)%nat
                then 1 else 0)%nat
           /\ animating (anims w2 !!! f)
              = (ticks_of libm_id f (seq 0 40) w1 <? 10)%nat
           /\ popout_inv 0 7 f sc w2).
Proof.
  assert (Hfresh : popout_fresh 0 7 popout_world).
  { split; try reflexivity.
    - cbn. lia.
    - intros a. destruct a; discriminate. }
  pose proof (popout_completes_once libm_id popout_world 0 7 [0; 2; 3]%nat
                (or_introl Hfresh)) as H1.
  split; [exact H1|].
  destruct H1 as (w1 & f & sc & Hstart & _ & _ & _ & _ & _ & Hinv).
  apply popout_completes_once. right. exists f, sc.
  unfold popout_midcycle. rewrite Hstart. exact Hinv.
Defined.

(** The run of the witness, evaluated: no call during the cycle that was
    cut short, one call once the restarted cycle has completed. *)
Example popout_restart_run :
  completion_calls 0 7 popout_midcycle = 0%nat
  /\ current_step (anims popout_midcycle !!! 0%nat) = 3
  /\ (let w1 := snd (PopOutAnimation.start 0 popout_midcycle) in
      length (pending_timers 0 w1) = 2%nat
      /\ completion_calls 0 7 (fires libm_id (seq 0 40) w1) = 1%nat
      /\ animating (anims (fires libm_id (seq 0 40) w1) !!! 0%nat) = false).
Proof. vm_compute. repeat split; reflexivity. Qed.

(** * Further properties of the engine *)

(** ** Starting an animation without steps *)

(** X1: [start()] on an animation whose [max_steps] is 0 raises
    ZeroDivisionError out of [schedule_next_frame]; the animation is left
    flagged as animating at step 0, and no timer was created. *)
Theorem start_without_steps_raises (w : World) (a : nat) (s : AnimationState) :
  anims w !! a = Some s -> max_steps s = 0 ->
  start a w =
    (Exc ZeroDivisionError,
     with_anims
       (<[a := set_current_step 0 (set_animating true s)]> (anims w)) w).
Proof.
  intros Ha Hm.
  assert (Hlt : (a < length (anims w))%nat) by (eapply lookup_lt_Some, Ha).
  unfold start, schedule_next_frame. unfold_prims. exec.
  rewrite (alter_of_lookup _ _ _ _ Ha).
  rewrite (alter_of_lookup _ (<[a:=_]> _) a (set_animating true s))
    by (apply list_lookup_insert_eq, Hlt).
  rewrite list_insert_insert_eq.
  rewrite (lookup_total_of_lookup _ a
             (set_current_step 0 (set_animating true s)))
    by (apply list_lookup_insert_eq, Hlt).
  exec. rewrite Hm. reflexivity.
Qed.

Lemma start_without_steps_raises_witness :
  let w := snd (new (BlinkAnimation 0 "visible" 0 None) empty_world) in
  start 0 w =
    (Exc ZeroDivisionError,
     with_anims
       (<[0%nat := set_current_step 0
                     (set_animating true
                        (__init__ (BlinkAnimation 0 "visible" 0 None)))]>
          (anims w)) w).
Proof.
  apply (start_without_steps_raises
           (snd (new (BlinkAnimation 0 "visible" 0 None) empty_world)) 0
           (__init__ (BlinkAnimation 0 "visible" 0 None)));
    reflexivity.
Defined.

(** ** Attributes are written in place *)

Lemma in_place_refl (w : World) : in_place w w.
Proof. intros key. reflexivity. Qed.

Lemma in_place_trans (w1 w2 w3 : World) :
  in_place w1 w2 -> in_place w2 w3 -> in_place w1 w3.
Proof. intros H12 H23 key. rewrite (H23 key). apply H12. Qed.

Lemma in_place_same_attrs (w w' : World) : attrs w' = attrs w -> in_place w w'.
Proof. intros E key. rewrite E. reflexivity. Qed.

Lemma in_place_setattr_if_present (o : nat) (name : string) (v : value) :
  steps in_place (setattr_if_present o name v).
Proof.
  intros w key. unfold setattr_if_present, hasattr, setattr, pass, ret, bind.
  destruct (bool_decide_reflect (is_Some (attrs w !! (o, name)))) as [Hs|Hn];
    exec; [|reflexivity].
  destruct (decide (key = (o, name))) as [->|Hne].
  - rewrite lookup_insert_eq. split; [intros _; exact Hs|eauto].
  - rewrite lookup_insert_ne by congruence. reflexivity.
Qed.

(** Composing the steps of a relation along the statements of a method:
    [base] settles the calls, [trans] is the transitivity of the
    relation. *)
Ltac rel_steps trans base :=
  repeat first
    [ base
    | apply steps_bind; [exact trans| |intros ?]
    | match goal with
      | |- steps _ (if ?b then _ else _) => destruct b
      | |- steps _ (match ?x with _ => _ end) => destruct x
      end ].

Ltac in_place_base :=
  first
    [ apply in_place_setattr_if_present
    | solve [intros ?; apply in_place_same_attrs; reflexivity] ].

Lemma in_place_call_on_update (cb : option callback) (v : value) :
  steps in_place (call_on_update cb v).
Proof. destruct cb as [[id|]|]; in_place_base. Qed.

Lemma in_place_refresh_ui : steps in_place _refresh_ui.
Proof. in_place_base. Qed.

Lemma in_place_on_frame (libm : Libm) (a : nat) :
  steps in_place (on_frame libm a).
Proof.
  unfold on_frame, interpolate_frame.
  apply steps_bind; [exact in_place_trans|in_place_base|intros s].
  destruct (kind s);
    rel_steps in_place_trans
      ltac:(first [ apply in_place_call_on_update | apply in_place_refresh_ui
                  | in_place_base ]).
Qed.

Lemma in_place_schedule_next_frame (a : nat) :
  steps in_place (schedule_next_frame a).
Proof. unfold schedule_next_frame. rel_steps in_place_trans in_place_base. Qed.

Lemma in_place_start (a : nat) : steps in_place (start a).
Proof.
  unfold start.
  rel_steps in_place_trans
    ltac:(first [apply in_place_schedule_next_frame | in_place_base]).
Qed.

Lemma in_place_stop (a : nat) : steps in_place (stop a).
Proof. unfold stop. rel_steps in_place_trans in_place_base. Qed.

Lemma in_place_on_complete (a : nat) : steps in_place (on_complete a).
Proof.
  unfold on_complete, completion_wrapper.
  rel_steps in_place_trans
    ltac:(first [apply in_place_refresh_ui | in_place_base]).
Qed.

Lemma in_place_advance (libm : Libm) (a : nat) :
  steps in_place (_advance libm a).
Proof.
  unfold _advance.
  rel_steps in_place_trans
    ltac:(first [ apply in_place_on_frame | apply in_place_on_complete
                | apply in_place_schedule_next_frame | in_place_base ]).
Qed.

Lemma in_place_fire (libm : Libm) (t : nat) (w : World) :
  in_place w (fire libm t w).
Proof.
  unfold fire. destruct (timers w !! t) as [tm|]; [|apply in_place_refl].
  destruct (t_state tm); try apply in_place_refl.
  eapply in_place_trans; [|apply in_place_advance].
  apply in_place_same_attrs. reflexivity.
Qed.

Lemma in_place_fires (libm : Libm) (ts : list nat) :
  forall w, in_place w (fires libm ts w).
Proof.
  unfold fires. induction ts as [|t ts IH]; intros w; [apply in_place_refl|].
  cbn [foldl]. eapply in_place_trans; [apply in_place_fire|apply IH].
Qed.

Ltac in_place_calls :=
  first [ apply in_place_start | apply in_place_stop
        | apply in_place_setattr_if_present | in_place_base ].

Lemma in_place_popin_start (p : nat) : steps in_place (PopInAnimation.start p).
Proof.
  unfold PopInAnimation.start, PopInAnimation.create_animations, new.
  rel_steps in_place_trans in_place_calls.
Qed.

Lemma in_place_popin_stop (p : nat) : steps in_place (PopInAnimation.stop p).
Proof.
  unfold PopInAnimation.stop. rel_steps in_place_trans in_place_calls.
Qed.

Lemma in_place_popout_start (p : nat) :
  steps in_place (PopOutAnimation.start p).
Proof.
  unfold PopOutAnimation.start, PopOutAnimation.create_animations, new.
  rel_steps in_place_trans in_place_calls.
Qed.

Lemma in_place_popout_stop (p : nat) : steps in_place (PopOutAnimation.stop p).
Proof.
  unfold PopOutAnimation.stop. rel_steps in_place_trans in_place_calls.
Qed.

Lemma in_place_pop_run (libm : Libm) (start stop : nat -> M unit) (p : nat)
    (ops : list pop_op) :
  (forall p, steps in_place (start p)) -> (forall p, steps in_place (stop p)) ->
  forall w, in_place w (pop_run libm start stop p ops w).
Proof.
  intros Hstart Hstop. unfold pop_run.
  induction ops as [|op ops IH]; intros w; [apply in_place_refl|].
  cbn [foldl]. eapply in_place_trans; [|apply IH].
  destruct op; cbn [pop_step];
    [apply Hstart|apply Hstop|apply in_place_fire].
Qed.

(** X2: the engine writes attributes in place.  Whatever a caller does
    with a pop-in or a pop-out ([start()], [stop()]) and whichever timers
    fire in between, every object keeps exactly the attributes it had: a
    write is always guarded by [hasattr], so a target that lacks the
    animated property is never given it. *)
Theorem engine_never_creates_attributes (libm : Libm) (p : nat)
    (ops : list pop_op) (w : World) (o : nat) (name : string) :
  let w1 := pop_run libm PopInAnimation.start PopInAnimation.stop p ops w in
  let w2 := pop_run libm PopOutAnimation.start PopOutAnimation.stop p ops w in
  (is_Some (attrs w1 !! (o, name)) <-> is_Some (attrs w !! (o, name)))
  /\ (is_Some (attrs w2 !! (o, name)) <-> is_Some (attrs w !! (o, name))).
Proof.
  split.
  - apply (in_place_pop_run libm PopInAnimation.start PopInAnimation.stop p ops
             in_place_popin_start in_place_popin_stop w (o, name)).
  - apply (in_place_pop_run libm PopOutAnimation.start PopOutAnimation.stop p
             ops in_place_popout_start in_place_popout_stop w (o, name)).
Qed.

(** ** Timers only wind animations down *)

Lemma winding_down_refl (w : World) : winding_down w w.
Proof. split; intros; [reflexivity|assumption|lia]. Qed.

Lemma winding_down_trans (w1 w2 w3 : World) :
  winding_down w1 w2 -> winding_down w2 w3 -> winding_down w1 w3.
Proof.
  intros [L1 C1 S1] [L2 C2 S2]. split.
  - congruence.
  - intros a H. apply C1, C2, H.
  - intros a. specialize (S1 a). specialize (S2 a). lia.
Qed.

Lemma winding_down_same_anims (w w' : World) :
  anims w' = anims w -> winding_down w w'.
Proof. intros E. split; rewrite E; intros; [reflexivity|assumption|lia]. Qed.


Lemma winding_down_alter (g : AnimationState -> AnimationState) (a : nat)
    (w : World) :
  settling (anims w !!! a) (g (anims w !!! a)) ->
  winding_down w (snd (update_anim a g w)).
Proof.
  intros [Hc Hs]. unfold update_anim. split; exec.
  - apply length_alter.
  - intros b. rewrite list_lookup_total_alter.
    case_decide as Hd; [destruct Hd as [<- _]; exact Hc|trivial].
  - intros b. rewrite list_lookup_total_alter.
    case_decide as Hd; [destruct Hd as [<- _]; exact Hs|lia].
Qed.

Lemma winding_down_update_anim (g : AnimationState -> AnimationState)
    (a : nat) :
  (forall s, settling s (g s)) -> steps winding_down (update_anim a g).
Proof. intros Hg w. apply winding_down_alter, Hg. Qed.

Lemma settling_set_animating_false s : settling s (set_animating false s).
Proof. split; [discriminate|cbn; lia]. Qed.

Lemma settling_set_timer t s : settling s (set_timer t s).
Proof. split; [trivial|cbn; lia]. Qed.

Lemma winding_down_setattr_if_present (o : nat) (name : string) (v : value) :
  steps winding_down (setattr_if_present o name v).
Proof.
  intros w. unfold setattr_if_present, hasattr, setattr, pass, ret, bind.
  destruct (bool_decide _); apply winding_down_same_anims; reflexivity.
Qed.

Ltac winding_down_base :=
  first
    [ apply winding_down_setattr_if_present
    | apply winding_down_update_anim; intros ?;
        first [apply settling_set_animating_false | apply settling_set_timer]
    | solve [intros ?; apply winding_down_same_anims; reflexivity] ].





Lemma winding_down_stop (a : nat) : steps winding_down (stop a).
Proof. unfold stop. rel_steps winding_down_trans winding_down_base. Qed.



Lemma filter_insert_length {A} (P : A -> bool) (l : list A) (t : nat)
    (x y : A) :
  l !! t = Some x ->
  (length (List.filter P (<[t := y]> l)) + (if P x then 1 else 0)
   = length (List.filter P l) + (if P y then 1 else 0))%nat.
Proof.
  revert t. induction l as [|z l IH]; intros [|t] Ht; try discriminate Ht.
  - injection Ht as ->. cbn [List.filter insert list_insert].
    destruct (P x), (P y); cbn [length]; lia.
  - cbn in Ht. specialize (IH t Ht).
    change (<[S t := y]> (z :: l)) with (z :: <[t := y]> l).
    cbn [List.filter]. destruct (P z); cbn [length]; lia.
Qed.

Lemma keeps_refl {X} (f : World -> X) (w : World) : keeps f w w.
Proof. reflexivity. Qed.

Lemma keeps_trans {X} (f : World -> X) (w1 w2 w3 : World) :
  keeps f w1 w2 -> keeps f w2 w3 -> keeps f w1 w3.
Proof. unfold keeps. congruence. Qed.

Ltac keeps_base := solve [intros ?; reflexivity].

Lemma keeps_timers_setattr_if_present (o : nat) (name : string) (v : value) :
  steps (keeps timers) (setattr_if_present o name v).
Proof.
  intros w. unfold setattr_if_present, hasattr, setattr, pass, ret, bind.
  destruct (bool_decide _); reflexivity.
Qed.

Lemma keeps_timers_call_on_update (cb : option callback) (v : value) :
  steps (keeps timers) (call_on_update cb v).
Proof. destruct cb as [[id|]|]; keeps_base. Qed.

Lemma keeps_timers_on_frame (libm : Libm) (a : nat) :
  steps (keeps timers) (on_frame libm a).
Proof.
  unfold on_frame, interpolate_frame, _refresh_ui.
  apply steps_bind; [exact (keeps_trans timers)|keeps_base|intros s].
  destruct (kind s);
    rel_steps (keeps_trans timers)
      ltac:(first [ apply keeps_timers_setattr_if_present
                  | apply keeps_timers_call_on_update | keeps_base ]).
Qed.

Lemma keeps_timers_on_complete (a : nat) :
  steps (keeps timers) (on_complete a).
Proof.
  unfold on_complete, completion_wrapper, _refresh_ui.
  rel_steps (keeps_trans timers)
    ltac:(first [apply keeps_timers_setattr_if_present | keeps_base]).
Qed.

(** One call of [schedule_next_frame] creates at most one timer, for the
    animation itself. *)
Lemma schedule_adds_at_most_one (a : nat) (w : World) :
  timers (snd (schedule_next_frame a w)) = timers w
  \/ exists tm, timers (snd (schedule_next_frame a w)) = timers w ++ [tm]
                /\ t_owner tm = a.
Proof.
  unfold schedule_next_frame. unfold_prims. exec.
  destruct (animating (anims w !!! a)); cbn [negb]; [|left; reflexivity].
  destruct (float_div_int _ _); [|left; reflexivity].
  right. eexists. split; reflexivity.
Qed.


Lemma not_pending_once_fired (b : nat) (tm : Timer) :
  is_pending_of b (set_t_state Fired tm) = false.
Proof. unfold is_pending_of. exec. apply andb_false_r. Qed.





(** ** The life of a started animation *)

Lemma surface_call_bind (m k : M unit) :
  surface_call m -> surface_call k -> surface_call (m ;;; k).
Proof.
  intros Hm Hk w. destruct (Hm w) as (w1 & E1 & S1).
  destruct (Hk w1) as (w2 & E2 & S2).
  exists w2. split; [|eapply surface_trans; eassumption].
  unfold bind. rewrite E1. exact E2.
Qed.

Lemma surface_call_setattr_if_present o name v :
  surface_call (setattr_if_present o name v).
Proof. intros w. apply setattr_if_present_returns. Qed.

Lemma surface_call_on_update cb v : surface_call (call_on_update cb v).
Proof. intros w. apply call_on_update_returns. Qed.

Lemma surface_call_refresh_ui : surface_call _refresh_ui.
Proof.
  intros w. eexists. split; [reflexivity|]. apply surface_emit. exact I.
Qed.

Ltac surface_calls :=
  repeat first
    [ apply surface_call_setattr_if_present | apply surface_call_on_update
    | apply surface_call_refresh_ui | apply surface_call_bind ].

Lemma interpolate_frame_returns (libm : Libm) (s : AnimationState)
    (easing : string) (o : nat) (name : string) (lo hi : float)
    (upd : option callback) (p : float) :
  get_eased_progress libm s easing = Val p ->
  surface_call (interpolate_frame libm s easing o name lo hi upd).
Proof.
  intros Hp w. unfold interpolate_frame. unfold bind at 1. unfold eval at 1.
  rewrite Hp. revert w. surface_calls.
Qed.

Lemma ease_out_elastic_returns (libm : Libm) (lp : float) :
  libm_total libm -> exists p, ease libm "ease_out_elastic" lp = Val p.
Proof.
  intros [Hsin Hpow].
  change (ease libm "ease_out_elastic" lp) with (ease_out_elastic libm lp).
  unfold ease_out_elastic. destruct (_ || _); [eauto|].
  match goal with
  | |- context [pow libm ?x ?y] => destruct (Hpow x y) as [z ->]
  end.
  match goal with
  | |- context [sin libm ?x] => destruct (Hsin x) as [y ->]
  end.
  eauto.
Qed.

(** The frame of every class returns once the step counter is not
    negative; the scale animation needs its [math] calls to return. *)
Lemma on_frame_returns (libm : Libm) (w : World) (a : nat)
    (s : AnimationState) :
  anims w !! a = Some s -> 0 <= current_step s ->
  (needs_libm (kind s) = true -> libm_total libm) ->
  exists w', on_frame libm a w = (Val tt, w') /\ surface w w'.
Proof.
  intros Ha Hstep Hlib.
  destruct (get_progress_value s Hstep) as [lp Hlp].
  unfold on_frame. unfold bind at 1. unfold get_anim at 1.
  rewrite (lookup_total_of_lookup _ _ _ Ha).
  destruct (kind s) eqn:Hk.
  - exists w. split; [reflexivity|apply surface_refl].
  - eapply interpolate_frame_returns.
    unfold get_eased_progress. rewrite Hlp. reflexivity.
  - eapply interpolate_frame_returns.
    unfold get_eased_progress. rewrite Hlp. reflexivity.
  - destruct (ease_out_elastic_returns libm lp (Hlib eq_refl)) as [p Hp].
    eapply interpolate_frame_returns.
    unfold get_eased_progress. rewrite Hlp. exact Hp.
  - revert w Ha. intros w _. revert w. surface_calls.
  - unfold bind at 1. unfold eval at 1. rewrite Hlp.
    revert w Ha. intros w _. revert w. surface_calls.
  - unfold bind at 1. unfold eval at 1. unfold get_eased_progress.
    rewrite Hlp. change (ease libm "elastic_out" lp) with (Val lp).
    cbv beta iota.
    revert w Ha. intros w _. revert w. surface_calls.
Qed.

Lemma new_timer_is_pending (a : nat) (d : float) :
  is_pending_of a {| t_owner := a; t_interval := d; t_state := Pending |}
  = true.
Proof. unfold is_pending_of. exec. rewrite Nat.eqb_refl. reflexivity. Qed.

Lemma start_mid_run (w : World) (a : nat) (s : AnimationState) :
  anims w !! a = Some s -> max_steps s <> 0 ->
  mid_run a s w 0 (snd (start a w)).
Proof.
  intros Ha Hm.
  assert (Hlt : (a < length (anims w))%nat) by (eapply lookup_lt_Some, Ha).
  pose proof (in_place_start a w) as Hin.
  rewrite (start_running w a s Ha Hm) in *. cbn [snd] in *.
  split; exec; rewrite ?Nat.add_0_r.
  - apply list_lookup_insert_eq, Hlt.
  - rewrite length_app. cbn [length]. lia.
  - eexists. split; [apply list_lookup_middle; reflexivity|].
    split; reflexivity.
  - rewrite pending_timers_with_anims, pending_timers_app, length_app.
    cbn [List.filter]. rewrite new_timer_is_pending. cbn [length]. lia.
  - exact Hin.
Qed.

(** A tick that does not reach [max_steps]: the frame is written and the
    next timer takes the place of the one that fired. *)
Lemma tick_mid_run (libm : Libm) (a : nat) (s : AnimationState) (w0 : World)
    (k : nat) (w : World) :
  (needs_libm (kind s) = true -> libm_total libm) ->
  mid_run a s w0 k w -> Z.of_nat (S k) < max_steps s ->
  mid_run a s w0 (S k) (tick libm a w).
Proof.
  intros Hlib [Hs Hl (tm & Ht & Ho & Hp) Hpc Hat] Hk.
  set (t := (length (timers w0) + k)%nat) in *.
  set (s1 := set_timer (Some t)
               (set_current_step (Z.of_nat k) (set_animating true s))) in *.
  assert (Hlt : (a < length (anims w))%nat) by (eapply lookup_lt_Some, Hs).
  pose proof (in_place_fire libm t w) as Hin.
  unfold tick. rewrite (lookup_total_of_lookup _ _ _ Hs).
  change (timer s1) with (Some t). cbv iota.
  rewrite (fire_eq libm w t tm Ht Hp) in *. rewrite Ho in *.
  set (wf := with_timers (<[t := set_t_state Fired tm]> (timers w)) w) in *.
  assert (Hsf : anims wf !! a = Some s1) by exact Hs.
  rewrite (advance_running libm wf a s1 Hsf eq_refl) in *. cbn zeta in *.
  change (max_steps s1) with (max_steps s) in *.
  change (current_step s1) with (Z.of_nat k) in *.
  destruct (Z.leb_spec (max_steps s) (Z.of_nat k + 1)); [lia|].
  set (s2 := set_current_step (Z.of_nat k + 1) s1) in *.
  set (w1 := with_anims (<[a := s2]> (anims wf)) wf) in *.
  assert (Hs1 : anims w1 !! a = Some s2)
    by (apply list_lookup_insert_eq; exact Hlt).
  destruct (on_frame_returns libm w1 a s2 Hs1) as (w2 & E2 & S2).
  { change (current_step s2) with (Z.of_nat k + 1). lia. }
  { exact Hlib. }
  unfold bind in *. rewrite E2 in *.
  destruct S2 as [SA _ ST _ _].
  assert (Hs2 : anims w2 !! a = Some s2) by (rewrite SA; exact Hs1).
  rewrite (schedule_running w2 a s2 Hs2 eq_refl) in *
    by (change (max_steps s2) with (max_steps s); lia).
  cbn [snd] in *.
  assert (Hlen : length (timers w2) = S t).
  { rewrite ST. unfold w1, wf. exec. rewrite length_insert. exact Hl. }
  assert (Hnext : (length (timers w0) + S k)%nat = S t) by (unfold t; lia).
  split; exec; rewrite ?Hnext.
  - rewrite Hlen. rewrite SA. unfold w1. exec.
    rewrite list_insert_insert_eq.
    rewrite list_lookup_insert_eq by (unfold wf; exec; exact Hlt).
    f_equal. unfold s2, s1. cbn.
    rewrite Nat2Z.inj_succ. reflexivity.
  - rewrite length_app, Hlen. cbn [length]. lia.
  - eexists. split; [rewrite <- Hlen; apply list_lookup_middle; reflexivity|].
    split; reflexivity.
  - unfold pending_timers. exec.
    rewrite List.filter_app, length_app, ST. unfold w1, wf. exec.
    pose proof (filter_insert_length (is_pending_of a) (timers w) t tm
                  (set_t_state Fired tm) Ht) as Hc.
    rewrite not_pending_once_fired in Hc.
    assert (Hpa : is_pending_of a tm = true)
      by (unfold is_pending_of; rewrite Ho, Hp, Nat.eqb_refl; reflexivity).
    rewrite Hpa in Hc. unfold pending_timers in Hpc.
    cbn [List.filter]. rewrite new_timer_is_pending. cbn [length]. lia.
  - eapply in_place_trans; [exact Hat|exact Hin].
Qed.

(** The [on_complete] of the navigation animation returns; it resets the
    two attributes it drives and leaves [animating] alone. *)
Lemma navigation_on_complete (w : World) (a : nat) (s : AnimationState)
    (o : nat) :
  anims w !! a = Some s -> on_complete_attr s = None ->
  kind s = NavigationAnimation o ->
  exists w',
    on_complete a w = (Val tt, w') /\ surface w w'
    /\ (is_Some (attrs w !! (o, "scale")) ->
        attrs w' !! (o, "scale") = Some (VFloat 1))
    /\ (is_Some (attrs w !! (o, "highlight_intensity")) ->
        attrs w' !! (o, "highlight_intensity") = Some (VFloat 0.7)).
Proof.
  intros Ha Hattr Hk.
  unfold on_complete. unfold bind at 1. unfold get_anim at 1.
  rewrite (lookup_total_of_lookup _ _ _ Ha), Hattr, Hk.
  assert (Hcall : surface_call
            (setattr_if_present o "highlight_intensity" (VFloat 0.7) ;;;
             setattr_if_present o "scale" (VFloat 1) ;;; _refresh_ui))
    by surface_calls.
  destruct (Hcall w) as (w' & E & S).
  exists w'. split; [exact E|]. split; [exact S|].
  assert (Ew : w' = snd ((setattr_if_present o "highlight_intensity"
                            (VFloat 0.7) ;;;
                          setattr_if_present o "scale" (VFloat 1) ;;;
                          _refresh_ui) w))
    by (rewrite E; reflexivity).
  clear E S Hcall. subst w'.
  unfold setattr_if_present, hasattr, setattr, _refresh_ui, emit, pass, ret,
    bind.
  destruct (bool_decide_reflect
              (is_Some (attrs w !! (o, "highlight_intensity")))) as [H1|H1];
    exec.
  - rewrite lookup_insert_ne by discriminate.
    destruct (bool_decide_reflect (is_Some (attrs w !! (o, "scale"))))
      as [H2|H2]; exec.
    + split; intros _; [apply lookup_insert_eq|].
      rewrite lookup_insert_ne by discriminate. apply lookup_insert_eq.
    + split; [intros H; contradiction|intros _; apply lookup_insert_eq].
  - destruct (bool_decide_reflect (is_Some (attrs w !! (o, "scale"))))
      as [H2|H2]; exec.
    + split; [intros _; apply lookup_insert_eq|intros H; contradiction].
    + split; intros H; contradiction.
Qed.

(** The tick on which the step counter reaches [max_steps]. *)
Lemma tick_end_run (libm : Libm) (a : nat) (s : AnimationState) (w0 : World)
    (k : nat) (w : World) :
  on_complete_attr s = None ->
  mid_run a s w0 k w -> Z.of_nat (S k) = max_steps s ->
  end_run a s w0 (tick libm a w).
Proof.
  intros Hattr [Hs Hl (tm & Ht & Ho & Hp) Hpc Hat] Hk.
  set (t := (length (timers w0) + k)%nat) in *.
  set (s1 := set_timer (Some t)
               (set_current_step (Z.of_nat k) (set_animating true s))) in *.
  assert (Hlt : (a < length (anims w))%nat) by (eapply lookup_lt_Some, Hs).
  assert (Htl : (t < length (timers w))%nat) by (eapply lookup_lt_Some, Ht).
  unfold tick. rewrite (lookup_total_of_lookup _ _ _ Hs).
  change (timer s1) with (Some t). cbv iota.
  rewrite (fire_eq libm w t tm Ht Hp). rewrite Ho.
  set (wf := with_timers (<[t := set_t_state Fired tm]> (timers w)) w).
  assert (Hsf : anims wf !! a = Some s1) by exact Hs.
  rewrite (advance_running libm wf a s1 Hsf eq_refl). cbn zeta.
  change (max_steps s1) with (max_steps s).
  change (current_step s1) with (Z.of_nat k).
  destruct (Z.leb_spec (max_steps s) (Z.of_nat k + 1)); [|lia].
  replace (Z.of_nat k + 1) with (max_steps s) by lia.
  set (s2 := set_current_step (max_steps s) s1).
  set (w1 := with_anims (<[a := s2]> (anims wf)) wf).
  assert (Hs1 : anims w1 !! a = Some s2)
    by (apply list_lookup_insert_eq; exact Hlt).
  assert (Hcount : length (pending_timers a wf)
                   = length (pending_timers a w0)).
  { pose proof (filter_insert_length (is_pending_of a) (timers w) t tm
                  (set_t_state Fired tm) Ht) as Hc.
    rewrite not_pending_once_fired in Hc.
    assert (Hpa : is_pending_of a tm = true)
      by (unfold is_pending_of; rewrite Ho, Hp, Nat.eqb_refl; reflexivity).
    rewrite Hpa in Hc. unfold pending_timers in *. unfold wf. exec. lia. }
  assert (Hfired : forall tm', timers wf !! t = Some tm' ->
                     t_state tm' <> Pending).
  { unfold wf. exec. rewrite list_lookup_insert_eq by exact Htl.
    intros tm' [= <-]. discriminate. }
  assert (Hlen : length (timers wf)
                 = (length (timers w0) + Z.to_nat (max_steps s))%nat).
  { unfold wf. exec. rewrite length_insert, Hl. unfold t. lia. }
  destruct (never_clears (kind s)) eqn:Hnc.
  - destruct (kind s) eqn:Hkind; try discriminate Hnc.
    destruct (navigation_on_complete w1 a s2 target Hs1 Hattr Hkind)
      as (w2 & E2 & [SA _ ST _ _] & Hscale & Hhigh).
    rewrite E2. cbn [snd]. split.
    + exists t. rewrite SA, ST. split; [|exact Hfired].
      rewrite Hs1, Hkind. reflexivity.
    + rewrite ST. exact Hlen.
    + unfold pending_timers. rewrite ST. exact Hcount.
    + intros o Ho'. rewrite Hkind in Ho'. injection Ho' as <-.
      split; intros Hhas.
      * apply Hscale. unfold w1, wf. exec. apply Hat, Hhas.
      * apply Hhigh. unfold w1, wf. exec. apply Hat, Hhas.
  - assert (Hdone : on_complete a w1
                    = (Val tt,
                       with_anims (<[a := set_animating false s2]> (anims w1))
                         w1)).
    { unfold on_complete. unfold_prims. exec.
      rewrite (lookup_total_of_lookup _ _ _ Hs1).
      change (on_complete_attr s2) with (on_complete_attr s).
      change (kind s2) with (kind s). rewrite Hattr.
      destruct (kind s); try discriminate Hnc;
        rewrite (alter_of_lookup _ _ _ _ Hs1); reflexivity. }
    rewrite Hdone. cbn [snd]. split; exec.
    + exists t. split; [|exact Hfired].
      rewrite list_lookup_insert_eq by (eapply lookup_lt_Some, Hs1).
      rewrite Hnc. reflexivity.
    + exact Hlen.
    + exact Hcount.
    + intros o Ho'. rewrite Ho' in Hnc. discriminate Hnc.
Qed.

(** Once the run has ended, the timer the animation still holds has
    fired, and a tick does nothing. *)
Lemma tick_after_end (libm : Libm) (a : nat) (s : AnimationState)
    (w0 w : World) :
  end_run a s w0 w -> tick libm a w = w.
Proof.
  intros [(t & Hs & Hfired) _ _ _]. unfold tick.
  rewrite (lookup_total_of_lookup _ _ _ Hs). exec.
  apply fire_not_pending, Hfired.
Qed.

(** The two phases of a run. *)
Lemma run_ticks_cases (libm : Libm) (a : nat) (s : AnimationState) (w : World)
    (k : nat) :
  anims w !! a = Some s -> 0 < max_steps s -> on_complete_attr s = None ->
  (needs_libm (kind s) = true -> libm_total libm) ->
  let w' := run_ticks libm a k (snd (start a w)) in
  (Z.of_nat k < max_steps s /\ mid_run a s w k w')
  \/ (max_steps s <= Z.of_nat k /\ end_run a s w w').
Proof.
  intros Ha Hm Hattr Hlib. cbn zeta.
  induction k as [|k IH].
  - left. split; [lia|]. apply start_mid_run; [exact Ha|lia].
  - change (run_ticks libm a (S k) (snd (start a w)))
      with (tick libm a (run_ticks libm a k (snd (start a w)))).
    destruct IH as [[Hk Hmid]|[Hk Hend]].
    + destruct (Z.lt_ge_cases (Z.of_nat (S k)) (max_steps s)) as [Hlt|Hge].
      * left. split; [exact Hlt|]. apply tick_mid_run; assumption.
      * right. split; [exact Hge|].
        apply (tick_end_run libm a s w k); [assumption..|lia].
    + right. split; [lia|].
      rewrite (tick_after_end libm a s w _ Hend). exact Hend.
Qed.

Lemma libm_id_total : libm_total libm_id.
Proof. split; intros; eexists; reflexivity. Qed.

(** X4: a started animation runs for exactly [max_steps] ticks.  For every
    class but the navigation animation, with the inherited [on_complete]
    and [max_steps] positive and below [float_int_limit] (from there on
    [start()] raises OverflowError): after [k] ticks of the timer it holds the
    animation is animating exactly when [k < max_steps], its step counter
    is [min k max_steps], it has created [min (k + 1) max_steps] timers in
    all, and it has one pending timer more than before [start()] while it
    runs and none more once it has completed.  Further ticks change
    nothing.  The scale animation needs [math.pow] and [math.sin] to
    return. *)
Theorem animation_completes_after_max_steps (libm : Libm) (w : World)
    (a : nat) (s : AnimationState) (k : nat) :
  anims w !! a = Some s -> 0 < max_steps s < float_int_limit ->
  on_complete_attr s = None ->
  (forall o, kind s <> NavigationAnimation o) ->
  (needs_libm (kind s) = true -> libm_total libm) ->
  let w' := run_ticks libm a k (snd (start a w)) in
  animating (anims w' !!! a) = (Z.of_nat k <? max_steps s)
  /\ current_step (anims w' !!! a) = Z.min (Z.of_nat k) (max_steps s)
  /\ length (timers w')
     = (length (timers w)
        + Z.to_nat (Z.min (Z.of_nat k + 1) (max_steps s)))%nat
  /\ length (pending_timers a w')
     = (length (pending_timers a w)
        + if (Z.of_nat k <? max_steps s)%Z then 1 else 0)%nat.
Proof.
  intros Ha [Hm _] Hattr Hkind Hlib. cbn zeta.
  assert (Hnc : never_clears (kind s) = false).
  { destruct (kind s); try reflexivity. exfalso. eapply Hkind. reflexivity. }
  destruct (run_ticks_cases libm a s w k Ha Hm Hattr Hlib)
    as [[Hk [Hs Hl _ Hp _]]|[Hk [(t & Hs & _) Hl Hp _]]].
  - rewrite (lookup_total_of_lookup _ _ _ Hs). exec.
    destruct (Z.ltb_spec (Z.of_nat k) (max_steps s)); [|lia].
    rewrite Hl, Hp. repeat split; lia.
  - rewrite (lookup_total_of_lookup _ _ _ Hs), Hnc. exec.
    destruct (Z.ltb_spec (Z.of_nat k) (max_steps s)); [lia|].
    rewrite Hl, Hp. repeat split; lia.
Qed.

Lemma animation_completes_after_max_steps_witness :
  let w := snd (new (ScaleAnimation 0 "scale" 1 1.5 None)
                  (one_target "scale" (VFloat 1))) in
  let w' := run_ticks libm_id 0 12 (snd (start 0 w)) in
  animating (anims w' !!! 0%nat) = (Z.of_nat 12 <? 10)
  /\ current_step (anims w' !!! 0%nat) = Z.min (Z.of_nat 12) 10
  /\ length (timers w')
     = (length (timers w) + Z.to_nat (Z.min (Z.of_nat 12 + 1) 10))%nat
  /\ length (pending_timers 0 w')
     = (length (pending_timers 0 w)
        + if (Z.of_nat 12 <? 10)%Z then 1 else 0)%nat.
Proof.
  apply (animation_completes_after_max_steps libm_id
           (snd (new (ScaleAnimation 0 "scale" 1 1.5 None)
                   (one_target "scale" (VFloat 1))))
           0 (__init__ (ScaleAnimation 0 "scale" 1 1.5 None)) 12).
  - reflexivity.
  - split; vm_compute; reflexivity.
  - reflexivity.
  - intros o H. discriminate H.
  - intros _. exact libm_id_total.
Defined.

(** X5: the navigation animation never stops animating by itself.  Its
    [on_complete] override does not clear [animating]: after any number of
    ticks the animation still reports that it is animating, although from
    tick [max_steps] on its step counter stays at [max_steps] and it has
    no pending timer of this run left.  The completing tick resets the
    attributes it drives: [scale] to 1.0 and [highlight_intensity] to
    0.7, where the target has them. *)
Theorem navigation_stays_animating (libm : Libm) (w : World) (a : nat)
    (s : AnimationState) (o : nat) (k : nat) :
  anims w !! a = Some s -> kind s = NavigationAnimation o ->
  0 < max_steps s -> on_complete_attr s = None ->
  let w' := run_ticks libm a k (snd (start a w)) in
  animating (anims w' !!! a) = true
  /\ current_step (anims w' !!! a) = Z.min (Z.of_nat k) (max_steps s)
  /\ (max_steps s <= Z.of_nat k ->
      length (pending_timers a w') = length (pending_timers a w)
      /\ (is_Some (attrs w !! (o, "scale")) ->
          attrs w' !! (o, "scale") = Some (VFloat 1))
      /\ (is_Some (attrs w !! (o, "highlight_intensity")) ->
          attrs w' !! (o, "highlight_intensity") = Some (VFloat 0.7))).
Proof.
  intros Ha Hkind Hm Hattr. cbn zeta.
  assert (Hlib : needs_libm (kind s) = true -> libm_total libm)
    by (rewrite Hkind; discriminate).
  destruct (run_ticks_cases libm a s w k Ha Hm Hattr Hlib)
    as [[Hk [Hs _ _ _ _]]|[Hk [(t & Hs & _) _ Hp Hat]]].
  - rewrite (lookup_total_of_lookup _ _ _ Hs). exec.
    repeat split; lia.
  - rewrite (lookup_total_of_lookup _ _ _ Hs), Hkind. exec.
    split; [reflexivity|]. split; [lia|]. intros _.
    split; [exact Hp|]. apply Hat, Hkind.
Qed.

Lemma navigation_stays_animating_witness :
  let w := snd (new (NavigationAnimation 0)
                  (with_attrs {[ (0%nat, "scale") := VFloat 1.2;
                                 (0%nat, "highlight_intensity") := VFloat 1 ]}
                     empty_world)) in
  let w' := run_ticks libm_id 0 12 (snd (start 0 w)) in
  animating (anims w' !!! 0%nat) = true
  /\ current_step (anims w' !!! 0%nat) = Z.min (Z.of_nat 12) 10
  /\ (10 <= Z.of_nat 12 ->
      length (pending_timers 0 w') = length (pending_timers 0 w)
      /\ (is_Some (attrs w !! (0%nat, "scale")) ->
          attrs w' !! (0%nat, "scale") = Some (VFloat 1))
      /\ (is_Some (attrs w !! (0%nat, "highlight_intensity")) ->
          attrs w' !! (0%nat, "highlight_intensity") = Some (VFloat 0.7))).
Proof.
  apply (navigation_stays_animating libm_id
           (snd (new (NavigationAnimation 0)
                   (with_attrs
                      {[ (0%nat, "scale") := VFloat 1.2;
                         (0%nat, "highlight_intensity") := VFloat 1 ]}
                      empty_world)))
           0 (__init__ (NavigationAnimation 0)) 0 12).
  - reflexivity.
  - reflexivity.
  - reflexivity.
  - reflexivity.
Defined.

(** ** The manager *)

Lemma stopping_refl (w : World) : stopping w w.
Proof. split; try reflexivity. apply winding_down_refl. Qed.

Lemma stopping_trans (w1 w2 w3 : World) :
  stopping w1 w2 -> stopping w2 w3 -> stopping w1 w3.
Proof.
  intros [P1 A1 T1 R1 D1] [P2 A2 T2 R2 D2].
  split; try congruence. eapply winding_down_trans; eassumption.
Qed.

Lemma stopping_stop (a : nat) : steps stopping (stop a).
Proof.
  intros w. split; [| | | |apply winding_down_stop];
    rewrite stop_eq; cbn zeta;
    destruct (timer (alter (set_animating false) a (anims w) !!! a));
    reflexivity.
Qed.

Ltac stopping_base :=
  first [ apply stopping_stop
        | solve [intros ?; apply stopping_refl] ].

Lemma stopping_popin_stop (p : nat) : steps stopping (PopInAnimation.stop p).
Proof.
  unfold PopInAnimation.stop. rel_steps stopping_trans stopping_base.
Qed.

Lemma stopping_popout_stop (p : nat) : steps stopping (PopOutAnimation.stop p).
Proof.
  unfold PopOutAnimation.stop. rel_steps stopping_trans stopping_base.
Qed.

Lemma stopping_call_stop (e : entry) : steps stopping (call_stop e).
Proof.
  unfold call_stop.
  rel_steps stopping_trans
    ltac:(first [ apply stopping_popin_stop | apply stopping_popout_stop
                | stopping_base ]).
Qed.

Lemma stop_returns (a : nat) (w : World) :
  exists w', stop a w = (Val tt, w')
             /\ animating (anims w' !!! a) = false
             /\ forall b, b <> a -> anims w' !! b = anims w !! b.
Proof.
  rewrite stop_eq. cbn zeta.
  destruct (timer (alter (set_animating false) a (anims w) !!! a)) eqn:Ht;
    eexists; (split; [reflexivity|]); exec.
  - split.
    + rewrite list_lookup_total_alter. case_decide; apply stopped_not_animating.
    + intros b Hb. rewrite !list_lookup_alter_ne by congruence. reflexivity.
  - split; [apply stopped_not_animating|].
    intros b Hb. rewrite list_lookup_alter_ne by congruence. reflexivity.
Qed.

(** The two children of a composite are stopped one after the other. *)
Lemma stop_children_returns (fade scale : option nat) (w : World) :
  exists w',
    ((match fade with Some f => stop f | None => pass end) ;;;
     (match scale with Some sc => stop sc | None => pass end)) w
    = (Val tt, w')
    /\ (forall a,
          a ∈ match fade with Some f => [f] | None => [] end
              ++ match scale with Some sc => [sc] | None => [] end ->
          animating (anims w' !!! a) = false)
    /\ (forall b,
          b ∉ match fade with Some f => [f] | None => [] end
              ++ match scale with Some sc => [sc] | None => [] end ->
          anims w' !! b = anims w !! b).
Proof.
  unfold bind, pass, ret.
  destruct fade as [f|], scale as [sc|]; cbn [app].
  - destruct (stop_returns f w) as (w1 & E1 & H1 & O1). rewrite E1.
    destruct (stop_returns sc w1) as (w2 & E2 & H2 & O2). rewrite E2.
    pose proof (winding_down_stop sc w1) as [_ C _]. rewrite E2 in C.
    exists w2. split; [reflexivity|]. split.
    + intros a Ha. apply elem_of_cons in Ha as [->|Ha].
      * destruct (animating (anims w2 !!! f)) eqn:E; [|reflexivity].
        rewrite (C f E) in H1. discriminate H1.
      * apply list_elem_of_singleton in Ha as ->. exact H2.
    + intros b Hb. rewrite O2, O1; [reflexivity| |];
        intros ->; apply Hb; repeat constructor.
  - destruct (stop_returns f w) as (w1 & E1 & H1 & O1). rewrite E1.
    exists w1. split; [reflexivity|]. split.
    + intros a Ha. apply list_elem_of_singleton in Ha as ->. exact H1.
    + intros b Hb. apply O1. intros ->. apply Hb. repeat constructor.
  - destruct (stop_returns sc w) as (w1 & E1 & H1 & O1). rewrite E1.
    exists w1. split; [reflexivity|]. split.
    + intros a Ha. apply list_elem_of_singleton in Ha as ->. exact H1.
    + intros b Hb. apply O1. intros ->. apply Hb. repeat constructor.
  - exists w. split; [reflexivity|]. split; [|reflexivity].
    intros a Ha. inversion Ha.
Qed.

(** [stop()] on an animation or on a composite returns, stops the
    animations of the entry and leaves the others alone. *)
Lemma call_stop_returns (e : entry) (w : World) :
  (forall f, e <> Factory f) ->
  exists w',
    call_stop e w = (Val tt, w')
    /\ (forall a, a ∈ entry_anims w e -> animating (anims w' !!! a) = false)
    /\ (forall b, b ∉ entry_anims w e -> anims w' !! b = anims w !! b).
Proof.
  intros Hf. destruct e as [a|p|f]; [| |exfalso; eapply Hf; reflexivity].
  - destruct (stop_returns a w) as (w' & E & H & O).
    exists w'. split; [exact E|]. cbn [entry_anims]. split.
    + intros b Hb. apply list_elem_of_singleton in Hb as ->. exact H.
    + intros b Hb. apply O. intros ->. apply Hb. repeat constructor.
  - unfold call_stop. unfold bind at 1. unfold get_pop at 1.
    cbn [entry_anims].
    destruct (pop_kind (pops w !!! p));
      [unfold PopInAnimation.stop|unfold PopOutAnimation.stop];
      unfold bind at 1; unfold get_pop at 1;
      apply stop_children_returns.
Qed.

Lemma for_each_app {A} (l1 l2 : list A) (body : A -> M unit) (w : World) :
  for_each (l1 ++ l2) body w = (for_each l1 body ;;; for_each l2 body) w.
Proof.
  revert w. induction l1 as [|x l1 IH]; intros w; [reflexivity|].
  cbn [app for_each]. unfold bind.
  destruct (body x w) as [[[]|e] w1]; [|reflexivity].
  rewrite IH. reflexivity.
Qed.

(** The loop of [stop_all_animations] over keys that hold no template. *)
Lemma stop_all_animations_returns (order : list string) :
  forall w,
    Forall (fun name => forall f, animations w !! name <> Some (Factory f))
      order ->
    exists w',
      stop_all_animations order w = (Val tt, w')
      /\ stopping w w'
      /\ (forall name e a,
            name ∈ order -> animations w !! name = Some e ->
            a ∈ entry_anims w e -> animating (anims w' !!! a) = false)
      /\ (forall b,
            (forall name e, name ∈ order -> animations w !! name = Some e ->
                            b ∉ entry_anims w e) ->
            anims w' !! b = anims w !! b).
Proof.
  unfold stop_all_animations.
  induction order as [|name order IH]; intros w Hok.
  - exists w. split; [reflexivity|]. split; [apply stopping_refl|].
    split; [|reflexivity]. intros name e a Hin. inversion Hin.
  - apply List.Forall_cons_iff in Hok as [Hname Hrest].
    cbn [for_each]. unfold bind.
    assert (Hhead : exists w1,
      (match animations w !! name with
       | Some animation => call_stop animation w
       | None => (Val tt, w)
       end) = (Val tt, w1)
      /\ stopping w w1
      /\ (forall e a, animations w !! name = Some e -> a ∈ entry_anims w e ->
                      animating (anims w1 !!! a) = false)
      /\ (forall b, (forall e, animations w !! name = Some e ->
                               b ∉ entry_anims w e) ->
                    anims w1 !! b = anims w !! b)).
    { destruct (animations w !! name) as [e|] eqn:He.
      - destruct (call_stop_returns e w) as (w1 & E & H & O).
        { intros f ->. exact (Hname f eq_refl). }
        exists w1. split; [exact E|]. split.
        + pose proof (stopping_call_stop e w) as S. rewrite E in S. exact S.
        + split; [intros e' a [= <-]; apply H|].
          intros b Hb. apply O, Hb. reflexivity.
      - exists w. split; [reflexivity|]. split; [apply stopping_refl|].
        split; [discriminate|reflexivity]. }
    destruct Hhead as (w1 & E1 & S1 & H1 & O1). rewrite E1.
    destruct S1 as [P1 A1 T1 R1 D1].
    assert (Hsame : forall e, entry_anims w1 e = entry_anims w e)
      by (intros [a|p|f]; cbn [entry_anims]; rewrite ?P1; reflexivity).
    destruct (IH w1) as (w2 & E2 & S2 & H2 & O2).
    { rewrite A1. exact Hrest. }
    exists w2. split; [exact E2|]. split.
    { eapply stopping_trans; [|exact S2]. split; assumption. }
    split.
    + intros n e a Hin He Ha. apply elem_of_cons in Hin as [->|Hin].
      * destruct (animating (anims w2 !!! a)) eqn:E; [|reflexivity].
        destruct S2 as [_ _ _ _ [_ C _]].
        pose proof (H1 e a He Ha) as Hf. rewrite (C a E) in Hf.
        discriminate Hf.
      * apply (H2 n e a Hin); [rewrite A1; exact He|].
        rewrite Hsame. exact Ha.
    + intros b Hb. rewrite O2, O1; [reflexivity| |].
      * intros e He. apply (Hb name e); [constructor|exact He].
      * intros n e Hin He. rewrite Hsame. rewrite A1 in He.
        apply (Hb n e); [constructor; exact Hin|exact He].
Qed.

(** X6: [stop_all_animations] on a registry that holds animations and
    composites only.  Whatever the order of the keys, it returns, every
    animation of every registered entry is stopped, and registry,
    attributes and trace are unchanged: it calls nothing and writes
    nothing. *)
Theorem stop_all_animations_stops_all (order : list string) (w : World) :
  Forall (fun name => forall f, animations w !! name <> Some (Factory f))
    order ->
  exists w',
    stop_all_animations order w = (Val tt, w')
    /\ animations w' = animations w /\ attrs w' = attrs w
    /\ trace w' = trace w
    /\ forall name e a,
         name ∈ order -> animations w !! name = Some e ->
         a ∈ entry_anims w e -> animating (anims w' !!! a) = false.
Proof.
  intros Hok.
  destruct (stop_all_animations_returns order w Hok)
    as (w' & E & [_ A T R _] & H & _).
  exists w'. repeat split; assumption.
Qed.

(** X7: [stop_all_animations] aborts at the first template.  The registry
    also holds the lambdas of [register_animations], which have no
    [stop]: the loop raises AttributeError when it reaches one, having
    stopped only the entries before it.  An animation that none of these
    entries owns is left exactly as it was; with a template as the first
    key, nothing at all is stopped. *)
Theorem stop_all_animations_aborts_at_template (pre post : list string)
    (name : string) (f : factory) (w : World) :
  Forall (fun n => forall g, animations w !! n <> Some (Factory g)) pre ->
  animations w !! name = Some (Factory f) ->
  stop_all_animations (pre ++ name :: post) w
  = (Exc AttributeError, snd (stop_all_animations pre w))
  /\ (forall b,
        (forall n e, n ∈ pre -> animations w !! n = Some e ->
                     b ∉ entry_anims w e) ->
        anims (snd (stop_all_animations pre w)) !! b = anims w !! b)
  /\ (pre = [] -> stop_all_animations (name :: post) w
                  = (Exc AttributeError, w)).
Proof.
  intros Hok Hname.
  destruct (stop_all_animations_returns pre w Hok)
    as (w1 & E & [_ A _ _ _] & _ & O).
  split; [|split].
  - unfold stop_all_animations in *. rewrite for_each_app.
    unfold bind at 1. rewrite E. cbn [snd for_each]. unfold bind.
    rewrite A, Hname. reflexivity.
  - rewrite E. exact O.
  - intros _. unfold stop_all_animations. cbn [for_each]. unfold bind.
    rewrite Hname. reflexivity.
Qed.

Lemma stop_all_animations_stops_all_witness :
  exists w',
    stop_all_animations [toggle_key 0; "search_nav_0"] busy_registry
    = (Val tt, w')
    /\ animations w' = animations busy_registry
    /\ attrs w' = attrs busy_registry
    /\ trace w' = trace busy_registry
    /\ forall name e a,
         name ∈ [toggle_key 0; "search_nav_0"] ->
         animations busy_registry !! name = Some e ->
         a ∈ entry_anims busy_registry e -> animating (anims w' !!! a) = false.
Proof.
  apply (stop_all_animations_stops_all [toggle_key 0; "search_nav_0"]
           busy_registry).
  apply List.Forall_cons; [intros f; vm_compute; discriminate|].
  apply List.Forall_cons; [intros f; vm_compute; discriminate|].
  apply List.Forall_nil.
Defined.

Lemma stop_all_animations_aborts_at_template_witness :
  let post := ["toggle_on"; "toggle_off"; "panel_focus"; "notification_pulse";
               "tab_flash"; toggle_key 0; "search_nav_0"] in
  stop_all_animations ([] ++ "button_press" :: post) busy_registry
  = (Exc AttributeError, snd (stop_all_animations [] busy_registry))
  /\ (forall b,
        (forall n e, n ∈ [] -> animations busy_registry !! n = Some e ->
                     b ∉ entry_anims busy_registry e) ->
        anims (snd (stop_all_animations [] busy_registry)) !! b
        = anims busy_registry !! b)
  /\ (@nil string = [] ->
      stop_all_animations ("button_press" :: post) busy_registry
      = (Exc AttributeError, busy_registry)).
Proof.
  apply (stop_all_animations_aborts_at_template []
           ["toggle_on"; "toggle_off"; "panel_focus"; "notification_pulse";
            "tab_flash"; toggle_key 0; "search_nav_0"]
           "button_press" button_press busy_registry).
  - apply List.Forall_nil.
  - vm_compute. reflexivity.
Defined.

Lemma for_each_ext {A} (l : list A) (body1 body2 : A -> M unit) :
  (forall x w, body1 x w = body2 x w) ->
  forall w, for_each l body1 w = for_each l body2 w.
Proof.
  intros Hext. induction l as [|x l IH]; intros w; [reflexivity|].
  cbn [for_each]. unfold bind. rewrite Hext.
  destruct (body2 x w) as [[[]|e] w1]; [apply IH|reflexivity].
Qed.

(** [MicroAnimations.stop_animation] is the loop of [stop_all_animations]
    over the ten keys of the object. *)
Lemma micro_stop_animation_eq (obj : nat) (w : World) :
  MicroAnimations.stop_animation obj w
  = stop_all_animations (animation_prefixes obj) w.
Proof.
  unfold MicroAnimations.stop_animation, stop_all_animations.
  apply for_each_ext. clear w. intros prefix w.
  unfold bind, contains, AnimationManager.stop_animation, pass, ret.
  destruct (animations w !! prefix) as [e|] eqn:He; [|reflexivity].
  rewrite bool_decide_eq_true_2 by eauto.
  rewrite He. unfold bind.
  destruct (call_stop e w) as [[[]|x] w1]; reflexivity.
Qed.

(** X8: [MicroAnimations.stop_animation(obj)] stops what was registered
    for the object under its ten keys and nothing else.  It returns, the
    animations of those entries are stopped, an animation that none of
    them owns is left exactly as it was, and the registry keeps the
    entries: a later recipe call for the object finds and restarts
    them. *)
Theorem micro_stop_animation_stops_object (obj : nat) (w : World) :
  Forall (fun key => forall f, animations w !! key <> Some (Factory f))
    (animation_prefixes obj) ->
  exists w',
    MicroAnimations.stop_animation obj w = (Val tt, w')
    /\ animations w' = animations w /\ attrs w' = attrs w
    /\ trace w' = trace w
    /\ (forall key e a,
          key ∈ animation_prefixes obj -> animations w !! key = Some e ->
          a ∈ entry_anims w e -> animating (anims w' !!! a) = false)
    /\ (forall b,
          (forall key e, key ∈ animation_prefixes obj ->
                         animations w !! key = Some e ->
                         b ∉ entry_anims w e) ->
          anims w' !! b = anims w !! b).
Proof.
  intros Hok. rewrite micro_stop_animation_eq.
  destruct (stop_all_animations_returns (animation_prefixes obj) w Hok)
    as (w' & E & [_ A T R _] & H & O).
  exists w'. repeat split; assumption.
Qed.

Lemma micro_stop_animation_stops_object_witness :
  exists w',
    MicroAnimations.stop_animation 0 busy_registry = (Val tt, w')
    /\ animations w' = animations busy_registry
    /\ attrs w' = attrs busy_registry
    /\ trace w' = trace busy_registry
    /\ (forall key e a,
          key ∈ animation_prefixes 0 ->
          animations busy_registry !! key = Some e ->
          a ∈ entry_anims busy_registry e ->
          animating (anims w' !!! a) = false)
    /\ (forall b,
          (forall key e, key ∈ animation_prefixes 0 ->
                         animations busy_registry !! key = Some e ->
                         b ∉ entry_anims busy_registry e) ->
          anims w' !! b = anims busy_registry !! b).
Proof.
  apply (micro_stop_animation_stops_object 0 busy_registry).
  unfold animation_prefixes.
  repeat (apply List.Forall_cons; [intros f; vm_compute; discriminate|]).
  apply List.Forall_nil.
Defined.

(** X9: registering and removing an animation is a round trip on the
    registry.  After [add_animation(key, a)], [remove_animation(key)]
    returns True, stops [a] and leaves the registry without the key,
    whatever it held under the key before; after that
    [remove_animation], [stop_animation] and [start_animation] on the
    key return False and change nothing. *)
Theorem add_then_remove_round_trip (w : World) (key : string) (a : nat)
    (s : AnimationState) :
  anims w !! a = Some s ->
  let w1 := snd (add_animation key (Anim a) w) in
  exists w2,
    remove_animation key w1 = (Val true, w2)
    /\ animations w2 = delete key (animations w)
    /\ animating (anims w2 !!! a) = false
    /\ timer (anims w2 !!! a) = None
    /\ remove_animation key w2 = (Val false, w2)
    /\ AnimationManager.stop_animation key w2 = (Val false, w2)
    /\ start_animation key w2 = (Val false, w2).
Proof.
  intros Ha. cbn zeta.
  set (w1 := snd (add_animation key (Anim a) w)).
  assert (Hk : animations w1 !! key = Some (Anim a))
    by apply lookup_insert_eq.
  assert (Ha1 : anims w1 !! a = Some s) by exact Ha.
  rewrite (remove_animation_anim w1 key a Hk).
  destruct (stop_cancels w1 a s Ha1) as (Hrun & Htimer & _ & _ & _ & Hreg).
  eexists. split; [reflexivity|].
  assert (Hgone : animations
                    (with_animations (delete key (animations w1))
                       (snd (stop a w1))) !! key = None)
    by apply lookup_delete_eq.
  split; [apply delete_insert_eq|].
  split; [exact Hrun|]. split; [exact Htimer|].
  unfold remove_animation, AnimationManager.stop_animation, start_animation.
  rewrite Hgone. repeat split.
Qed.

Lemma add_then_remove_round_trip_witness :
  let w1 := snd (add_animation "k" (Anim 1) live_under_k) in
  exists w2,
    remove_animation "k" w1 = (Val true, w2)
    /\ animations w2 = delete "k" (animations live_under_k)
    /\ animating (anims w2 !!! 1%nat) = false
    /\ timer (anims w2 !!! 1%nat) = None
    /\ remove_animation "k" w2 = (Val false, w2)
    /\ AnimationManager.stop_animation "k" w2 = (Val false, w2)
    /\ start_animation "k" w2 = (Val false, w2).
Proof.
  apply (add_then_remove_round_trip live_under_k "k" 1
           (__init__ (FadeAnimation 0 "opacity" 1 0 None))).
  reflexivity.
Defined.

(** ** The recipes of micro_animations.py *)

(** The part of [animate_search_navigation] that follows the removal of
    the old entry. *)
Lemma search_navigation_tail (w : World) (obj : nat) (key : string) :
  (nav_anim <- new (NavigationAnimation obj) ;;
   add_animation key (Anim nav_anim) ;;;
   start_animation key ;;; pass) w
  = (Val tt,
     snd (start (length (anims w))
            (with_animations (<[key := Anim (length (anims w))]> (animations w))
               (with_anims (anims w ++ [__init__ (NavigationAnimation obj)])
                  w)))).
Proof.
  unfold new, new_anim, add_animation, start_animation, pass, ret.
  unfold bind. exec. rewrite lookup_insert_eq. unfold call_start.
  erewrite start_running.
  - reflexivity.
  - exec. rewrite lookup_app_r by lia. rewrite Nat.sub_diag. reflexivity.
  - discriminate.
Qed.

(** X10: [animate_search_navigation] replaces the navigation animation of
    the object.  Whether or not an animation was registered under the key
    of the object, the call returns; a new navigation animation (duration
    0.4, 10 steps) is allocated, registered under the key in place of the
    old entry and started from step 0; the animation registered before is
    stopped, and holds no timer any more.  Nothing is written or called
    on the way. *)
Theorem search_navigation_replaces (w : World) (obj : nat) :
  let key := ("search_nav_" ++ str_id obj)%string in
  let n := length (anims w) in
  (forall e, animations w !! key = Some e ->
             exists a, e = Anim a /\ (a < n)%nat) ->
  exists w',
    animate_search_navigation obj w = (Val tt, w')
    /\ animations w' = <[key := Anim n]> (animations w)
    /\ length (anims w') = S n
    /\ anims w' !! n
       = Some (set_timer (timer (anims w' !!! n))
                 (set_animating true (__init__ (NavigationAnimation obj))))
    /\ (exists t tm, timer (anims w' !!! n) = Some t
                     /\ timers w' !! t = Some tm
                     /\ t_owner tm = n /\ t_state tm = Pending)
    /\ (forall a, animations w !! key = Some (Anim a) ->
                  animating (anims w' !!! a) = false
                  /\ timer (anims w' !!! a) = None)
    /\ attrs w' = attrs w /\ trace w' = trace w.
Proof.
  intros key n Hkey.
  assert (Hstart : forall w1,
    length (anims w1) = n ->
    let w2 := snd (start n
                (with_animations (<[key := Anim n]> (animations w1))
                   (with_anims (anims w1 ++ [__init__ (NavigationAnimation obj)])
                      w1))) in
    length (anims w2) = S n
    /\ anims w2 !! n
       = Some (set_timer (timer (anims w2 !!! n))
                 (set_animating true (__init__ (NavigationAnimation obj))))
    /\ (exists t tm, timer (anims w2 !!! n) = Some t
                     /\ timers w2 !! t = Some tm
                     /\ t_owner tm = n /\ t_state tm = Pending)
    /\ (forall a, (a < n)%nat -> anims w2 !!! a = anims w1 !!! a)
    /\ animations w2 = <[key := Anim n]> (animations w1)
    /\ attrs w2 = attrs w1 /\ trace w2 = trace w1).
  { intros w1 Hn. cbn zeta.
    erewrite start_running; cycle 1.
    - exec. rewrite <- Hn. rewrite lookup_app_r by lia.
      rewrite Nat.sub_diag. reflexivity.
    - discriminate.
    - exec.
      assert (Hlt : (n < length (anims w1
                           ++ [__init__ (NavigationAnimation obj)]))%nat)
        by (rewrite length_app; cbn; lia).
      rewrite (lookup_total_of_lookup _ _ _
                 (list_lookup_insert_eq _ _ _ Hlt)).
      exec. split; [rewrite length_insert, length_app; cbn; lia|].
      split; [rewrite list_lookup_insert_eq by exact Hlt; reflexivity|].
      split.
      { eexists _, _. split; [reflexivity|].
        split; [apply list_lookup_middle; reflexivity|].
        split; reflexivity. }
      split; [|repeat split].
      intros a Ha. rewrite list_lookup_total_insert_ne by lia.
      apply lookup_total_app_l. lia. }
  unfold animate_search_navigation. fold key.
  unfold contains. unfold bind at 1.
  destruct (animations w !! key) as [e|] eqn:He.
  - destruct (Hkey e eq_refl) as (a & -> & Ha).
    destruct (lookup_lt_is_Some_2 _ _ Ha) as [s Hs].
    rewrite bool_decide_eq_true_2 by eauto.
    unfold bind at 1. unfold bind at 1.
    rewrite (remove_animation_anim w key a He).
    unfold pass at 1, ret at 1.
    set (w1 := with_animations (delete key (animations w)) (snd (stop a w))).
    rewrite (search_navigation_tail w1 obj key).
    destruct (stop_cancels w a s Hs) as (Hrun & Htimer & _ & _ & Hlen & _).
    pose proof (stopping_stop a w) as [_ _ Hattrs Htrace _].
    assert (Hn : length (anims w1) = n) by exact Hlen.
    rewrite Hn.
    destruct (Hstart w1 Hn) as (L & S & T & O & A & At & Tr).
    eexists. split; [reflexivity|].
    split; [rewrite A; apply insert_delete_eq|].
    split; [exact L|]. split; [exact S|]. split; [exact T|].
    split; [|split; [rewrite At; exact Hattrs|rewrite Tr; exact Htrace]].
    intros a' [= <-]. rewrite (O a Ha). split; [exact Hrun|exact Htimer].
  - rewrite bool_decide_eq_false_2 by (intros [? ?]; discriminate).
    unfold bind at 1. unfold pass at 1, ret at 1.
    rewrite (search_navigation_tail w obj key).
    destruct (Hstart w eq_refl) as (L & S & T & O & A & At & Tr).
    eexists. split; [reflexivity|]. split; [exact A|].
    split; [exact L|]. split; [exact S|]. split; [exact T|].
    split; [intros a' Hx; discriminate Hx|]. split; assumption.
Qed.

Lemma search_navigation_replaces_witness :
  exists w',
    animate_search_navigation 0 busy_registry = (Val tt, w')
    /\ animations w'
       = <[("search_nav_" ++ str_id 0)%string
            := Anim (length (anims busy_registry))]>
           (animations busy_registry)
    /\ length (anims w') = S (length (anims busy_registry))
    /\ anims w' !! length (anims busy_registry)
       = Some (set_timer (timer (anims w' !!! length (anims busy_registry)))
                 (set_animating true (__init__ (NavigationAnimation 0))))
    /\ (exists t tm,
          timer (anims w' !!! length (anims busy_registry)) = Some t
          /\ timers w' !! t = Some tm
          /\ t_owner tm = length (anims busy_registry)
          /\ t_state tm = Pending)
    /\ (forall a,
          animations busy_registry !! ("search_nav_" ++ str_id 0)%string
          = Some (Anim a) ->
          animating (anims w' !!! a) = false
          /\ timer (anims w' !!! a) = None)
    /\ attrs w' = attrs busy_registry /\ trace w' = trace busy_registry.
Proof.
  apply (search_navigation_replaces busy_registry 0).
  intros e He. vm_compute in He. injection He as <-.
  exists 1%nat. split; [reflexivity|]. vm_compute. lia.
Defined.

(** ** Composites *)

Lemma alter_pair {A} (g g' : A -> A) (l : list A) (x y : A) :
  alter g' (length (l ++ [x])) (alter g (length l) ((l ++ [x]) ++ [y]))
  = l ++ [g x; g' y].
Proof.
  induction l as [|z l IH].
  - reflexivity.
  - cbn [length app]. cbn [app length] in IH.
    change (alter g (S (length l)) (z :: ?r))
      with (z :: alter g (length l) r).
    change (alter g' (S (length (l ++ [x]))) (z :: ?r))
      with (z :: alter g' (length (l ++ [x])) r).
    rewrite IH. reflexivity.
Qed.

Lemma setattr_if_present_eq (o : nat) (name : string) (v : value) (w : World) :
  setattr_if_present o name v w
  = (Val tt,
     if bool_decide (is_Some (attrs w !! (o, name)))
     then with_trace (trace w ++ [Setattr o name v])
            (with_attrs (<[(o, name) := v]> (attrs w)) w)
     else w).
Proof.
  unfold setattr_if_present, hasattr, setattr, pass, ret, bind.
  destruct (bool_decide _); reflexivity.
Qed.

(** What [PopInAnimation.create_animations] builds. *)
Lemma popin_create_animations_eq (p : nat) (w : World) (q : PopAnimation) :
  pops w !! p = Some q ->
  PopInAnimation.create_animations p w
  = (Val tt,
     with_anims
       (anims w
        ++ [set_duration (pop_duration q)
              (__init__ (FadeAnimation (pop_target_object q)
                           (pop_opacity_property q) 0 1 (pop_on_update q)));
            set_duration (pop_duration q * 0.8)%float
              (__init__ (ScaleAnimation (pop_target_object q)
                           (pop_scale_property q) (pop_start_scale q)
                           (pop_end_scale q) (pop_on_update q)))])
       (with_pops
          (<[p := set_children (Some (length (anims w)))
                    (Some (S (length (anims w)))) q]> (pops w)) w)).
Proof.
  intros HP.
  assert (Hvalid : (p < length (pops w))%nat) by (eapply lookup_lt_Some, HP).
  unfold PopInAnimation.create_animations, new. unfold_prims. exec.
  rewrite (lookup_total_of_lookup _ _ _ HP).
  rewrite alter_pair.
  rewrite (alter_of_lookup _ _ _ _ HP).
  rewrite (alter_of_lookup _ (<[p:=_]> _) p _
             (list_lookup_insert_eq _ _ _ Hvalid)).
  rewrite list_insert_insert_eq. exec.
  replace (length (anims w ++ [__init__
             (FadeAnimation (pop_target_object q) (pop_opacity_property q)
                0 1 (pop_on_update q))]))
    with (S (length (anims w))) by (rewrite length_app; cbn; lia).
  reflexivity.
Qed.

(** The first [start()] of a pop-in, step by step. *)
Lemma popin_first_start (w : World) (p : nat)
    (q : PopAnimation) :
  pops w !! p = Some q -> fade_animation q = None ->
  let o := pop_target_object q in
  let n := length (anims w) in
  exists w',
    PopInAnimation.start p w = (Val tt, w')
    /\ trace w'
       = trace w
         ++ (if bool_decide (is_Some (attrs w !! (o, pop_opacity_property q)))
             then [Setattr o (pop_opacity_property q) (VFloat 0)] else [])
         ++ (if bool_decide (is_Some (attrs w !! (o, pop_scale_property q)))
             then [Setattr o (pop_scale_property q) (VFloat 1.1)] else [])
    /\ (is_Some (attrs w !! (o, pop_scale_property q)) ->
        attrs w' !! (o, pop_scale_property q) = Some (VFloat 1.1))
    /\ fade_animation (pops w' !!! p) = Some n
    /\ scale_animation (pops w' !!! p) = Some (S n)
    /\ kind (anims w' !!! n)
       = FadeAnimation o (pop_opacity_property q) 0 1 (pop_on_update q)
    /\ kind (anims w' !!! S n)
       = ScaleAnimation o (pop_scale_property q) (pop_start_scale q)
           (pop_end_scale q) (pop_on_update q)
    /\ duration (anims w' !!! n) = pop_duration q
    /\ duration (anims w' !!! S n) = (pop_duration q * 0.8)%float
    /\ animating (anims w' !!! n) = true
    /\ animating (anims w' !!! S n) = true.
Proof.
  intros HP Hfresh o n.
  assert (Hvalid : (p < length (pops w))%nat) by (eapply lookup_lt_Some, HP).
  unfold PopInAnimation.start. unfold bind at 1. unfold get_pop at 1.
  rewrite (lookup_total_of_lookup _ _ _ HP), Hfresh.
  unfold bind at 1. rewrite (popin_create_animations_eq p w q HP).
  fold o n.
  set (F := set_duration (pop_duration q) _).
  set (SC := set_duration (pop_duration q * 0.8)%float _).
  set (w1 := with_anims _ _).
  unfold bind at 1. unfold get_pop at 1.
  assert (Hq1 : pops w1 !!! p = set_children (Some n) (Some (S n)) q).
  { apply lookup_total_of_lookup. unfold w1. exec.
    apply list_lookup_insert_eq, Hvalid. }
  rewrite Hq1. cbn [pop_target_object pop_opacity_property pop_scale_property
                    fade_animation scale_animation set_children].
  fold o.
  unfold bind at 1. rewrite setattr_if_present_eq.
  set (wa := if bool_decide _ then _ else w1).
  unfold bind at 1. rewrite setattr_if_present_eq.
  set (wb := if bool_decide _ then _ else wa).
  assert (Ha : anims wa = anims w1 /\ timers wa = timers w1
               /\ pops wa = pops w1 /\ in_place w1 wa
               /\ trace wa
                  = trace w
                    ++ (if bool_decide
                             (is_Some (attrs w !! (o, pop_opacity_property q)))
                        then [Setattr o (pop_opacity_property q) (VFloat 0)]
                        else [])).
  { pose proof (in_place_setattr_if_present o (pop_opacity_property q)
                  (VFloat 0) w1) as Hin.
    rewrite setattr_if_present_eq in Hin. cbn [snd] in Hin. fold wa in Hin.
    unfold wa in *. unfold w1 at 1 2 3 5. exec.
    destruct (bool_decide _); exec; rewrite ?app_nil_r; auto. }
  destruct Ha as (Aa & Ta & Pa & Ia & Ra).
  assert (Hsame : bool_decide (is_Some (attrs wa !! (o, pop_scale_property q)))
                  = bool_decide
                      (is_Some (attrs w !! (o, pop_scale_property q)))).
  { apply bool_decide_ext. apply (Ia (o, pop_scale_property q)). }
  assert (Hb : anims wb = anims w1 /\ timers wb = timers w1
               /\ pops wb = pops w1
               /\ trace wb
                  = trace w
                    ++ (if bool_decide
                             (is_Some (attrs w !! (o, pop_opacity_property q)))
                        then [Setattr o (pop_opacity_property q) (VFloat 0)]
                        else [])
                    ++ (if bool_decide
                             (is_Some (attrs w !! (o, pop_scale_property q)))
                        then [Setattr o (pop_scale_property q) (VFloat 1.1)]
                        else [])
               /\ (is_Some (attrs w !! (o, pop_scale_property q)) ->
                   attrs wb !! (o, pop_scale_property q)
                   = Some (VFloat 1.1))).
  { unfold wb. rewrite Hsame.
    destruct (bool_decide_reflect
                (is_Some (attrs w !! (o, pop_scale_property q)))) as [H|H];
      exec; rewrite ?Aa, ?Ta, ?Pa, ?Ra, ?app_nil_r, ?app_assoc;
      repeat split; try reflexivity.
    - intros _. apply lookup_insert_eq.
    - intros H'. contradiction. }
  destruct Hb as (Ab & Tb & Pb & Rb & Hattr).
  assert (HFb : anims wb !! n = Some F).
  { rewrite Ab. unfold w1. exec. rewrite lookup_app_r by (unfold n; lia).
    unfold n. rewrite Nat.sub_diag. reflexivity. }
  assert (HSb : anims wb !! S n = Some SC).
  { rewrite Ab. unfold w1. exec. rewrite lookup_app_r by (unfold n; lia).
    replace (S n - length (anims w))%nat with 1%nat by (unfold n; lia).
    reflexivity. }
  unfold bind at 1.
  rewrite (start_running wb n F HFb) by discriminate.
  set (wc := with_anims _ _).
  assert (HSc : anims wc !! S n = Some SC).
  { unfold wc. exec. rewrite list_lookup_insert_ne by lia. exact HSb. }
  rewrite (start_running wc (S n) SC HSc) by discriminate.
  eexists. split; [reflexivity|]. exec.
  assert (HlF : (n < length (anims wb))%nat) by (eapply lookup_lt_Some, HFb).
  assert (HlS : (S n < length (anims wb))%nat)
    by (eapply lookup_lt_Some, HSb).
  rewrite (list_lookup_total_insert_eq _ (S n))
    by (eapply lookup_lt_Some, HSc).
  rewrite (list_lookup_total_insert_ne _ (S n) n) by lia.
  unfold wc. exec.
  rewrite (list_lookup_total_insert_eq _ n) by exact HlF.
  rewrite Pb, Hq1. exec.
  split; [exact Rb|]. split; [exact Hattr|].
  repeat split.
Qed.

(** X11: the first [start()] of a pop-in.  It creates the fade (0 to 1,
    [duration]) and the scale animation ([start_scale] to [end_scale],
    [duration * 0.8]), starts both, and writes the initial values where
    the target has the attributes: 0.0 to the opacity property, then the
    literal 1.1 to the scale property, whatever [start_scale] the pop-in
    was given. *)
Theorem popin_start_writes_fixed_scale (w : World) (p : nat)
    (q : PopAnimation) :
  pops w !! p = Some q -> fade_animation q = None ->
  let o := pop_target_object q in
  let n := length (anims w) in
  exists w',
    PopInAnimation.start p w = (Val tt, w')
    /\ trace w'
       = trace w
         ++ (if bool_decide (is_Some (attrs w !! (o, pop_opacity_property q)))
             then [Setattr o (pop_opacity_property q) (VFloat 0)] else [])
         ++ (if bool_decide (is_Some (attrs w !! (o, pop_scale_property q)))
             then [Setattr o (pop_scale_property q) (VFloat 1.1)] else [])
    /\ (is_Some (attrs w !! (o, pop_scale_property q)) ->
        attrs w' !! (o, pop_scale_property q) = Some (VFloat 1.1))
    /\ fade_animation (pops w' !!! p) = Some n
    /\ scale_animation (pops w' !!! p) = Some (S n)
    /\ kind (anims w' !!! n)
       = FadeAnimation o (pop_opacity_property q) 0 1 (pop_on_update q)
    /\ kind (anims w' !!! S n)
       = ScaleAnimation o (pop_scale_property q) (pop_start_scale q)
           (pop_end_scale q) (pop_on_update q)
    /\ duration (anims w' !!! n) = pop_duration q
    /\ duration (anims w' !!! S n) = (pop_duration q * 0.8)%float
    /\ animating (anims w' !!! n) = true
    /\ animating (anims w' !!! S n) = true.
Proof. apply popin_first_start. Qed.

Lemma popin_start_writes_fixed_scale_witness :
  let q := pops button_pop !!! 0%nat in
  pop_start_scale q = 0.95%float
  /\ exists w',
       PopInAnimation.start 0 button_pop = (Val tt, w')
       /\ trace w'
          = trace button_pop
            ++ (if bool_decide
                     (is_Some (attrs button_pop
                               !! (pop_target_object q,
                                   pop_opacity_property q)))
                then [Setattr (pop_target_object q) (pop_opacity_property q)
                        (VFloat 0)]
                else [])
            ++ (if bool_decide
                     (is_Some (attrs button_pop
                               !! (pop_target_object q, pop_scale_property q)))
                then [Setattr (pop_target_object q) (pop_scale_property q)
                        (VFloat 1.1)]
                else [])
       /\ (is_Some (attrs button_pop
                    !! (pop_target_object q, pop_scale_property q)) ->
           attrs w' !! (pop_target_object q, pop_scale_property q)
           = Some (VFloat 1.1))
       /\ fade_animation (pops w' !!! 0%nat)
          = Some (length (anims button_pop))
       /\ scale_animation (pops w' !!! 0%nat)
          = Some (S (length (anims button_pop)))
       /\ kind (anims w' !!! length (anims button_pop))
          = FadeAnimation (pop_target_object q) (pop_opacity_property q) 0 1
              (pop_on_update q)
       /\ kind (anims w' !!! S (length (anims button_pop)))
          = ScaleAnimation (pop_target_object q) (pop_scale_property q)
              (pop_start_scale q) (pop_end_scale q) (pop_on_update q)
       /\ duration (anims w' !!! length (anims button_pop)) = pop_duration q
       /\ duration (anims w' !!! S (length (anims button_pop)))
          = (pop_duration q * 0.8)%float
       /\ animating (anims w' !!! length (anims button_pop)) = true
       /\ animating (anims w' !!! S (length (anims button_pop))) = true.
Proof.
  split; [reflexivity|].
  apply (popin_start_writes_fixed_scale button_pop 0
           (pops button_pop !!! 0%nat)); reflexivity.
Defined.

Lemma keeps_animations_setattr_if_present (o : nat) (name : string)
    (v : value) :
  steps (keeps animations) (setattr_if_present o name v).
Proof.
  intros w. rewrite setattr_if_present_eq. cbn [snd].
  destruct (bool_decide _); reflexivity.
Qed.

Lemma keeps_animations_start (a : nat) : steps (keeps animations) (start a).
Proof.
  unfold start, schedule_next_frame.
  rel_steps (keeps_trans animations) keeps_base.
Qed.

Lemma keeps_animations_popin_start (p : nat) :
  steps (keeps animations) (PopInAnimation.start p).
Proof.
  unfold PopInAnimation.start, PopInAnimation.create_animations, new.
  rel_steps (keeps_trans animations)
    ltac:(first [ apply keeps_animations_setattr_if_present
                | apply keeps_animations_start | keeps_base ]).
Qed.

(** X12: a button press animates [scale] twice over.  The [button_press]
    template passes ["scale"] both as the opacity property and as the
    scale property of the pop-in.  The first [animate_button_press] for a
    button registers that pop-in under the key of the button and starts
    it: where the button has the attribute, [scale] is set to 0.0 and
    then to 1.1, and from then on both children write it, the fade from
    0.0 to 1.0 and the scale animation from 0.95 to 1.0. *)
Theorem button_press_drives_scale_twice (w : World) (obj : nat) :
  animations w !! "button_press" = Some (Factory button_press) ->
  animations w !! ("button_press_" ++ str_id obj)%string = None ->
  let p := length (pops w) in
  let n := length (anims w) in
  exists w',
    animate_button_press obj w = (Val tt, w')
    /\ animations w'
       = <[("button_press_" ++ str_id obj)%string := Pop p]> (animations w)
    /\ kind (anims w' !!! n) = FadeAnimation obj "scale" 0 1 None
    /\ kind (anims w' !!! S n) = ScaleAnimation obj "scale" 0.95 1 None
    /\ animating (anims w' !!! n) = true
    /\ animating (anims w' !!! S n) = true
    /\ trace w'
       = trace w
         ++ (if bool_decide (is_Some (attrs w !! (obj, "scale")))
             then [Setattr obj "scale" (VFloat 0);
                   Setattr obj "scale" (VFloat 1.1)]
             else []).
Proof.
  intros Hbase Hkey p n.
  set (key := ("button_press_" ++ str_id obj)%string) in *.
  unfold animate_button_press. fold key.
  unfold contains, getitem, call, add_animation, start_animation.
  unfold bind at 1. rewrite Hkey.
  rewrite bool_decide_eq_false_2 by (intros [? ?]; discriminate).
  cbn [negb]. unfold bind at 1. unfold bind at 1. rewrite Hbase.
  unfold bind at 1. unfold call_factory, PopInAnimation.__init__, new_pop.
  unfold bind at 1. unfold ret at 1. unfold bind at 1. unfold pass at 1.
  unfold ret at 1. unfold bind at 1. exec. rewrite lookup_insert_eq.
  unfold bind at 1. unfold call_start. unfold bind at 1.
  unfold get_pop at 1. exec.
  set (q := {| pop_kind := PopIn; pop_target_object := obj;
               pop_opacity_property := "scale"; pop_scale_property := "scale";
               pop_on_update := None; pop_on_complete := None;
               pop_start_scale := 0.95; pop_end_scale := 1;
               pop_duration := 0.15; pop_easing := "ease_out_quad";
               fade_animation := None; scale_animation := None |}).
  fold p.
  assert (Hq : (pops w ++ [q]) !! p = Some q).
  { rewrite lookup_app_r by (unfold p; lia). unfold p.
    rewrite Nat.sub_diag. reflexivity. }
  rewrite (lookup_total_of_lookup _ _ _ Hq). cbn [pop_kind q].
  set (w1 := with_animations _ _).
  destruct (popin_first_start w1 p q Hq eq_refl)
    as (w' & E & Tr & _ & _ & _ & KF & KS & _ & _ & AF & AS).
  rewrite E. unfold pass, ret. exists w'. split; [reflexivity|].
  split.
  { pose proof (keeps_animations_popin_start p w1) as Hreg.
    rewrite E in Hreg. unfold keeps in Hreg. cbn [snd] in Hreg.
    rewrite Hreg. reflexivity. }
  split; [exact KF|]. split; [exact KS|]. split; [exact AF|].
  split; [exact AS|].
  rewrite Tr. cbn [pop_target_object pop_opacity_property pop_scale_property q].
  change (trace w1) with (trace w). change (attrs w1) with (attrs w).
  destruct (bool_decide _); reflexivity.
Qed.

Lemma button_press_drives_scale_twice_witness :
  exists w',
    animate_button_press 0 registered_button = (Val tt, w')
    /\ animations w'
       = <[("button_press_" ++ str_id 0)%string
            := Pop (length (pops registered_button))]>
           (animations registered_button)
    /\ kind (anims w' !!! length (anims registered_button))
       = FadeAnimation 0 "scale" 0 1 None
    /\ kind (anims w' !!! S (length (anims registered_button)))
       = ScaleAnimation 0 "scale" 0.95 1 None
    /\ animating (anims w' !!! length (anims registered_button)) = true
    /\ animating (anims w' !!! S (length (anims registered_button))) = true
    /\ trace w'
       = trace registered_button
         ++ (if bool_decide
                  (is_Some (attrs registered_button !! (0%nat, "scale")))
             then [Setattr 0 "scale" (VFloat 0);
                   Setattr 0 "scale" (VFloat 1.1)]
             else []).
Proof.
  apply (button_press_drives_scale_twice registered_button 0).
  - vm_compute. reflexivity.
  - vm_compute. reflexivity.
Defined.

Lemma static_update_anim (a : nat) (g : AnimationState -> AnimationState) :
  benign g -> steps static (update_anim a g).
Proof.
  intros Hg w. unfold update_anim. split; exec; try reflexivity.
  - apply length_alter.
  - intros b. rewrite list_lookup_total_alter.
    case_decide as Hd; [destruct Hd as [<- _]; apply Hg|reflexivity].
  - intros b. rewrite list_lookup_total_alter.
    case_decide as Hd; [destruct Hd as [<- _]; apply Hg|reflexivity].
  - intros b. rewrite list_lookup_total_alter.
    case_decide as Hd; [destruct Hd as [<- _]; apply Hg|reflexivity].
Qed.

Lemma static_stop (a : nat) : steps static (stop a).
Proof.
  unfold stop.
  rel_steps static_trans
    ltac:(first [ apply static_update_anim;
                    first [apply benign_set_animating | apply benign_set_timer]
                | solve [intros ?; split; reflexivity] ]).
Qed.

Lemma static_fires (libm : Libm) (ts : list nat) :
  forall w, static w (fires libm ts w).
Proof.
  unfold fires. induction ts as [|t ts IH]; intros w; [apply static_refl|].
  cbn [foldl]. eapply static_trans; [apply fire_static|apply IH].
Qed.





(** ** The keys of the registry *)

Lemma to_uint_nonnil (n : nat) : Nat.to_uint n <> Decimal.Nil.
Proof.
  rewrite <- (DecimalNat.Unsigned.of_to n) at 1.
  rewrite DecimalNat.Unsigned.to_of. apply DecimalFacts.unorm_nonnil.
Qed.

Lemma str_id_inj (n m : nat) : str_id n = str_id m -> n = m.
Proof.
  unfold str_id. intros H. apply (f_equal NilZero.uint_of_string) in H.
  rewrite !NilZero.usu in H by apply to_uint_nonnil.
  injection H as H. apply DecimalNat.Unsigned.to_uint_inj, H.
Qed.

(** The decimal numeral of an object starts with a digit. *)
Lemma str_id_digit (n : nat) (c : Ascii.ascii) (rest : string) :
  str_id n = String c rest -> is_digit c = true.
Proof.
  unfold str_id. pose proof (to_uint_nonnil n) as Hn.
  destruct (Nat.to_uint n); try (exfalso; apply Hn; reflexivity);
    cbn; intros [= <- _]; reflexivity.
Qed.

Lemma str_id_not (n : nat) (c : Ascii.ascii) (rest : string) :
  is_digit c = false -> str_id n <> String c rest.
Proof. intros Hc H. rewrite (str_id_digit n c rest H) in Hc. discriminate. Qed.

(** Stripping the common prefix of two keys. *)
Ltac strip_prefix H :=
  lazymatch type of H with
  | String ?a ?s = String ?a ?s' =>
      let H' := fresh in
      assert (H' : s = s') by congruence;
      clear H; rename H' into H; strip_prefix H
  | _ => idtac
  end.

Ltac keys_differ Hne :=
  let H := fresh in
  intros H; cbv [String.append] in H; strip_prefix H;
  first
    [ discriminate H
    | exact (Hne (str_id_inj _ _ H))
    | exact (Hne (eq_sym (str_id_inj _ _ H)))
    | solve [eapply str_id_not; [|exact H]; reflexivity]
    | solve [eapply str_id_not; [|symmetry; exact H]; reflexivity] ].

Ltac key_not_in Hne :=
  let Hin := fresh in
  intros Hin;
  repeat (apply elem_of_cons in Hin as [Hin|Hin];
          [revert Hin; keys_differ Hne|]);
  inversion Hin.

(** X14: the keys of the registry never collide.  The six template names
    and the ten keys [stop_animation] lists for each of two distinct
    objects are pairwise different strings, so a recipe finds under its
    key only what was registered for that object by that recipe; the six
    names are the keys that hold a template after
    [register_animations]. *)
Theorem recipe_keys_never_collide (obj obj' : nat) (w : World) :
  obj <> obj' ->
  NoDup (template_names ++ animation_prefixes obj ++ animation_prefixes obj')
  /\ Forall (fun name =>
               exists f, animations (snd (register_animations w)) !! name
                         = Some (Factory f))
       template_names.
Proof.
  intros Hne. split.
  - unfold template_names, animation_prefixes. cbn [app].
    repeat (apply NoDup_cons; split; [key_not_in Hne|]).
    apply NoDup_nil. exact I.
  - unfold template_names, register_animations, add_animation, pass, ret,
      bind. exec.
    repeat (apply List.Forall_cons;
            [eexists;
             repeat (rewrite lookup_insert_ne by discriminate);
             apply lookup_insert_eq|]).
    apply List.Forall_nil.
Qed.

Lemma recipe_keys_never_collide_witness :
  NoDup (template_names ++ animation_prefixes 0 ++ animation_prefixes 1)
  /\ Forall (fun name =>
               exists f, animations (snd (register_animations empty_world))
                         !! name
                         = Some (Factory f))
       template_names.
Proof.
  apply (recipe_keys_never_collide 0 1 empty_world). discriminate.
Defined.

(** ** The notification pulse *)

(** A tick of an animation that is animating and holds a pending timer
    of its own. *)
Lemma tick_running_eq (libm : Libm) (a : nat) (w : World) (t : nat)
    (tm : Timer) (s : AnimationState) :
  anims w !! a = Some s -> animating s = true -> timer s = Some t ->
  timers w !! t = Some tm -> t_owner tm = a -> t_state tm = Pending ->
  tick libm a w
  = snd (let w1 := with_anims
                     (<[a := set_current_step (current_step s + 1) s]>
                        (anims w))
                     (with_timers (<[t := set_t_state Fired tm]> (timers w))
                        w) in
         if max_steps s <=? current_step s + 1 then on_complete a w1
         else (on_frame libm a ;;; schedule_next_frame a) w1).
Proof.
  intros Hs Hrun Ht Htm Ho Hp. unfold tick.
  rewrite (lookup_total_of_lookup _ _ _ Hs), Ht.
  rewrite (fire_eq libm w t tm Htm Hp), Ho.
  rewrite (advance_running libm
             (with_timers (<[t := set_t_state Fired tm]> (timers w)) w)
             a s Hs Hrun).
  reflexivity.
Qed.

Lemma on_complete_plain (a : nat) (w : World) (s : AnimationState) :
  anims w !! a = Some s -> on_complete_attr s = None ->
  never_clears (kind s) = false ->
  on_complete a w
  = (Val tt, with_anims (<[a := set_animating false s]> (anims w)) w).
Proof.
  intros Hs Hattr Hnc. unfold on_complete. unfold_prims. exec.
  rewrite (lookup_total_of_lookup _ _ _ Hs), Hattr.
  destruct (kind s); try discriminate Hnc;
    rewrite (alter_of_lookup _ _ _ _ Hs); reflexivity.
Qed.

Lemma keeps_attrs_schedule_next_frame (a : nat) :
  steps (keeps attrs) (schedule_next_frame a).
Proof.
  unfold schedule_next_frame. rel_steps (keeps_trans attrs) keeps_base.
Qed.

(** The frame of a pulse: the triangle wave is written to
    [pulse_intensity]. *)
Lemma pulse_frame_attrs (libm : Libm) (a : nat) (w : World)
    (s : AnimationState) (o : nat) (c : Z) :
  anims w !! a = Some s -> kind s = PulseAnimation o c ->
  0 <= current_step s < max_steps s ->
  is_Some (attrs w !! (o, "pulse_intensity")) ->
  attrs (snd (on_frame libm a w)) !! (o, "pulse_intensity")
  = Some (VFloat
            (let progress :=
               PrimFloat.div (float_of_Z (current_step s))
                 (float_of_Z (max_steps s)) in
             let pulse_progress := (progress * float_of_Z c)%float in
             let pulse_phase :=
               (pulse_progress
                - float_of_Z (int_of_float pulse_progress))%float in
             (1 - PrimFloat.abs (pulse_phase * 2 - 1))%float)).
Proof.
  intros Hs Hk Hstep Hhas.
  unfold on_frame. unfold bind at 1. unfold get_anim at 1.
  rewrite (lookup_total_of_lookup _ _ _ Hs), Hk.
  unfold bind at 1. unfold eval at 1. unfold get_progress.
  destruct (Z.leb_spec (max_steps s) (current_step s)); [lia|].
  unfold int_truediv. rewrite float_div_int_nonzero by lia.
  cbv zeta. unfold bind. rewrite setattr_if_present_eq.
  rewrite bool_decide_eq_true_2 by exact Hhas.
  unfold _refresh_ui, emit. exec. apply lookup_insert_eq.
Qed.

Lemma animate_notification_first (w : World) (obj : nat) :
  animations w !! "notification_pulse" = Some (Factory notification_pulse) ->
  animations w !! ("notification_" ++ str_id obj)%string = None ->
  animate_notification obj w
  = (Val tt,
     snd (start (length (anims w))
            (with_animations
               (<[("notification_" ++ str_id obj)%string
                   := Anim (length (anims w))]> (animations w))
               (with_anims (anims w ++ [__init__ (PulseAnimation obj 3)])
                  w)))).
Proof.
  intros Hbase Hkey.
  unfold animate_notification.
  unfold contains, getitem, call, add_animation, start_animation.
  unfold bind at 1. rewrite Hkey.
  rewrite bool_decide_eq_false_2 by (intros [? ?]; discriminate).
  cbn [negb]. unfold bind at 1. unfold bind at 1. rewrite Hbase.
  unfold bind at 1. unfold call_factory, _create_pulse_animation.
  unfold new, new_anim, pass, ret.
  unfold bind. exec. rewrite lookup_insert_eq. unfold call_start.
  erewrite start_running.
  - reflexivity.
  - exec. rewrite lookup_app_r by lia. rewrite Nat.sub_diag. reflexivity.
  - discriminate.
Qed.

(** X15: a notification is left glowing.  The first
    [animate_notification] for an object registers a pulse animation
    (three pulses, duration 1.5, 10 steps) under the key of the object
    and starts it.  After the 10 ticks of its run the animation has
    completed, and [pulse_intensity] holds the value of the frame of step
    9, 0.5999999999999996: the completing tick writes no frame, and
    nothing resets the attribute to 0. *)
Theorem notification_pulse_ends_mid_pulse (libm : Libm) (w : World)
    (obj : nat) :
  animations w !! "notification_pulse" = Some (Factory notification_pulse) ->
  animations w !! ("notification_" ++ str_id obj)%string = None ->
  is_Some (attrs w !! (obj, "pulse_intensity")) ->
  let a := length (anims w) in
  let w1 := snd (animate_notification obj w) in
  let w2 := run_ticks libm a 10 w1 in
  fst (animate_notification obj w) = Val tt
  /\ animations w1 !! ("notification_" ++ str_id obj)%string = Some (Anim a)
  /\ kind (anims w1 !!! a) = PulseAnimation obj 3
  /\ duration (anims w1 !!! a) = 1.5%float
  /\ max_steps (anims w1 !!! a) = 10
  /\ animating (anims w2 !!! a) = false
  /\ current_step (anims w2 !!! a) = 10
  /\ attrs w2 !! (obj, "pulse_intensity")
     = Some (VFloat 0.5999999999999996).
Proof.
  intros Hbase Hkey Hhas a w1 w2.
  set (key := ("notification_" ++ str_id obj)%string) in *.
  set (s0 := __init__ (PulseAnimation obj 3)).
  set (w0 := with_animations (<[key := Anim a]> (animations w))
               (with_anims (anims w ++ [s0]) w)).
  assert (E : animate_notification obj w = (Val tt, snd (start a w0)))
    by (apply animate_notification_first; assumption).
  assert (Hs0 : anims w0 !! a = Some s0).
  { unfold w0. exec. rewrite lookup_app_r by (unfold a; lia).
    unfold a. rewrite Nat.sub_diag. reflexivity. }
  subst w2 w1. rewrite E. cbn [fst snd].
  split; [reflexivity|].
  assert (Hlib : needs_libm (kind s0) = true -> libm_total libm)
    by discriminate.
  (* the start *)
  pose proof (start_mid_run w0 a s0 Hs0 ltac:(discriminate)) as [S0 _ _ _ _].
  pose proof (keeps_animations_start a w0) as Hreg. unfold keeps in Hreg.
  rewrite Hreg, (lookup_total_of_lookup _ _ _ S0).
  split; [apply lookup_insert_eq|].
  split; [reflexivity|]. split; [reflexivity|]. split; [reflexivity|].
  (* eight ticks *)
  destruct (run_ticks_cases libm a s0 w0 8 Hs0 eq_refl eq_refl Hlib)
    as [[_ H8]|[Hk _]]; [|cbn in Hk; lia].
  set (w8 := run_ticks libm a 8 (snd (start a w0))) in *.
  pose proof (tick_mid_run libm a s0 w0 8 w8 Hlib H8 eq_refl) as H9.
  change (run_ticks libm a 10 (snd (start a w0)))
    with (tick libm a (tick libm a w8)).
  set (w9 := tick libm a w8) in *.
  (* the frame of step 9 *)
  assert (Hval : attrs w9 !! (obj, "pulse_intensity")
                 = Some (VFloat 0.5999999999999996)).
  { destruct H8 as [S8 _ (tm & T8 & O8 & P8) _ A8].
    unfold w9. rewrite (tick_running_eq libm a w8 _ tm _ S8 eq_refl eq_refl
                          T8 O8 P8).
    cbn zeta. exec.
    change (max_steps s0 <=? Z.of_nat 8 + 1) with false. cbv iota.
    unfold bind.
    set (s2 := set_current_step (Z.of_nat 8 + 1)
                 (set_timer (Some (length (timers w0) + 8)%nat)
                    (set_current_step (Z.of_nat 8) (set_animating true s0)))).
    set (wf := with_anims _ _).
    assert (Hs2 : anims wf !! a = Some s2).
    { unfold wf. exec. apply list_lookup_insert_eq.
      eapply lookup_lt_Some, S8. }
    pose proof (keeps_attrs_schedule_next_frame a
                  (snd (on_frame libm a wf))) as Hk.
    unfold keeps in Hk.
    pose proof (pulse_frame_attrs libm a wf s2 obj 3 Hs2 eq_refl) as Hfr.
    destruct (on_frame_returns libm wf a s2 Hs2) as (wx & Ex & _);
      [cbn; lia|discriminate|].
    rewrite Ex in *. cbn [snd] in *. rewrite Hk.
    rewrite Hfr; [vm_compute; reflexivity|cbn; lia|].
    unfold wf. exec. apply A8. unfold w0. exec. exact Hhas. }
  (* the completing tick *)
  destruct H9 as [S9 _ (tm & T9 & O9 & P9) _ _].
  rewrite (tick_running_eq libm a w9 _ tm _ S9 eq_refl eq_refl T9 O9 P9).
  cbn zeta. exec.
  change (max_steps s0 <=? Z.of_nat 9 + 1) with true. cbv iota.
  erewrite on_complete_plain; cycle 1.
  - exec. apply list_lookup_insert_eq. eapply lookup_lt_Some, S9.
  - reflexivity.
  - reflexivity.
  - exec.
    rewrite list_insert_insert_eq.
    rewrite list_lookup_total_insert_eq by (eapply lookup_lt_Some, S9).
    exec. split; [reflexivity|]. split; [reflexivity|]. exact Hval.
Qed.

Lemma notification_pulse_ends_mid_pulse_witness :
  let a := length (anims registered_notification) in
  let w1 := snd (animate_notification 0 registered_notification) in
  let w2 := run_ticks libm_id a 10 w1 in
  fst (animate_notification 0 registered_notification) = Val tt
  /\ animations w1 !! ("notification_" ++ str_id 0)%string = Some (Anim a)
  /\ kind (anims w1 !!! a) = PulseAnimation 0 3
  /\ duration (anims w1 !!! a) = 1.5%float
  /\ max_steps (anims w1 !!! a) = 10
  /\ animating (anims w2 !!! a) = false
  /\ current_step (anims w2 !!! a) = 10
  /\ attrs w2 !! (0%nat, "pulse_intensity")
     = Some (VFloat 0.5999999999999996).
Proof.
  apply (notification_pulse_ends_mid_pulse libm_id registered_notification 0).
  - vm_compute. reflexivity.
  - vm_compute. reflexivity.
  - vm_compute. eauto.
Defined.

(** ** The tab flash *)

Lemma insert_last {A} (l : list A) (x y : A) :
  <[length l := y]> (l ++ [x]) = l ++ [y].
Proof.
  induction l as [|z l IH]; [reflexivity|].
  cbn [length app].
  change (<[S (length l) := y]> (z :: ?r)) with (z :: <[length l := y]> r).
  rewrite IH. reflexivity.
Qed.

(** X16: the tab flash is created once, with its own duration.  The first
    [animate_tab_activation] for a tab allocates the fade of the
    [tab_flash] template, sets its duration to 0.2 before registering it
    under the key of the tab, and starts it: the first timer is due after
    0.2 / 10 seconds.  Nothing is written or called.  A second call
    finds the fade under the key and restarts it; it allocates
    nothing and the duration stays 0.2. *)
Theorem tab_flash_is_created_once (w : World) (obj : nat) :
  animations w !! "tab_flash" = Some (Factory tab_flash) ->
  animations w !! ("tab_flash_" ++ str_id obj)%string = None ->
  let key := ("tab_flash_" ++ str_id obj)%string in
  let a := length (anims w) in
  exists w1,
    animate_tab_activation obj w = (Val tt, w1)
    /\ animations w1 = <[key := Anim a]> (animations w)
    /\ anims w1
       = anims w
         ++ [set_timer (Some (length (timers w)))
               (set_animating true
                  (set_duration 0.2
                     (__init__ (FadeAnimation obj "flash_highlight" 0 1
                                  (Some RefreshUiLambda)))))]
    /\ timers w1
       = timers w
         ++ [{| t_owner := a; t_interval := 0.02; t_state := Pending |}]
    /\ attrs w1 = attrs w /\ trace w1 = trace w
    /\ exists w2,
         animate_tab_activation obj w1 = (Val tt, w2)
         /\ length (anims w2) = length (anims w1)
         /\ animations w2 = animations w1
         /\ duration (anims w2 !!! a) = 0.2%float
         /\ animating (anims w2 !!! a) = true
         /\ current_step (anims w2 !!! a) = 0.
Proof.
  intros Hbase Hkey key a. fold key in Hkey.
  set (s0 := set_duration 0.2
               (__init__ (FadeAnimation obj "flash_highlight" 0 1
                            (Some RefreshUiLambda)))).
  set (w0 := with_animations (<[key := Anim a]> (animations w))
               (with_anims (anims w ++ [s0]) w)).
  assert (Hs0 : anims w0 !! a = Some s0).
  { unfold w0. exec. rewrite lookup_app_r by (unfold a; lia).
    unfold a. rewrite Nat.sub_diag. reflexivity. }
  assert (E : animate_tab_activation obj w = (Val tt, snd (start a w0))).
  { unfold animate_tab_activation. fold key.
    unfold contains, getitem, call, add_animation, start_animation.
    unfold bind at 1. rewrite Hkey.
    rewrite bool_decide_eq_false_2 by (intros [? ?]; discriminate).
    cbn [negb]. unfold bind at 1. unfold bind at 1. rewrite Hbase.
    unfold bind at 1. unfold call_factory, new, new_anim.
    unfold bind at 1. unfold ret at 1. unfold bind at 1.
    unfold set_duration_attr, update_anim. unfold bind at 1.
    unfold pass at 1. unfold ret at 1. unfold bind at 1. exec.
    rewrite lookup_insert_eq. unfold call_start, pass, ret.
    assert (Hal : alter (set_duration 0.2) (length (anims w))
                    (anims w
                     ++ [__init__ (FadeAnimation obj "flash_highlight" 0 1
                                     (Some RefreshUiLambda))])
                  = anims w ++ [s0]).
    { rewrite (alter_of_lookup _ _ _
                 (__init__ (FadeAnimation obj "flash_highlight" 0 1
                              (Some RefreshUiLambda)))).
      - apply insert_last.
      - rewrite lookup_app_r by lia. rewrite Nat.sub_diag. reflexivity. }
    rewrite Hal. unfold bind. exec.
    rewrite (start_running w0 a s0 Hs0) by discriminate.
    erewrite start_running.
    - reflexivity.
    - exact Hs0.
    - discriminate. }
  rewrite E. rewrite (start_running w0 a s0 Hs0) by discriminate.
  cbn [snd]. eexists. split; [reflexivity|]. exec.
  assert (Hins : <[a := set_timer (Some (length (timers w)))
                          (set_current_step 0 (set_animating true s0))]>
                   (anims w ++ [s0])
                 = anims w
                   ++ [set_timer (Some (length (timers w)))
                         (set_animating true s0)]).
  { unfold a. apply insert_last. }
  split; [reflexivity|]. split; [exact Hins|].
  split; [f_equal; f_equal; vm_compute; reflexivity|].
  split; [reflexivity|]. split; [reflexivity|].
  (* the second call *)
  set (w1 := with_anims _ _).
  set (s1 := set_timer (Some (length (timers w)))
               (set_current_step 0 (set_animating true s0))).
  assert (Hs1 : anims w1 !! a = Some s1).
  { unfold w1. exec. apply list_lookup_insert_eq.
    eapply lookup_lt_Some, Hs0. }
  assert (Hk1 : animations w1 !! key = Some (Anim a))
    by (unfold w1; exec; apply lookup_insert_eq).
  assert (E2 : animate_tab_activation obj w1 = (Val tt, snd (start a w1))).
  { unfold animate_tab_activation. fold key.
    unfold contains, start_animation.
    unfold bind at 1. rewrite Hk1.
    rewrite bool_decide_eq_true_2 by eauto.
    cbn [negb]. unfold pass, ret, bind. rewrite Hk1. unfold call_start.
    rewrite (start_running w1 a s1 Hs1) by discriminate. reflexivity. }
  rewrite E2. rewrite (start_running w1 a s1 Hs1) by discriminate.
  cbn [snd]. eexists. split; [reflexivity|]. exec.
  split; [apply length_insert|]. split; [reflexivity|].
  rewrite list_lookup_total_insert_eq by (eapply lookup_lt_Some, Hs1).
  repeat split.
Qed.

Lemma tab_flash_is_created_once_witness :
  let key := ("tab_flash_" ++ str_id 0)%string in
  let a := length (anims registered_toggles) in
  exists w1,
    animate_tab_activation 0 registered_toggles = (Val tt, w1)
    /\ animations w1 = <[key := Anim a]> (animations registered_toggles)
    /\ anims w1
       = anims registered_toggles
         ++ [set_timer (Some (length (timers registered_toggles)))
               (set_animating true
                  (set_duration 0.2
                     (__init__ (FadeAnimation 0 "flash_highlight" 0 1
                                  (Some RefreshUiLambda)))))]
    /\ timers w1
       = timers registered_toggles
         ++ [{| t_owner := a; t_interval := 0.02; t_state := Pending |}]
    /\ attrs w1 = attrs registered_toggles
    /\ trace w1 = trace registered_toggles
    /\ exists w2,
         animate_tab_activation 0 w1 = (Val tt, w2)
         /\ length (anims w2) = length (anims w1)
         /\ animations w2 = animations w1
         /\ duration (anims w2 !!! a) = 0.2%float
         /\ animating (anims w2 !!! a) = true
         /\ current_step (anims w2 !!! a) = 0.
Proof.
  apply (tab_flash_is_created_once registered_toggles 0).
  - vm_compute. reflexivity.
  - vm_compute. reflexivity.
Defined.

(** ** Restarting without a leak *)

(** X17: [stop()] before [start()] restarts an animation without leaking
    a timer.  When the animation holds a pending timer, [stop()] followed
    by [start()] returns, cancels that timer, and leaves the animation
    animating at step 0 with a new timer; it has as many pending timers
    as before, where [start()] alone leaves it with one more. *)
Theorem stop_then_start_keeps_timer_count (w : World) (a : nat)
    (s : AnimationState) (t : nat) (tm : Timer) :
  anims w !! a = Some s -> max_steps s <> 0 ->
  timer s = Some t -> timers w !! t = Some tm ->
  t_owner tm = a -> t_state tm = Pending ->
  exists w',
    (stop a ;;; start a) w = (Val tt, w')
    /\ animating (anims w' !!! a) = true
    /\ current_step (anims w' !!! a) = 0
    /\ timers w' !! t = Some (set_t_state Cancelled tm)
    /\ timer (anims w' !!! a) = Some (length (timers w))
    /\ length (pending_timers a w') = length (pending_timers a w)
    /\ length (pending_timers a (snd (start a w)))
       = S (length (pending_timers a w)).
Proof.
  intros Ha Hm Ht Htm Ho Hp.
  assert (Hlt : (a < length (anims w))%nat) by (eapply lookup_lt_Some, Ha).
  assert (Htl : (t < length (timers w))%nat) by (eapply lookup_lt_Some, Htm).
  unfold bind. rewrite stop_eq. cbn zeta.
  rewrite (alter_of_lookup _ _ _ _ Ha).
  rewrite (lookup_total_of_lookup _ a _ (list_lookup_insert_eq _ _ _ Hlt)).
  change (timer (set_animating false s)) with (timer s). rewrite Ht.
  rewrite (alter_of_lookup _ (<[a:=_]> _) a _
             (list_lookup_insert_eq _ _ _ Hlt)).
  rewrite list_insert_insert_eq.
  rewrite (alter_of_lookup _ _ _ _ Htm).
  assert (Hc : cancel_timer tm = set_t_state Cancelled tm)
    by (unfold cancel_timer; rewrite Hp; reflexivity).
  rewrite Hc.
  set (s1 := set_timer None (set_animating false s)).
  set (w1 := with_anims _ _).
  assert (Hs1 : anims w1 !! a = Some s1)
    by (apply list_lookup_insert_eq, Hlt).
  rewrite (start_running w1 a s1 Hs1 Hm).
  eexists. split; [reflexivity|]. unfold w1. exec.
  rewrite list_insert_insert_eq.
  rewrite (lookup_total_of_lookup _ a _ (list_lookup_insert_eq _ _ _ Hlt)).
  exec. rewrite length_insert.
  split; [reflexivity|]. split; [reflexivity|].
  split.
  { rewrite lookup_app_l by (rewrite length_insert; exact Htl).
    apply list_lookup_insert_eq, Htl. }
  split; [reflexivity|].
  assert (Hpa : is_pending_of a tm = true)
    by (unfold is_pending_of; rewrite Ho, Hp, Nat.eqb_refl; reflexivity).
  split.
  - unfold pending_timers. exec.
    rewrite List.filter_app, length_app.
    pose proof (filter_insert_length (is_pending_of a) (timers w) t tm
                  (set_t_state Cancelled tm) Htm) as Hcnt.
    rewrite Hpa in Hcnt.
    assert (Hpc : is_pending_of a (set_t_state Cancelled tm) = false)
      by (unfold is_pending_of; exec; apply andb_false_r).
    rewrite Hpc in Hcnt.
    cbn [List.filter]. rewrite new_timer_is_pending. cbn [length]. lia.
  - rewrite (start_running w a s Ha Hm). cbn [snd].
    rewrite pending_timers_with_anims, pending_timers_app, length_app.
    cbn [List.filter]. rewrite new_timer_is_pending. cbn [length]. lia.
Qed.

Lemma stop_then_start_keeps_timer_count_witness :
  exists w',
    (stop 0 ;;; start 0) restarted_fade = (Val tt, w')
    /\ animating (anims w' !!! 0%nat) = true
    /\ current_step (anims w' !!! 0%nat) = 0
    /\ timers w' !! 0%nat
       = Some (set_t_state Cancelled (timers restarted_fade !!! 0%nat))
    /\ timer (anims w' !!! 0%nat) = Some (length (timers restarted_fade))
    /\ length (pending_timers 0 w')
       = length (pending_timers 0 restarted_fade)
    /\ length (pending_timers 0 (snd (start 0 restarted_fade)))
       = S (length (pending_timers 0 restarted_fade)).
Proof.
  apply (stop_then_start_keeps_timer_count restarted_fade 0
           (anims restarted_fade !!! 0%nat) 0
           (timers restarted_fade !!! 0%nat)).
  - reflexivity.
  - discriminate.
  - reflexivity.
  - reflexivity.
  - reflexivity.
  - reflexivity.
Defined.

(** ** The interface of MicroAnimations never raises *)

Lemma sound_refl (w : World) : sound w w.
Proof. intros e H. exact H. Qed.

(** The frame counts of the classes: 10, and [blink_count * 2]. *)
Ltac divisor_steps := split; [discriminate|vm_compute; reflexivity].

Lemma sound_trans (w1 w2 w3 : World) : sound w1 w2 -> sound w2 w3 -> sound w1 w3.
Proof. intros H12 H23 e H. apply H23, H12, H. Qed.

Lemma startable_static (w w' : World) (a : nat) :
  static w w' -> startable w a -> startable w' a.
Proof.
  intros [_ _ L _ Mx _] [Hlt Hm]. split; [rewrite L; exact Hlt|].
  rewrite Mx. exact Hm.
Qed.

Lemma sound_static (w w' : World) : static w w' -> sound w w'.
Proof.
  intros Hst [a|p|f]; cbn [entry_ok]; [apply startable_static, Hst| |trivial].
  pose proof Hst as [P _ _ _ _ _]. rewrite P.
  intros (Hp & Hk & Hf & Hs). split; [exact Hp|]. split; [exact Hk|].
  split; intros x Hx; eapply startable_static; eauto.
Qed.

(** Appending animations keeps the old ones startable. *)
Lemma startable_app (w w' : World) (extra : list AnimationState) (a : nat) :
  anims w' = anims w ++ extra -> startable w a -> startable w' a.
Proof.
  intros E [Hlt Hm]. split; rewrite E.
  - rewrite length_app. lia.
  - rewrite lookup_total_app_l by exact Hlt. exact Hm.
Qed.

Lemma registry_ok_sound (w w' : World) :
  animations w' = animations w -> sound w w' ->
  registry_ok w -> registry_ok w'.
Proof.
  intros Ha Hs [Ht He]. split.
  - intros name Hn. rewrite Ha. apply Ht, Hn.
  - intros key e Hk Hl. rewrite Ha in Hl. apply Hs, (He key e Hk Hl).
Qed.

Lemma registry_ok_static (w w' : World) :
  static w w' -> registry_ok w -> registry_ok w'.
Proof.
  intros Hst. apply registry_ok_sound; [apply Hst|apply sound_static, Hst].
Qed.

(** Registering a startable entry under a key that is no template
    name. *)
Lemma registry_ok_insert (w : World) (key : string) (e : entry) :
  key ∉ template_names -> entry_ok w e -> registry_ok w ->
  registry_ok (with_animations (<[key := e]> (animations w)) w).
Proof.
  intros Hk He [Ht Hen]. split; exec.
  - intros name Hn. rewrite lookup_insert_ne by (intros ->; exact (Hk Hn)).
    apply Ht, Hn.
  - intros key' e' Hk' Hl. destruct (decide (key = key')) as [<-|Hne].
    + rewrite lookup_insert_eq in Hl. injection Hl as <-. exact He.
    + rewrite lookup_insert_ne in Hl by exact Hne. exact (Hen key' e' Hk' Hl).
Qed.

Lemma registry_ok_delete (w : World) (key : string) :
  key ∉ template_names -> registry_ok w ->
  registry_ok (with_animations (delete key (animations w)) w).
Proof.
  intros Hk [Ht Hen]. split; exec.
  - intros name Hn. rewrite lookup_delete_ne by (intros ->; exact (Hk Hn)).
    apply Ht, Hn.
  - intros key' e' Hk' Hl. destruct (decide (key = key')) as [<-|Hne].
    + rewrite lookup_delete_eq in Hl. discriminate Hl.
    + rewrite lookup_delete_ne in Hl by exact Hne. exact (Hen key' e' Hk' Hl).
Qed.

(** [start()] on a startable animation. *)
Lemma start_startable (w : World) (a : nat) :
  startable w a ->
  exists w', start a w = (Val tt, w') /\ static w w'
             /\ attrs w' = attrs w /\ trace w' = trace w.
Proof.
  intros [Hlt [Hm _]]. destruct (lookup_lt_is_Some_2 _ _ Hlt) as [s Hs].
  rewrite (lookup_total_of_lookup _ _ _ Hs) in Hm.
  pose proof (frame_static _ _ _ (frame_start a w)) as Hst.
  rewrite (start_running w a s Hs Hm) in *. cbn [snd] in Hst.
  eexists. split; [reflexivity|]. split; [exact Hst|]. split; reflexivity.
Qed.

(** The part of [PopInAnimation.start] that follows the creation of the
    children, when both exist and can be started. *)
Lemma popin_start_children_ok (p f sc : nat) (w : World) :
  fade_animation (pops w !!! p) = Some f ->
  scale_animation (pops w !!! p) = Some sc ->
  startable w f -> startable w sc ->
  exists w', popin_start_children p w = (Val tt, w') /\ static w w'.
Proof.
  intros Hf Hsc Sf Ssc. unfold popin_start_children.
  unfold bind at 1. unfold get_pop at 1. rewrite Hf, Hsc.
  destruct (setattr_if_present_returns (pop_target_object (pops w !!! p))
              (pop_opacity_property (pops w !!! p)) (VFloat 0) w)
    as (wa & Ea & Sa).
  destruct (setattr_if_present_returns (pop_target_object (pops w !!! p))
              (pop_scale_property (pops w !!! p)) (VFloat 1.1) wa)
    as (wb & Eb & Sb).
  pose proof (static_trans _ _ _ (surface_static _ _ Sa)
                (surface_static _ _ Sb)) as Hab.
  destruct (start_startable wb f (startable_static _ _ _ Hab Sf))
    as (wc & Ec & Hc & _).
  pose proof (static_trans _ _ _ Hab Hc) as Hac.
  destruct (start_startable wc sc (startable_static _ _ _ Hac Ssc))
    as (wd & Ed & Hd & _).
  exists wd. split; [|eapply static_trans; eassumption].
  unfold bind. rewrite Ea, Eb, Ec, Ed. reflexivity.
Qed.

(** The first [start()] of a registered pop-in: the children are created
    and started. *)
Lemma popin_create_and_start_ok (w : World) (p : nat) (q : PopAnimation) :
  pops w !! p = Some q -> pop_kind q = PopIn ->
  exists w',
    (PopInAnimation.create_animations p ;;; popin_start_children p) w
    = (Val tt, w')
    /\ sound w w'.
Proof.
  intros Hq Hkind.
  assert (Hp : (p < length (pops w))%nat) by (eapply lookup_lt_Some, Hq).
  unfold bind at 1. rewrite (popin_create_animations_eq p w q Hq).
  set (n := length (anims w)).
  set (F := set_duration (pop_duration q) _).
  set (SC := set_duration (pop_duration q * 0.8)%float _).
  set (w1 := with_anims _ _).
  assert (Hq1 : pops w1 !!! p = set_children (Some n) (Some (S n)) q).
  { apply lookup_total_of_lookup. unfold w1. exec.
    apply list_lookup_insert_eq, Hp. }
  assert (Sn : startable w1 n).
  { split; unfold w1; exec; [rewrite length_app; cbn; unfold n; lia|].
    rewrite lookup_total_app_r by (unfold n; lia).
    unfold n. rewrite Nat.sub_diag. divisor_steps. }
  assert (SSn : startable w1 (S n)).
  { split; unfold w1; exec; [rewrite length_app; cbn; unfold n; lia|].
    rewrite lookup_total_app_r by (unfold n; lia).
    replace (S n - length (anims w))%nat with 1%nat by (unfold n; lia).
    divisor_steps. }
  assert (Hs1 : sound w w1).
  { intros [a|p'|g]; cbn [entry_ok].
    - apply (startable_app w w1 [F; SC]). reflexivity.
    - intros (Hp' & Hk' & Hf' & Hs').
      change (pops w1)
        with (<[p := set_children (Some n) (Some (S n)) q]> (pops w)).
      rewrite length_insert. split; [exact Hp'|].
      destruct (decide (p = p')) as [<-|Hne].
      + rewrite (list_lookup_total_insert_eq _ p) by exact Hp.
        split; [exact Hkind|]. split; intros x [= <-]; assumption.
      + rewrite list_lookup_total_insert_ne by exact Hne.
        split; [exact Hk'|].
        split; intros x Hx;
          (apply (startable_app w w1 [F; SC]); [reflexivity|eauto]).
    - trivial. }
  assert (Hf1 : fade_animation (pops w1 !!! p) = Some n)
    by (rewrite Hq1; reflexivity).
  assert (Hsc1 : scale_animation (pops w1 !!! p) = Some (S n))
    by (rewrite Hq1; reflexivity).
  destruct (popin_start_children_ok p n (S n) w1 Hf1 Hsc1 Sn SSn)
    as (w' & E & Hst).
  exists w'. split; [exact E|].
  eapply sound_trans; [exact Hs1|apply sound_static, Hst].
Qed.

(** [start()] on a registered pop-in returns, whether or not its
    children exist yet. *)
Lemma popin_start_ok (w : World) (p : nat) :
  entry_ok w (Pop p) ->
  exists w', PopInAnimation.start p w = (Val tt, w') /\ sound w w'.
Proof.
  intros (Hp & Hkind & Hfade & Hscale).
  destruct (lookup_lt_is_Some_2 _ _ Hp) as [q Hq].
  pose proof (lookup_total_of_lookup _ _ _ Hq) as Hq'.
  change (PopInAnimation.start p)
    with (self <- get_pop p ;;
          (match fade_animation self, scale_animation self with
           | Some _, Some _ => pass
           | _, _ => PopInAnimation.create_animations p
           end) ;;; popin_start_children p).
  unfold bind at 1. unfold get_pop at 1.
  destruct (fade_animation (pops w !!! p)) as [f|] eqn:Ef;
    [destruct (scale_animation (pops w !!! p)) as [sc|] eqn:Es|].
  - unfold bind at 1, pass at 1, ret at 1.
    destruct (popin_start_children_ok p f sc w Ef Es (Hfade f eq_refl)
                (Hscale sc eq_refl)) as (w' & E & Hst).
    exists w'. split; [exact E|apply sound_static, Hst].
  - apply (popin_create_and_start_ok w p q Hq). rewrite <- Hq'. exact Hkind.
  - apply (popin_create_and_start_ok w p q Hq). rewrite <- Hq'. exact Hkind.
Qed.

Lemma sound_anims_app (w w' : World) (extra : list AnimationState) :
  anims w' = anims w ++ extra -> pops w' = pops w -> sound w w'.
Proof.
  intros Ea Ep [a|p|f]; cbn [entry_ok]; [apply (startable_app w w' extra _ Ea)|
                                         |trivial].
  rewrite Ep. intros (Hp & Hk & Hf & Hs). split; [exact Hp|].
  split; [exact Hk|].
  split; intros x Hx; (apply (startable_app w w' extra _ Ea); eauto).
Qed.

Lemma sound_pops_app (w w' : World) (extra : list PopAnimation) :
  anims w' = anims w -> pops w' = pops w ++ extra -> sound w w'.
Proof.
  intros Ea Ep [a|p|f]; cbn [entry_ok]; unfold startable; rewrite ?Ea;
    [trivial| |trivial].
  rewrite Ep. intros (Hp & Hk & Hf & Hs).
  rewrite length_app, (lookup_total_app_l _ _ _ Hp).
  split; [lia|]. split; [exact Hk|]. split; assumption.
Qed.

Lemma sound_alter_pop (w : World) (p : nat)
    (g : PopAnimation -> PopAnimation) :
  (forall q, pop_kind (g q) = pop_kind q
             /\ fade_animation (g q) = fade_animation q
             /\ scale_animation (g q) = scale_animation q) ->
  sound w (snd (update_pop p g w)).
Proof.
  intros Hg [a|p'|f]; cbn [entry_ok]; [trivial| |trivial].
  unfold update_pop. exec. rewrite length_alter, list_lookup_total_alter.
  intros (Hp & Hk & Hf & Hs). split; [exact Hp|].
  case_decide as Hd; [destruct Hd as [<- _]|];
    [destruct (Hg (pops w !!! p)) as (-> & -> & ->)|];
    (split; [exact Hk|]; split; assumption).
Qed.

(** [entry.start()] on a startable entry. *)
Lemma call_start_ok (w : World) (e : entry) :
  entry_ok w e ->
  exists w', call_start e w = (Val tt, w') /\ sound w w'
             /\ animations w' = animations w.
Proof.
  destruct e as [a|p|f]; cbn [entry_ok call_start]; [| |intros []].
  - intros Ha. destruct (start_startable w a Ha) as (w' & E & Hst & _).
    exists w'. split; [exact E|]. split; [apply sound_static, Hst|].
    apply Hst.
  - intros Hp. pose proof Hp as (_ & Hk & _).
    unfold bind. unfold get_pop. rewrite Hk.
    destruct (popin_start_ok w p Hp) as (w' & E & Hs).
    exists w'. split; [exact E|]. split; [exact Hs|].
    pose proof (keeps_animations_popin_start p w) as Hr.
    rewrite E in Hr. exact Hr.
Qed.

(** What a template returns can be started. *)
Lemma call_factory_ok (f : factory) (obj : nat) (w : World) :
  exists e w1,
    call_factory f obj w = (Val e, w1)
    /\ animations w1 = animations w /\ sound w w1 /\ entry_ok w1 e.
Proof.
  destruct f; unfold call_factory, PopInAnimation.__init__,
    _create_pulse_animation, new, new_anim, new_pop, bind, ret;
    eexists _, _; (split; [reflexivity|]); (split; [reflexivity|]).
  1: { split; [eapply sound_pops_app; reflexivity|].
       cbn [entry_ok]. exec. rewrite length_app.
       rewrite lookup_total_app_r by lia. rewrite Nat.sub_diag.
       cbn. split; [lia|]. split; [reflexivity|]. split; discriminate. }
  all: split; [eapply sound_anims_app; reflexivity|];
    cbn [entry_ok]; split; exec;
    [ rewrite length_app; cbn; lia
    | rewrite lookup_total_app_r by lia; rewrite Nat.sub_diag;
      divisor_steps ].
Qed.

Lemma benign_set_duration d : benign (set_duration d).
Proof. intros s. repeat split. Qed.

Lemma entry_ok_with_animations (w : World) (m : gmap string entry)
    (e : entry) :
  entry_ok (with_animations m w) e <-> entry_ok w e.
Proof. destruct e; reflexivity. Qed.

(** [obj.duration = d] on a startable entry. *)
Lemma set_duration_attr_ok (e : entry) (d : float) (w : World) :
  entry_ok w e ->
  exists w1,
    set_duration_attr e d w = (Val tt, w1)
    /\ animations w1 = animations w /\ sound w w1 /\ entry_ok w1 e.
Proof.
  intros He. destruct e as [a|p|f]; [| |destruct He];
    unfold set_duration_attr; eexists; (split; [reflexivity|]);
    (split; [reflexivity|]).
  - pose proof (sound_static _ _
                  (static_update_anim a _ (benign_set_duration d) w)) as Hs.
    split; [exact Hs|apply (Hs (Anim a)), He].
  - pose proof (sound_alter_pop w p (set_pop_duration d)
                  ltac:(intros q; repeat split)) as Hs.
    split; [exact Hs|apply (Hs (Pop p)), He].
Qed.

(** A recipe of the common shape returns and keeps the registry in
    order, provided its template call does. *)
Lemma recipe_shape_ok (key : string) (make : M entry) (w : World) :
  key ∉ template_names -> registry_ok w ->
  (exists e w1, make w = (Val e, w1) /\ animations w1 = animations w
                /\ sound w w1 /\ entry_ok w1 e) ->
  exists w', recipe_shape key make w = (Val tt, w') /\ registry_ok w'.
Proof.
  intros Hk Hok Hmake. unfold recipe_shape, contains.
  unfold bind at 1.
  destruct (animations w !! key) as [e|] eqn:He.
  - rewrite bool_decide_eq_true_2 by eauto. cbn [negb].
    unfold bind at 1, pass at 1, ret at 1. unfold bind, start_animation.
    rewrite He. unfold bind.
    destruct (call_start_ok w e (ro_entries w Hok key e Hk He))
      as (w' & E & Hs & Ha).
    rewrite E. unfold ret, pass. exists w'. split; [reflexivity|].
    exact (registry_ok_sound w w' Ha Hs Hok).
  - rewrite bool_decide_eq_false_2 by (intros [? ?]; discriminate).
    cbn [negb]. destruct Hmake as (e & w1 & Em & Ha1 & Hs1 & He1).
    unfold bind at 1. unfold bind at 1. rewrite Em.
    unfold bind at 1. unfold add_animation at 1. unfold pass at 1, ret at 1.
    set (w2 := with_animations (<[key := e]> (animations w1)) w1).
    assert (Hok2 : registry_ok w2).
    { apply registry_ok_insert; [exact Hk|exact He1|].
      exact (registry_ok_sound w w1 Ha1 Hs1 Hok). }
    unfold bind, start_animation.
    assert (Hl : animations w2 !! key = Some e) by apply lookup_insert_eq.
    rewrite Hl. unfold bind.
    destruct (call_start_ok w2 e) as (w' & E & Hs & Ha).
    { apply entry_ok_with_animations, He1. }
    rewrite E. unfold ret, pass. exists w'. split; [reflexivity|].
    exact (registry_ok_sound w2 w' Ha Hs Hok2).
Qed.

(** Calling the template registered under a template name. *)
Lemma template_call_ok (base : string) (obj : nat) (w : World) :
  registry_ok w -> base ∈ template_names ->
  exists e w1,
    (f <- getitem base ;; call f obj) w = (Val e, w1)
    /\ animations w1 = animations w /\ sound w w1 /\ entry_ok w1 e.
Proof.
  intros Hok Hb. destruct (ro_templates w Hok base Hb) as [f Hf].
  unfold bind, getitem. rewrite Hf. unfold call.
  apply call_factory_ok.
Qed.

(** The keys of an object are no template names. *)
Lemma prefix_not_template (obj : nat) (key : string) :
  key ∈ animation_prefixes obj -> key ∉ template_names.
Proof.
  unfold animation_prefixes, template_names. intros Hin.
  repeat (apply elem_of_cons in Hin as [->|Hin]; [key_not_in I|]).
  inversion Hin.
Qed.

Ltac recipe_key :=
  eapply prefix_not_template;
  unfold animation_prefixes; repeat constructor.

(** Each recipe has the common shape. *)
Ltac recipe_is_shape :=
  intros; unfold recipe_shape, contains, bind;
  destruct (bool_decide _); cbn [negb]; [reflexivity|];
  match goal with
  | |- context [getitem ?base ?w] =>
      destruct (getitem base w) as [[f|e] w1]; [|reflexivity]
  end;
  match goal with
  | |- context [call ?f ?obj ?w] =>
      destruct (call f obj w) as [[x|e] w2]; [|reflexivity]
  end;
  try match goal with
      | |- context [set_duration_attr ?x ?d ?w] =>
          destruct (set_duration_attr x d w) as [[[]|e] w3]
      end;
  reflexivity.

Lemma animate_button_press_shape (obj : nat) (w : World) :
  animate_button_press obj w
  = recipe_shape ("button_press_" ++ str_id obj)
      (f <- getitem "button_press" ;; call f obj) w.
Proof. unfold animate_button_press. recipe_is_shape. Qed.

Lemma animate_toggle_shape (obj : nat) (state : bool) (w : World) :
  animate_toggle obj state w
  = recipe_shape ("toggle_" ++ str_id obj)
      (f <- getitem (if state then "toggle_on" else "toggle_off") ;;
       call f obj) w.
Proof. unfold animate_toggle. recipe_is_shape. Qed.

Lemma animate_panel_focus_shape (obj : nat) (w : World) :
  animate_panel_focus obj w
  = recipe_shape ("panel_focus_" ++ str_id obj)
      (f <- getitem "panel_focus" ;; call f obj) w.
Proof. unfold animate_panel_focus. recipe_is_shape. Qed.

Lemma animate_notification_shape (obj : nat) (w : World) :
  animate_notification obj w
  = recipe_shape ("notification_" ++ str_id obj)
      (f <- getitem "notification_pulse" ;; call f obj) w.
Proof. unfold animate_notification. recipe_is_shape. Qed.

Lemma animate_tab_activation_shape (obj : nat) (w : World) :
  animate_tab_activation obj w
  = recipe_shape ("tab_flash_" ++ str_id obj)
      (f <- getitem "tab_flash" ;; x <- call f obj ;;
       set_duration_attr x 0.2 ;;; ret x) w.
Proof. unfold animate_tab_activation. recipe_is_shape. Qed.

Lemma static_call_stop (e : entry) : steps static (call_stop e).
Proof.
  unfold call_stop, PopInAnimation.stop, PopOutAnimation.stop.
  rel_steps static_trans
    ltac:(first [ apply static_stop
                | solve [intros ?; split; reflexivity] ]).
Qed.

Lemma static_stop_all_animations (order : list string) :
  steps static (stop_all_animations order).
Proof.
  unfold stop_all_animations.
  induction order as [|name order IH]; cbn [for_each].
  - intros w. apply static_refl.
  - apply steps_bind; [exact static_trans| |intros _; exact IH].
    intros w. destruct (animations w !! name);
      [apply static_call_stop|apply static_refl].
Qed.

(** [animate_search_navigation] on a registry in order. *)
Lemma search_navigation_ok (obj : nat) (w : World) :
  registry_ok w ->
  exists w', animate_search_navigation obj w = (Val tt, w')
             /\ registry_ok w'.
Proof.
  intros Hok.
  set (key := ("search_nav_" ++ str_id obj)%string).
  assert (Hk : key ∉ template_names) by recipe_key.
  assert (Htail : forall w1, registry_ok w1 ->
            exists w',
              (nav_anim <- new (NavigationAnimation obj) ;;
               add_animation key (Anim nav_anim) ;;;
               start_animation key ;;; pass) w1 = (Val tt, w')
              /\ registry_ok w').
  { intros w1 Hok1. rewrite (search_navigation_tail w1 obj key).
    set (w2 := with_anims (anims w1 ++ [__init__ (NavigationAnimation obj)])
                 w1).
    assert (Hs2 : sound w1 w2) by (eapply sound_anims_app; reflexivity).
    assert (Hn : entry_ok w2 (Anim (length (anims w1)))).
    { split; unfold w2; exec; [rewrite length_app; cbn; lia|].
      rewrite lookup_total_app_r by lia. rewrite Nat.sub_diag.
      divisor_steps. }
    pose proof (registry_ok_insert w2 key _ Hk Hn
                  (registry_ok_sound w1 w2 eq_refl Hs2 Hok1)) as Hok3.
    set (w3 := with_animations
                 (<[key := Anim (length (anims w1))]> (animations w1)) w2)
      in *.
    assert (Hn3 : startable w3 (length (anims w1)))
      by (destruct Hn; split; assumption).
    destruct (start_startable w3 (length (anims w1)) Hn3)
      as (w' & E & Hst & _).
    rewrite E. exists w'. split; [reflexivity|].
    exact (registry_ok_static _ _ Hst Hok3). }
  unfold animate_search_navigation. fold key. unfold contains.
  unfold bind at 1.
  destruct (animations w !! key) as [e|] eqn:He.
  - rewrite bool_decide_eq_true_2 by eauto.
    pose proof (ro_entries w Hok key e Hk He) as Hen.
    destruct (call_stop_returns e w) as (w1 & E1 & _).
    { intros f ->. exact Hen. }
    pose proof (static_call_stop e w) as Hst. rewrite E1 in Hst.
    unfold bind at 1. unfold bind at 1. unfold remove_animation at 1.
    rewrite He. unfold bind at 1. rewrite E1.
    unfold bind at 1. unfold ret at 1. unfold pass at 1, ret at 1.
    apply Htail. apply registry_ok_delete; [exact Hk|].
    exact (registry_ok_static _ _ Hst Hok).
  - rewrite bool_decide_eq_false_2 by (intros [? ?]; discriminate).
    unfold bind at 1. unfold pass at 1, ret at 1.
    apply Htail, Hok.
Qed.

(** [MicroAnimations.stop_animation] on a registry in order. *)
Lemma micro_stop_animation_ok (obj : nat) (w : World) :
  registry_ok w ->
  exists w', MicroAnimations.stop_animation obj w = (Val tt, w')
             /\ registry_ok w'.
Proof.
  intros Hok. rewrite micro_stop_animation_eq.
  destruct (stop_all_animations_returns (animation_prefixes obj) w)
    as (w' & E & _).
  { apply Forall_forall. intros key Hin f Hf.
    exact (ro_entries w Hok key _ (prefix_not_template obj key Hin) Hf). }
  exists w'. split; [exact E|].
  pose proof (static_stop_all_animations (animation_prefixes obj) w) as Hst.
  rewrite E in Hst. exact (registry_ok_static _ _ Hst Hok).
Qed.

(** Every call of the interface returns and keeps the registry in
    order. *)
Lemma api_step_ok (libm : Libm) (c : api_call) (w : World) :
  registry_ok w ->
  exists w', api_step libm c w = (Val tt, w') /\ registry_ok w'.
Proof.
  intros Hok. destruct c as [obj|obj state|obj|obj|obj|obj|obj|t];
    cbn [api_step].
  - rewrite animate_button_press_shape.
    apply recipe_shape_ok; [recipe_key|exact Hok|].
    apply template_call_ok; [exact Hok|]. repeat constructor.
  - rewrite animate_toggle_shape.
    apply recipe_shape_ok; [recipe_key|exact Hok|].
    apply template_call_ok; [exact Hok|].
    destruct state; repeat constructor.
  - rewrite animate_panel_focus_shape.
    apply recipe_shape_ok; [recipe_key|exact Hok|].
    apply template_call_ok; [exact Hok|]. repeat constructor.
  - rewrite animate_notification_shape.
    apply recipe_shape_ok; [recipe_key|exact Hok|].
    apply template_call_ok; [exact Hok|]. repeat constructor.
  - rewrite animate_tab_activation_shape.
    apply recipe_shape_ok; [recipe_key|exact Hok|].
    destruct (template_call_ok "tab_flash" obj w Hok)
      as (e & w1 & E1 & A1 & S1 & O1); [repeat constructor|].
    destruct (set_duration_attr_ok e 0.2 w1 O1) as (w2 & E2 & A2 & S2 & O2).
    exists e, w2. split.
    + unfold bind in *.
      destruct (getitem "tab_flash" w) as [[f|x] w0]; [|discriminate E1].
      rewrite E1, E2. reflexivity.
    + split; [congruence|]. split; [|exact O2].
      eapply sound_trans; eassumption.
  - apply search_navigation_ok, Hok.
  - apply micro_stop_animation_ok, Hok.
  - eexists. split; [reflexivity|].
    exact (registry_ok_static _ _ (fire_static libm w t) Hok).
Qed.

Lemma in_place_call_start (e : entry) : steps in_place (call_start e).
Proof.
  unfold call_start.
  rel_steps in_place_trans
    ltac:(first [ apply in_place_start | apply in_place_popin_start
                | apply in_place_popout_start | in_place_base ]).
Qed.

Lemma in_place_call_stop (e : entry) : steps in_place (call_stop e).
Proof.
  unfold call_stop.
  rel_steps in_place_trans
    ltac:(first [ apply in_place_stop | apply in_place_popin_stop
                | apply in_place_popout_stop | in_place_base ]).
Qed.

Lemma in_place_start_animation (name : string) :
  steps in_place (start_animation name).
Proof.
  intros w. unfold start_animation.
  destruct (animations w !! name) as [e|]; [|apply in_place_refl].
  revert w. change (steps in_place (call_start e ;;; ret true)).
  rel_steps in_place_trans
    ltac:(first [apply in_place_call_start | in_place_base]).
Qed.

Lemma in_place_manager_stop_animation (name : string) :
  steps in_place (AnimationManager.stop_animation name).
Proof.
  intros w. unfold AnimationManager.stop_animation.
  destruct (animations w !! name) as [e|]; [|apply in_place_refl].
  revert w. change (steps in_place (call_stop e ;;; ret true)).
  rel_steps in_place_trans
    ltac:(first [apply in_place_call_stop | in_place_base]).
Qed.

Lemma in_place_remove_animation (name : string) :
  steps in_place (remove_animation name).
Proof.
  intros w. unfold remove_animation.
  destruct (animations w !! name) as [e|]; [|apply in_place_refl].
  revert w.
  change (steps in_place
            (call_stop e ;;;
             (fun w' => (Val tt,
                         with_animations (delete name (animations w')) w')) ;;;
             ret true)).
  rel_steps in_place_trans
    ltac:(first [apply in_place_call_stop | in_place_base]).
Qed.

Lemma in_place_getitem (name : string) : steps in_place (getitem name).
Proof.
  intros w. unfold getitem.
  destruct (animations w !! name); apply in_place_refl.
Qed.

Lemma in_place_call (e : entry) (obj : nat) : steps in_place (call e obj).
Proof.
  unfold call, call_factory, PopInAnimation.__init__,
    _create_pulse_animation, new.
  rel_steps in_place_trans in_place_base.
Qed.

Ltac in_place_manager :=
  first [ apply in_place_start_animation | apply in_place_getitem
        | apply in_place_call | apply in_place_remove_animation
        | apply in_place_manager_stop_animation | in_place_base ].

Lemma in_place_for_each {A} (l : list A) (body : A -> M unit) :
  (forall x, steps in_place (body x)) -> steps in_place (for_each l body).
Proof.
  intros Hb. induction l as [|x l IH]; cbn [for_each].
  - intros w. apply in_place_refl.
  - apply steps_bind; [exact in_place_trans|apply Hb|intros _; exact IH].
Qed.

Lemma in_place_api_step (libm : Libm) (c : api_call) :
  steps in_place (api_step libm c).
Proof.
  destruct c; cbn [api_step].
  - unfold animate_button_press. rel_steps in_place_trans in_place_manager.
  - unfold animate_toggle. rel_steps in_place_trans in_place_manager.
  - unfold animate_panel_focus. rel_steps in_place_trans in_place_manager.
  - unfold animate_notification. rel_steps in_place_trans in_place_manager.
  - unfold animate_tab_activation, set_duration_attr.
    rel_steps in_place_trans in_place_manager.
  - unfold animate_search_navigation, new.
    rel_steps in_place_trans in_place_manager.
  - unfold MicroAnimations.stop_animation. apply in_place_for_each.
    intros prefix. rel_steps in_place_trans in_place_manager.
  - intros w. apply in_place_fire.
Qed.

(** [register_animations] puts a registry of startable entries in
    order. *)
Lemma register_animations_ok (w : World) :
  (forall key e, animations w !! key = Some e -> entry_ok w e) ->
  registry_ok (snd (register_animations w)).
Proof.
  intros Hall.
  unfold register_animations, add_animation, pass, ret, bind. exec.
  split; exec.
  - intros name Hn. unfold template_names in Hn.
    repeat (apply elem_of_cons in Hn as [->|Hn];
            [eexists; repeat (rewrite lookup_insert_ne by discriminate);
             apply lookup_insert_eq|]).
    inversion Hn.
  - intros key e Hk Hl. unfold template_names in Hk.
    repeat (apply not_elem_of_cons in Hk as [? Hk]).
    repeat (rewrite lookup_insert_ne in Hl by congruence).
    specialize (Hall key e Hl). destruct e; exact Hall.
Qed.

Lemma api_run_ok (libm : Libm) (cs : list api_call) :
  forall w,
    registry_ok w ->
    exists w', api_run libm cs w = (Val tt, w') /\ registry_ok w'
               /\ in_place w w'.
Proof.
  unfold api_run. induction cs as [|c cs IH]; intros w Hok.
  - exists w. split; [reflexivity|]. split; [exact Hok|apply in_place_refl].
  - cbn [for_each]. unfold bind.
    destruct (api_step_ok libm c w Hok) as (w1 & E1 & Hok1).
    pose proof (in_place_api_step libm c w) as Hin1. rewrite E1 in *.
    destruct (IH w1 Hok1) as (w' & E & Hok' & Hin).
    exists w'. split; [exact E|]. split; [exact Hok'|].
    eapply in_place_trans; eassumption.
Qed.

(** X18: the interface of [MicroAnimations] never raises.  Let the
    registry hold startable entries only (animations whose [max_steps] is
    a [divisor]: not 0 and below [float_int_limit] in magnitude; pop-ins
    whose children are such animations) when [register_animations] runs.  Then every sequence of calls of the
    recipes ([animate_button_press], [animate_toggle],
    [animate_panel_focus], [animate_notification],
    [animate_tab_activation], [animate_search_navigation]) and of
    [stop_animation], with timers firing in between in any order,
    returns: no KeyError, TypeError, AttributeError, ZeroDivisionError or
    OverflowError reaches the caller.  Afterwards the templates are still registered,
    every other key still holds a startable entry, and every object has
    exactly the attributes it had. *)
Theorem micro_animation_calls_never_raise (libm : Libm) (cs : list api_call)
    (w0 : World) :
  (forall key e, animations w0 !! key = Some e -> entry_ok w0 e) ->
  let w := snd (register_animations w0) in
  exists w',
    api_run libm cs w = (Val tt, w')
    /\ (forall name, name ∈ template_names ->
          exists f, animations w' !! name = Some (Factory f))
    /\ (forall key e, key ∉ template_names -> animations w' !! key = Some e ->
          entry_ok w' e)
    /\ (forall key, is_Some (attrs w' !! key) <-> is_Some (attrs w0 !! key)).
Proof.
  intros Hall w.
  destruct (api_run_ok libm cs w (register_animations_ok w0 Hall))
    as (w' & E & [Ht He] & Hin).
  exists w'. split; [exact E|]. split; [exact Ht|]. split; [exact He|].
  intros key. rewrite (Hin key). reflexivity.
Qed.

Lemma micro_animation_calls_never_raise_witness :
  let cs := [Toggle 0 true; ButtonPress 0; TimerFires 0; TabActivation 1;
             SearchNavigation 0; Toggle 0 false; ButtonPress 0;
             Notification 2; TimerFires 3; StopAnimation 0; PanelFocus 0;
             SearchNavigation 0; TimerFires 1] in
  let w := snd (register_animations live_under_k) in
  exists w',
    api_run libm_id cs w = (Val tt, w')
    /\ (forall name, name ∈ template_names ->
          exists f, animations w' !! name = Some (Factory f))
    /\ (forall key e, key ∉ template_names -> animations w' !! key = Some e ->
          entry_ok w' e)
    /\ (forall key, is_Some (attrs w' !! key)
                    <-> is_Some (attrs live_under_k !! key)).
Proof.
  apply (micro_animation_calls_never_raise libm_id
           [Toggle 0 true; ButtonPress 0; TimerFires 0; TabActivation 1;
            SearchNavigation 0; Toggle 0 false; ButtonPress 0;
            Notification 2; TimerFires 3; StopAnimation 0; PanelFocus 0;
            SearchNavigation 0; TimerFires 1]
           live_under_k).
  intros key e H.
  replace (animations live_under_k) with ({["k" := Anim 0]} : gmap string entry)
    in H by (vm_compute; reflexivity).
  apply lookup_singleton_Some in H as [<- <-].
  split; [vm_compute; lia|divisor_steps].
Defined.

(** ** What a firing writes *)

Lemma keeps_attr_setattr_if_present (key : nat * string) (o : nat)
    (name : string) (v : value) :
  key <> (o, name) ->
  steps (keeps (fun w => attrs w !! key)) (setattr_if_present o name v).
Proof.
  intros Hne w. unfold keeps. rewrite setattr_if_present_eq. cbn [snd].
  destruct (bool_decide _); exec; [|reflexivity].
  apply lookup_insert_ne. congruence.
Qed.

Ltac keeps_attr_steps key :=
  rel_steps (keeps_trans (fun w => attrs w !! key))
    ltac:(first [ apply keeps_attr_setattr_if_present; assumption
                | keeps_base ]).

Lemma keeps_attr_on_frame (libm : Libm) (a : nat) (key : nat * string)
    (w : World) :
  key ∉ targets (kind (anims w !!! a)) ->
  keeps (fun w => attrs w !! key) w (snd (on_frame libm a w)).
Proof.
  intros Hk. unfold on_frame. unfold bind at 1. unfold get_anim at 1.
  cbv beta iota. revert Hk. generalize (anims w !!! a) as s. intros s Hk.
  revert w.
  match goal with
  | |- forall w, keeps ?f w (snd (?m w)) => change (steps (keeps f) m)
  end.
  destruct (kind s); cbn [targets] in Hk;
    repeat (apply not_elem_of_cons in Hk as [? Hk]);
    unfold interpolate_frame, call_on_update, call_update, _refresh_ui;
    keeps_attr_steps key.
Qed.

Lemma keeps_attr_on_complete (a : nat) (key : nat * string) (w : World) :
  key ∉ targets (kind (anims w !!! a)) ->
  keeps (fun w => attrs w !! key) w (snd (on_complete a w)).
Proof.
  intros Hk. unfold on_complete. unfold bind at 1. unfold get_anim at 1.
  cbv beta iota. revert Hk. generalize (anims w !!! a) as s. intros s Hk.
  revert w.
  match goal with
  | |- forall w, keeps ?f w (snd (?m w)) => change (steps (keeps f) m)
  end.
  destruct (on_complete_attr s);
    [unfold completion_wrapper; keeps_attr_steps key|].
  destruct (kind s); cbn [targets] in Hk;
    repeat (apply not_elem_of_cons in Hk as [? Hk]);
    unfold _refresh_ui; keeps_attr_steps key.
Qed.

Lemma keeps_attr_advance (libm : Libm) (a : nat) (key : nat * string)
    (w : World) :
  key ∉ targets (kind (anims w !!! a)) ->
  keeps (fun w => attrs w !! key) w (snd (_advance libm a w)).
Proof.
  intros Hk. unfold _advance. unfold bind at 1. unfold get_anim at 1.
  cbv beta iota.
  destruct (negb (animating (anims w !!! a))); [reflexivity|].
  unfold bind at 1. unfold update_anim at 1. cbv beta iota.
  set (w1 := with_anims _ w).
  assert (Hk1 : key ∉ targets (kind (anims w1 !!! a))).
  { replace (kind (anims w1 !!! a)) with (kind (anims w !!! a)); [exact Hk|].
    symmetry.
    apply (static_kind _ _
             (static_update_anim a
                (set_current_step (current_step (anims w !!! a) + 1))
                ltac:(intros ?; repeat split) w)). }
  unfold keeps. transitivity (attrs w1 !! key); [|reflexivity].
  unfold bind at 1. unfold get_anim at 1. cbv beta iota.
  destruct (max_steps (anims w1 !!! a) <=? current_step (anims w1 !!! a)).
  - apply (keeps_attr_on_complete a key w1 Hk1).
  - pose proof (keeps_attr_on_frame libm a key w1 Hk1) as Hf.
    unfold keeps in *. unfold bind.
    destruct (on_frame libm a w1) as [[[]|e] w2]; cbn [snd] in *;
      [|exact Hf].
    rewrite <- Hf.
    pose proof (keeps_attrs_schedule_next_frame a w2) as Hs.
    unfold keeps in Hs. rewrite Hs. reflexivity.
Qed.

Lemma keeps_attr_fire (libm : Libm) (t : nat) (key : nat * string)
    (w : World) :
  (forall a, key ∉ targets (kind (anims w !!! a))) ->
  attrs (fire libm t w) !! key = attrs w !! key.
Proof.
  intros Hk. unfold fire.
  destruct (timers w !! t) as [tm|]; [|reflexivity].
  destruct (t_state tm); try reflexivity.
  apply (keeps_attr_advance libm (t_owner tm) key
           (with_timers (<[t := set_t_state Fired tm]> (timers w)) w)).
  apply Hk.
Qed.

(** X20: the code of a timer thread writes no attribute but the ones its
    animation drives.  An attribute that is the target of no animation in
    the store keeps its value (or its absence) through any schedule of
    firings, whatever the classes involved and the math library.  The
    callbacks a caller passes in are recorded as calls; what they write is
    theirs. *)
Theorem firings_write_only_targets (libm : Libm) (ts : list nat)
    (key : nat * string) (w : World) :
  (forall a, key ∉ targets (kind (anims w !!! a))) ->
  attrs (fires libm ts w) !! key = attrs w !! key.
Proof.
  revert w. unfold fires.
  induction ts as [|t ts IH]; intros w Hk; [reflexivity|].
  cbn [foldl]. rewrite IH.
  - apply keeps_attr_fire, Hk.
  - intros a. rewrite (static_kind _ _ (fire_static libm w t)). apply Hk.
Qed.

Lemma firings_write_only_targets_witness :
  attrs (fires libm_id [0; 1; 2]%nat fade_beside_scale) !! (0%nat, "scale")
  = Some (VFloat 1)
  /\ attrs (fires libm_id [0; 1; 2]%nat fade_beside_scale)
       !! (0%nat, "opacity") <> Some (VFloat 0).
Proof.
  split.
  - rewrite (firings_write_only_targets libm_id [0; 1; 2]%nat
               (0%nat, "scale") fade_beside_scale).
    + vm_compute. reflexivity.
    + intros [|a].
      * replace (kind (anims fade_beside_scale !!! 0%nat))
          with (FadeAnimation 0 "opacity" 0 1 None)
          by (vm_compute; reflexivity).
        apply not_elem_of_cons. split; [discriminate|apply not_elem_of_nil].
      * replace (kind (anims fade_beside_scale !!! S a)) with Base
          by (vm_compute; reflexivity).
        apply not_elem_of_nil.
  - vm_compute. discriminate.
Defined.

(** ** Callbacks that overlap *)

Lemma thread_step_idle (libm : Libm) (w : World) (live : gmap nat (nat * point)) (t : nat) :
  live !! t = None ->
  (forall tm, timers w !! t = Some tm -> t_state tm <> Pending) ->
  thread_step libm (w, live) t = (w, live).
Proof.
  intros Hl Hn. unfold thread_step. rewrite Hl.
  destruct (timers w !! t) as [tm|]; [|reflexivity].
  specialize (Hn tm eq_refl). destruct (t_state tm); congruence.
Qed.

Lemma thread_step_begins (libm : Libm) (w : World) (live : gmap nat (nat * point)) (t : nat)
    (tm : Timer) :
  live !! t = None -> timers w !! t = Some tm -> t_state tm = Pending ->
  thread_step libm (w, live) t
  = (mark_fired t tm w, <[t := (t_owner tm, AtGuard)]> live).
Proof. intros Hl Ht Hst. unfold thread_step. rewrite Hl, Ht, Hst. reflexivity. Qed.

Lemma thread_step_live (libm : Libm) (w : World) (live : gmap nat (nat * point)) (t a : nat)
    (pt : point) :
  live !! t = Some (a, pt) ->
  thread_step libm (w, live) t
  = match run_point libm a pt w with
    | (Some pt', w') => (w', <[t := (a, pt')]> live)
    | (None, w') => (w', delete t live)
    end.
Proof. intros Hl. unfold thread_step. rewrite Hl. reflexivity. Qed.

(** A statement of [_advance] moves the animation of the thread only, and
    it is a step of [frame]. *)
Lemma run_point_frame (libm : Libm) (a : nat) (pt : point) (w : World) :
  frame a w (snd (run_point libm a pt w)).
Proof.
  destruct pt; cbn [run_point snd].
  - apply frame_refl.
  - apply frame_refl.
  - apply frame_update_anim, benign_set_current_step.
  - apply frame_refl.
  - apply frame_on_complete.
  - pose proof (frame_on_frame libm a w) as H.
    destruct (on_frame libm a w) as [[[]|e] w']; exact H.
  - apply frame_schedule_next_frame.
Qed.

Lemma frame_timer_kept (a : nat) (w w' : World) (t : nat) (tm : Timer) :
  frame a w w' -> timers w !! t = Some tm -> timers w' !! t = Some tm.
Proof.
  intros Hf Ht. destruct (frame_timers _ _ _ Hf) as (extra & -> & _).
  rewrite lookup_app_l by (eapply lookup_lt_Some, Ht). exact Ht.
Qed.

(** The timers a statement starts: none, but for [schedule_next_frame],
    which starts at most one, for the animation of the thread. *)
Lemma run_point_timers (libm : Libm) (a : nat) (pt : point) (w : World) :
  timers (snd (run_point libm a pt w)) = timers w
  \/ pt = AtSchedule
     /\ fst (run_point libm a pt w) = None
     /\ exists tm, timers (snd (run_point libm a pt w)) = timers w ++ [tm]
                   /\ t_owner tm = a.
Proof.
  destruct pt; cbn [run_point snd fst].
  - left. reflexivity.
  - left. reflexivity.
  - left. reflexivity.
  - left. reflexivity.
  - left. apply keeps_timers_on_complete.
  - left. pose proof (keeps_timers_on_frame libm a w) as H.
    destruct (on_frame libm a w) as [[[]|e] w']; exact H.
  - destruct (schedule_adds_at_most_one a w) as [H|H]; [left; exact H|].
    right. auto.
Qed.

(** The thread model extends [fire]: a callback that no other thread
    interrupts does what [fire] does. *)
Lemma uninterrupted_is_fire (libm : Libm) (t : nat) (w : World)
    (live : gmap nat (nat * point)) :
  live !! t = None ->
  interleave libm (uninterrupted t) (w, live) = (fire libm t w, live).
Proof.
  intros Hl. unfold interleave, uninterrupted. cbn [repeat foldl].
  destruct (fire_cases libm w t) as [[-> Hn]|(tm & Ht & Hst & Hfire & _)].
  { rewrite !thread_step_idle by assumption. reflexivity. }
  rewrite (thread_step_begins libm w live t tm Hl Ht Hst).
  rewrite Hfire. set (a := t_owner tm). set (w1 := mark_fired t tm w).
  assert (Hfired : forall w', frame a w1 w' ->
            forall tm', timers w' !! t = Some tm' -> t_state tm' <> Pending).
  { intros w' Hf tm' Ht'.
    assert (Ht1 : timers w1 !! t = Some (set_t_state Fired tm)).
    { unfold w1, mark_fired. exec. apply list_lookup_insert_eq.
      eapply lookup_lt_Some, Ht. }
    rewrite (frame_timer_kept a w1 w' t _ Hf Ht1) in Ht'.
    injection Ht' as <-. discriminate. }
  assert (Hend : delete t (<[t := (a, AtGuard)]> live) = live)
    by (rewrite delete_insert_eq; apply delete_id, Hl).
  (* the guard *)
  rewrite (thread_step_live libm w1 _ t a AtGuard) by apply lookup_insert_eq.
  unfold _advance. unfold bind at 1. unfold get_anim at 1.
  cbn [run_point]. destruct (negb (animating (anims w1 !!! a))).
  { rewrite Hend.
    rewrite !thread_step_idle
      by first [assumption | apply Hfired, frame_refl].
    reflexivity. }
  (* the increment: the read, then the write *)
  rewrite (thread_step_live libm w1 _ t a AtIncrement)
    by apply lookup_insert_eq.
  cbn [run_point]. rewrite !insert_insert_eq.
  rewrite (thread_step_live libm w1 _ t a (AtStore _))
    by apply lookup_insert_eq.
  cbn [run_point]. rewrite !insert_insert_eq.
  unfold bind at 1.
  pose proof (frame_update_anim a
                (set_current_step (current_step (anims w1 !!! a) + 1))
                (benign_set_current_step _) w1) as Hf2.
  destruct (update_anim a _ w1) as [r2 w2] eqn:E2. cbn [snd] in *.
  assert (Hr2 : r2 = Val tt) by (unfold update_anim in E2; congruence).
  subst r2.
  (* the test *)
  rewrite (thread_step_live libm w2 _ t a AtTest) by apply lookup_insert_eq.
  cbn [run_point]. rewrite !insert_insert_eq.
  unfold bind at 1. unfold get_anim at 1.
  destruct (max_steps (anims w2 !!! a) <=? current_step (anims w2 !!! a)).
  - (* completion *)
    rewrite (thread_step_live libm w2 _ t a AtComplete)
      by apply lookup_insert_eq.
    cbn [run_point]. rewrite ?insert_insert_eq, delete_insert_eq, (delete_id _ _ Hl).
    rewrite thread_step_idle; [reflexivity|exact Hl|].
    apply Hfired. eapply frame_trans; [exact Hf2|apply frame_on_complete].
  - (* a frame, and the next timer *)
    rewrite (thread_step_live libm w2 _ t a AtFrame)
      by apply lookup_insert_eq.
    cbn [run_point]. unfold bind.
    pose proof (frame_on_frame libm a w2) as Hf3.
    destruct (on_frame libm a w2) as [[[]|e] w3]; cbn [snd] in *.
    + rewrite !insert_insert_eq.
      rewrite (thread_step_live libm w3 _ t a AtSchedule)
        by apply lookup_insert_eq.
      cbn [run_point]. rewrite ?insert_insert_eq, delete_insert_eq, (delete_id _ _ Hl).
      reflexivity.
    + rewrite ?insert_insert_eq, delete_insert_eq, (delete_id _ _ Hl).
      rewrite thread_step_idle; [reflexivity|exact Hl|].
      apply Hfired. eapply frame_trans; eassumption.
Qed.

(** A schedule of whole callbacks is a run of [fires]. *)
Lemma callbacks_in_turn (libm : Libm) (ts : list nat) :
  forall w, interleave libm (concat (List.map uninterrupted ts)) (w, ∅)
            = (fires libm ts w, ∅).
Proof.
  unfold interleave, fires.
  induction ts as [|t ts IH]; intros w; [reflexivity|].
  cbn [List.map concat]. rewrite foldl_app.
  fold (interleave libm (uninterrupted t) (w, ∅)).
  rewrite uninterrupted_is_fire by apply lookup_empty.
  cbn [foldl]. apply IH.
Qed.

Lemma threads_ok_step (libm : Libm) (st : World * gmap nat (nat * point))
    (t : nat) :
  threads_ok st -> threads_ok (thread_step libm st t).
Proof.
  destruct st as [w live]. intros Hok. unfold threads_ok in *. cbn [fst snd] in *.
  destruct (live !! t) as [[a pt]|] eqn:Hl.
  - rewrite (thread_step_live libm w live t a pt Hl).
    pose proof (run_point_frame libm a pt w) as Hf.
    destruct (run_point libm a pt w) as [[pt'|] w']; cbn [fst snd] in *;
      intros t0 a0 p0 H0.
    + destruct (decide (t0 = t)) as [->|Hne].
      * rewrite lookup_insert_eq in H0. injection H0 as <- <-.
        destruct (Hok t a pt Hl) as (tm & Ht & Ho & Hs).
        exists tm. split; [eapply frame_timer_kept; eassumption|auto].
      * rewrite lookup_insert_ne in H0 by congruence.
        destruct (Hok t0 a0 p0 H0) as (tm & Ht & Ho & Hs).
        exists tm. split; [eapply frame_timer_kept; eassumption|auto].
    + destruct (decide (t0 = t)) as [->|Hne].
      * rewrite lookup_delete_eq in H0. discriminate H0.
      * rewrite lookup_delete_ne in H0 by congruence.
        destruct (Hok t0 a0 p0 H0) as (tm & Ht & Ho & Hs).
        exists tm. split; [eapply frame_timer_kept; eassumption|auto].
  - destruct (timers w !! t) as [tm|] eqn:Ht.
    2: { rewrite thread_step_idle; [exact Hok|exact Hl|].
         intros tm. rewrite Ht. discriminate. }
    destruct (t_state tm) eqn:Hst.
    2,3: rewrite thread_step_idle;
           [exact Hok|exact Hl|intros tm'; rewrite Ht; intros [= <-]; congruence].
    rewrite (thread_step_begins libm w live t tm Hl Ht Hst). cbn [fst snd].
    intros t0 a0 p0 H0. unfold mark_fired. exec.
    destruct (decide (t0 = t)) as [->|Hne].
    + rewrite lookup_insert_eq in H0. injection H0 as <- <-.
      exists (set_t_state Fired tm).
      split; [apply list_lookup_insert_eq; eapply lookup_lt_Some, Ht|].
      split; reflexivity.
    + rewrite lookup_insert_ne in H0 by congruence.
      rewrite list_lookup_insert_ne by congruence. eauto.
Qed.

Lemma threads_ok_interleave (libm : Libm) (sched : list nat) :
  forall st, threads_ok st -> threads_ok (interleave libm sched st).
Proof.
  unfold interleave. induction sched as [|t sched IH]; intros st Hok;
    [exact Hok|].
  cbn [foldl]. apply IH, threads_ok_step, Hok.
Qed.

Lemma pending_of_lt (a t : nat) (w : World) :
  pending_of a t w = true -> (t < length (timers w))%nat.
Proof.
  unfold pending_of. destruct (timers w !! t) eqn:Ht; [|discriminate].
  intros _. eapply lookup_lt_Some, Ht.
Qed.

Lemma pending_of_same (a t : nat) (w w' : World) :
  timers w' !! t = timers w !! t -> pending_of a t w' = pending_of a t w.
Proof. unfold pending_of. intros ->. reflexivity. Qed.

Lemma pending_of_owner (a t : nat) (w : World) (tm : Timer) :
  timers w !! t = Some tm -> pending_of a t w = true ->
  t_owner tm = a /\ t_state tm = Pending.
Proof.
  unfold pending_of, is_pending_of. intros ->.
  destruct (t_state tm); rewrite ?andb_false_r; try discriminate.
  rewrite andb_true_r. intros H. apply Nat.eqb_eq in H. auto.
Qed.

(** What keeps an animation busy after one statement of a thread kept
    it busy before, but for the timer that [schedule_next_frame] starts:
    then the thread was one of the animation, and it has ended. *)
Lemma busy_step (libm : Libm) (a0 : nat)
    (st : World * gmap nat (nat * point)) (t x : nat) :
  threads_ok st ->
  busy a0 (thread_step libm st t) x ->
  busy a0 st x
  \/ (x = length (timers (fst st))
      /\ (exists pt, snd st !! t = Some (a0, pt))
      /\ ~ busy a0 (thread_step libm st t) t).
Proof.
  destruct st as [w live]. intros Hok Hb. cbn [fst snd].
  destruct (live !! t) as [[a pt]|] eqn:Hl.
  - rewrite (thread_step_live libm w live t a pt Hl) in *.
    destruct (Hok t a pt Hl) as (tm & Ht & Ho & Hs). cbn [fst snd] in Ht.
    pose proof (run_point_timers libm a pt w) as Htm.
    destruct (run_point libm a pt w) as [next w'] eqn:E; cbn [fst snd] in Htm.
    assert (Hlive : forall p,
              snd (match next with
                   | Some pt' => (w', <[t := (a, pt')]> live)
                   | None => (w', delete t live)
                   end) !! x = Some (a0, p) ->
              exists p', live !! x = Some (a0, p')).
    { intros p Hp. destruct next as [pt'|]; cbn [snd] in Hp.
      - destruct (decide (x = t)) as [->|Hne].
        + rewrite lookup_insert_eq in Hp. injection Hp as <- _. eauto.
        + rewrite lookup_insert_ne in Hp by congruence. eauto.
      - destruct (decide (x = t)) as [->|Hne].
        + rewrite lookup_delete_eq in Hp. discriminate Hp.
        + rewrite lookup_delete_ne in Hp by congruence. eauto. }
    assert (Hw' : fst (match next with
                       | Some pt' => (w', <[t := (a, pt')]> live)
                       | None => (w', delete t live)
                       end) = w') by (destruct next; reflexivity).
    destruct Hb as [Hp|[p Hp]]; [|left; right; eapply Hlive, Hp].
    rewrite Hw' in Hp.
    destruct Htm as [Hsame|(-> & -> & tm' & Hnew & Ho')].
    { left. left. rewrite <- Hp. symmetry. apply pending_of_same.
      rewrite Hsame. reflexivity. }
    destruct (decide (x < length (timers w))%nat) as [Hlt|Hge].
    { left. left. rewrite <- Hp. symmetry. apply pending_of_same.
      rewrite Hnew. apply lookup_app_l, Hlt. }
    assert (Hx : x = length (timers w)).
    { pose proof (pending_of_lt _ _ _ Hp) as Hlt.
      rewrite Hnew, length_app in Hlt. cbn [length] in Hlt. lia. }
    subst x. right. split; [reflexivity|].
    assert (Hnewtm : timers w' !! length (timers w) = Some tm').
    { rewrite Hnew, lookup_app_r by lia. rewrite Nat.sub_diag. reflexivity. }
    destruct (pending_of_owner a0 _ w' tm' Hnewtm Hp) as [Ha0 _].
    assert (a0 = a) by congruence. subst a0.
    split; [exists AtSchedule; congruence|]. unfold busy. cbn [fst snd].
    intros [Hpt|[p' Hpt]].
    + assert (Htt : timers w' !! t = Some tm).
      { rewrite Hnew. rewrite lookup_app_l by (eapply lookup_lt_Some, Ht).
        exact Ht. }
      destruct (pending_of_owner _ _ w' tm Htt Hpt) as [_ Hst].
      congruence.
    + rewrite lookup_delete_eq in Hpt. discriminate Hpt.
  - destruct (timers w !! t) as [tm|] eqn:Ht.
    2: { rewrite thread_step_idle in Hb; [left; exact Hb|exact Hl|].
         intros tm. rewrite Ht. discriminate. }
    destruct (t_state tm) eqn:Hst.
    2,3: rewrite thread_step_idle in Hb;
           [left; exact Hb|exact Hl
           |intros tm'; rewrite Ht; intros [= <-]; congruence].
    rewrite (thread_step_begins libm w live t tm Hl Ht Hst) in Hb.
    left. destruct Hb as [Hp|[p Hp]]; cbn [fst snd] in Hp.
    + left. destruct (decide (x = t)) as [->|Hne].
      * assert (Htt : timers (mark_fired t tm w) !! t
                      = Some (set_t_state Fired tm)).
        { unfold mark_fired. exec. apply list_lookup_insert_eq.
          eapply lookup_lt_Some, Ht. }
        destruct (pending_of_owner _ _ _ _ Htt Hp) as [_ Hf].
        discriminate Hf.
      * rewrite <- Hp. symmetry. apply pending_of_same.
        unfold mark_fired. exec. apply list_lookup_insert_ne. congruence.
    + destruct (decide (x = t)) as [->|Hne].
      * rewrite lookup_insert_eq in Hp. injection Hp as <- _.
        left. cbn [fst]. rewrite (pending_of_fired _ t tm w Ht Hst).
        apply Nat.eqb_refl.
      * rewrite lookup_insert_ne in Hp by congruence. right. eauto.
Qed.

Lemma serial_step (libm : Libm) (a0 : nat)
    (st : World * gmap nat (nat * point)) (t : nat) :
  threads_ok st -> serial a0 st -> serial a0 (thread_step libm st t).
Proof.
  intros Hok Hser t1 t2 H1 H2.
  destruct (busy_step libm a0 st t t1 Hok H1) as [B1|(E1 & [p1 L1] & N1)];
    destruct (busy_step libm a0 st t t2 Hok H2) as [B2|(E2 & [p2 L2] & N2)].
  - apply Hser; assumption.
  - exfalso. apply N2.
    assert (t1 = t) as <- by (apply Hser; [exact B1|right; eauto]).
    exact H1.
  - exfalso. apply N1.
    assert (t2 = t) as <- by (apply Hser; [exact B2|right; eauto]).
    exact H2.
  - congruence.
Qed.

Lemma serial_interleave (libm : Libm) (a0 : nat) (sched : list nat) :
  forall st, threads_ok st -> serial a0 st ->
             serial a0 (interleave libm sched st).
Proof.
  unfold interleave. induction sched as [|t sched IH]; intros st Hok Hser;
    [exact Hser|].
  cbn [foldl]. apply IH; [apply threads_ok_step, Hok|apply serial_step; assumption].
Qed.

(** C3, as the code has it: after [start()] was called twice in a row the
    fade of the pop-out has two pending timers, and [_advance] takes no
    lock.  Nine callbacks of the fade run one after the other; the
    callbacks of the two timers that are pending then overlap: each
    passes the [animating] guard, counts its step and reaches
    [self.on_complete()] before the other has cleared [animating].  The
    completion wrapper runs twice, so the callback of the caller is
    called twice in one cycle, and [current_step] ends at 11 of 10.  When
    the same two callbacks run one after the other it is called once. *)
Theorem popout_overlapping_callbacks_complete_twice :
  let w := popout_started_twice in
  let st :=
    interleave libm_id
      (concat (List.map uninterrupted [0; 2; 4; 5; 6; 7; 8; 9; 10]%nat))
      (w, ∅) in
  let overlap :=
    interleave libm_id
      [11; 11; 11; 11; 11; 12; 12; 12; 12; 12; 11; 12]%nat st in
  let in_turn :=
    interleave libm_id (uninterrupted 11 ++ uninterrupted 12) st in
  (fade_animation (pops w !!! 0%nat) = Some 0%nat
   /\ pop_on_complete (pops w !!! 0%nat) = Some 7%nat
   /\ length (pending_timers 0 w) = 2%nat
   /\ completion_calls 0 7 w = 0%nat)
  /\ (current_step (anims (fst st) !!! 0%nat) = 9
      /\ max_steps (anims (fst st) !!! 0%nat) = 10
      /\ completion_calls 0 7 (fst st) = 0%nat
      /\ pending_of 0 11 (fst st) = true
      /\ pending_of 0 12 (fst st) = true
      /\ snd st = ∅)
  /\ (completion_calls 0 7 (fst overlap) = 2%nat
      /\ current_step (anims (fst overlap) !!! 0%nat) = 11
      /\ animating (anims (fst overlap) !!! 0%nat) = false
      /\ pending_timers 0 (fst overlap) = []
      /\ snd overlap = ∅)
  /\ completion_calls 0 7 (fst in_turn) = 1%nat.
Proof. cbn zeta. repeat split; vm_compute; reflexivity. Qed.

(** X19: the callbacks of an animation overlap only if two of its timers
    are pending at once.  When at most one timer of the animation is
    pending and no callback is under way, then under every schedule of
    the timer threads, statement by statement and whatever the other
    animations do: no two callbacks of the animation are under way at
    the same time, none of its timers is pending while one is, and at
    most one of its timers is pending at any time. *)
Theorem callbacks_of_one_timer_never_overlap (libm : Libm)
    (sched : list nat) (a : nat) (w : World) :
  (forall t1 t2, pending_of a t1 w = true -> pending_of a t2 w = true ->
                 t1 = t2) ->
  let st := interleave libm sched (w, ∅) in
  (forall t1 t2 p1 p2,
     snd st !! t1 = Some (a, p1) -> snd st !! t2 = Some (a, p2) -> t1 = t2)
  /\ (forall t p t', snd st !! t = Some (a, p) ->
                     pending_of a t' (fst st) = false)
  /\ (forall t1 t2, pending_of a t1 (fst st) = true ->
                    pending_of a t2 (fst st) = true -> t1 = t2).
Proof.
  intros Hone. cbn zeta.
  assert (Hok0 : threads_ok (w, ∅)).
  { intros t a0 pt H. cbn [snd] in H. rewrite lookup_empty in H.
    discriminate H. }
  assert (Hser0 : serial a (w, ∅)).
  { intros t1 t2 [H1|[p1 H1]] [H2|[p2 H2]]; cbn [fst snd] in *;
      rewrite ?lookup_empty in *; try discriminate.
    apply Hone; assumption. }
  pose proof (threads_ok_interleave libm sched _ Hok0) as Hok.
  pose proof (serial_interleave libm a sched _ Hok0 Hser0) as Hser.
  destruct (interleave libm sched (w, ∅)) as [w' live]. cbn [fst snd] in *.
  split; [|split].
  - intros t1 t2 p1 p2 H1 H2. apply Hser; right; eauto.
  - intros t p t' Hl.
    destruct (pending_of a t' w') eqn:Hp; [exfalso|reflexivity].
    assert (t' = t) as -> by (apply Hser; [left; exact Hp|right; eauto]).
    destruct (Hok t a p Hl) as (tm & Ht & _ & Hs). cbn [fst] in Ht.
    destruct (pending_of_owner a t w' tm Ht Hp) as [_ Hst]. congruence.
  - intros t1 t2 H1 H2. apply Hser; left; assumption.
Qed.

Lemma callbacks_of_one_timer_never_overlap_witness :
  let w := snd (PopOutAnimation.start 0 popout_world) in
  let st := interleave libm_id [0; 1; 0; 1; 1; 0; 0; 1; 0; 0; 1; 0; 2; 1; 2]%nat (w, ∅) in
  (forall t1 t2 p1 p2,
     snd st !! t1 = Some (0%nat, p1) -> snd st !! t2 = Some (0%nat, p2) ->
     t1 = t2)
  /\ (forall t p t', snd st !! t = Some (0%nat, p) ->
                     pending_of 0 t' (fst st) = false)
  /\ (forall t1 t2, pending_of 0 t1 (fst st) = true ->
                    pending_of 0 t2 (fst st) = true -> t1 = t2).
Proof.
  apply (callbacks_of_one_timer_never_overlap libm_id
           [0; 1; 0; 1; 1; 0; 0; 1; 0; 0; 1; 0; 2; 1; 2]%nat 0
           (snd (PopOutAnimation.start 0 popout_world))).
  intros [|[|t1]] [|[|t2]] H1 H2; try reflexivity;
    vm_compute in H1, H2; discriminate.
Defined.

(** In that run the callbacks of the fade and of the scale overlap; the
    fade is in its second callback and none of its timers is pending. *)
Example one_start_threads :
  let w := snd (PopOutAnimation.start 0 popout_world) in
  let st := interleave libm_id [0; 1; 0; 1; 1; 0; 0; 1; 0; 0; 1; 0; 2; 1; 2]%nat (w, ∅) in
  map_to_list (snd st)
  = [(2%nat, (0%nat, AtIncrement)); (1%nat, (1%nat, AtSchedule))]
  /\ current_step (anims (fst st) !!! 0%nat) = 1
  /\ length (pending_timers 0 (fst st)) = 0%nat.
Proof. cbn zeta. repeat split; vm_compute; reflexivity. Qed.
